(** * HelloGolang / Projects / Binutils: a shallow embedding of the ELF toolkit

    The development follows the Go sources file by file:
    - [GoPrim]: the fragments of the Go runtime and standard library the
      tools rely on (byte slices, strings, [fmt] verbs, [strconv]);
    - [Elf]:    [elf/elf.go] (the model, [ParseELF], [parseSections],
      [parseSymbols], [ReadCString] and the label tables);
    - [Nm]:     the symbol lister of [03_nm.go];
    - [As]:     the assembler ([generateCode], [generateSymbols]);
    - [Ld]:     the linker of [12_ld.go];
    - [Ar]:     the archive codec of [06_ar.go].

    A Go [[]byte] is a [list byte] where a byte is an 8-bit [ascii]; a Go
    [string] is a [string]; fixed-width unsigned integers are [Z] with the
    wrap-around written out. *)

From Stdlib Require Import ZArith Ascii String List Lia Permutation Sorted.
From stdpp Require Import gmap strings list fin_maps sorting.

Open Scope Z_scope.

(** * Go primitives *)
Module GoPrim.

Definition byte := ascii.

Definition u8 (b : byte) : Z := Z.of_N (N_of_ascii b).
Definition byte_of_Z (z : Z) : byte := ascii_of_N (Z.to_N (z mod 256)).

Definition zero_byte : byte := byte_of_Z 0.

(** [string(b)] and [[]byte(s)] *)
Definition string_of_bytes (b : list byte) : string := string_of_list_ascii b.
Definition bytes_of_string (s : string) : list byte := list_ascii_of_string s.

(** [make([]byte, n)] *)
Definition make_bytes (n : nat) : list byte := replicate n zero_byte.

(** Wrap-around of the fixed-width unsigned types, and the
    reinterpretation [int64(x)] of a [uint64]. *)
Definition wrap8 (z : Z) : Z := z mod 2 ^ 8.
Definition wrap16 (z : Z) : Z := z mod 2 ^ 16.
Definition wrap32 (z : Z) : Z := z mod 2 ^ 32.
Definition wrap64 (z : Z) : Z := z mod 2 ^ 64.
Definition int64_of_uint64 (z : Z) : Z :=
  if z <? 2 ^ 63 then z else z - 2 ^ 64.

(** The outcome of a call: a value, a returned [error] (its message),
    or a run-time panic. *)
Inductive outcome (A : Type) : Type :=
| Ok (a : A)
| Err (msg : string)
| Panic (msg : string).
Arguments Ok {A} a.
Arguments Err {A} msg.
Arguments Panic {A} msg.

Definition is_Err {A} (o : outcome A) : Prop :=
  match o with Err _ => True | _ => False end.

(** ** [fmt] verbs *)

Definition digit_char (d : Z) : ascii :=
  ascii_of_N (Z.to_N (if d <? 10 then 48 + d else 87 + d)).

(** The digit loop of [fmt]: digits are produced from the least
    significant one and written right to left. [fuel] bounds the number
    of digits, as the fixed buffer of the library does. *)
Fixpoint fmt_digits (base : Z) (fuel : nat) (u : Z) (acc : string) : string :=
  match fuel with
  | O => acc
  | S fuel' =>
      let acc' := String (digit_char (u mod base)) acc in
      if u <? base then acc' else fmt_digits base fuel' (u / base) acc'
  end.

(** ["%d"] on a signed or unsigned 64-bit integer *)
Definition fmt_d (n : Z) : string :=
  if n <? 0 then String "-" (fmt_digits 10 20 (- n) "")
  else fmt_digits 10 20 n "".

(** ["%o"] on a signed integer, ["%x"] on an unsigned one *)
Definition fmt_o (n : Z) : string :=
  if n <? 0 then String "-" (fmt_digits 8 22 (- n) "")
  else fmt_digits 8 22 n "".
Definition fmt_x (n : Z) : string := fmt_digits 16 16 n "".

Fixpoint repeat_char (c : ascii) (n : nat) : string :=
  match n with O => "" | S n' => String c (repeat_char c n') end.

(** ["%0Nx"]: zero padding on the left up to [width] characters *)
Definition fmt_0x (width : nat) (n : Z) : string :=
  let s := fmt_x n in
  repeat_char "0" (width - String.length s) +:+ s.

End GoPrim.
Import GoPrim.

(** * elf/elf.go: the data model *)

Module ELFHeader.
Record t := mk {
  Magic : list byte;
  Class : Z;
  Data : Z;
  Version : Z;
  OSABI : Z;
  ABIVersion : Z;
  Padding : list byte;
  Type_ : Z;
  Machine : Z;
  Version32 : Z;
  Entry64 : Z;
  PhOff64 : Z;
  ShOff64 : Z;
  Flags : Z;
  EhSize : Z;
  PhentSize : Z;
  PhNum : Z;
  ShentSize : Z;
  ShNum : Z;
  ShStrndx : Z
}.
(** [var header ELFHeader] *)
Definition zero : t :=
  mk (make_bytes 4) 0 0 0 0 0 (make_bytes 7) 0 0 0 0 0 0 0 0 0 0 0 0 0.
Definition with_Magic (h : t) (v : list byte) : t :=
  mk v (Class h) (Data h) (Version h) (OSABI h) (ABIVersion h) (Padding h)
     (Type_ h) (Machine h) (Version32 h) (Entry64 h) (PhOff64 h) (ShOff64 h)
     (Flags h) (EhSize h) (PhentSize h) (PhNum h) (ShentSize h) (ShNum h)
     (ShStrndx h).
Definition with_Class (h : t) (v : Z) : t :=
  mk (Magic h) v (Data h) (Version h) (OSABI h) (ABIVersion h) (Padding h)
     (Type_ h) (Machine h) (Version32 h) (Entry64 h) (PhOff64 h) (ShOff64 h)
     (Flags h) (EhSize h) (PhentSize h) (PhNum h) (ShentSize h) (ShNum h)
     (ShStrndx h).
End ELFHeader.

Module Section.
Record t := mk {
  Name : string;
  Type_ : Z;
  Flags : Z;
  Addr : Z;
  Offset : Z;
  Size : Z;
  Link : Z;
  Info : Z;
  AddrAlign : Z;
  EntSize : Z;
  Data : list byte
}.
Definition zero : t := mk "" 0 0 0 0 0 0 0 0 0 [].
Definition with_Name (s : t) (v : string) : t :=
  mk v (Type_ s) (Flags s) (Addr s) (Offset s) (Size s) (Link s) (Info s)
     (AddrAlign s) (EntSize s) (Data s).
Definition with_Size (s : t) (v : Z) : t :=
  mk (Name s) (Type_ s) (Flags s) (Addr s) (Offset s) v (Link s) (Info s)
     (AddrAlign s) (EntSize s) (Data s).
Definition with_Data (s : t) (v : list byte) : t :=
  mk (Name s) (Type_ s) (Flags s) (Addr s) (Offset s) (Size s) (Link s)
     (Info s) (AddrAlign s) (EntSize s) v.
End Section.

Module Segment.
Record t := mk {
  Type_ : Z;
  Flags : Z;
  Offset : Z;
  VAddr : Z;
  PAddr : Z;
  FileSz : Z;
  MemSz : Z;
  Align : Z
}.
End Segment.

Module Symbol.
Record t := mk {
  Name : string;
  Value : Z;
  Size : Z;
  Info : Z;
  Other : Z;
  Shndx : Z;
  Type_ : string;
  Binding : string
}.
Definition zero : t := mk "" 0 0 0 0 0 "" "".
End Symbol.

Module ELF.
Record t := mk {
  Class : string;
  Data : string;
  Version : Z;
  OSABI : string;
  Type_ : string;
  Machine : string;
  Entry : Z;
  Header : ELFHeader.t;
  Sections : list Section.t;
  Segments : list Segment.t;
  Symbols : list Symbol.t;
  StringTable : list byte
}.
(** [&ELF{}] *)
Definition zero : t := mk "" "" 0 "" "" "" 0 ELFHeader.zero [] [] [] [].
Definition with_Class (e : t) (v : string) : t :=
  mk v (Data e) (Version e) (OSABI e) (Type_ e) (Machine e) (Entry e)
     (Header e) (Sections e) (Segments e) (Symbols e) (StringTable e).
Definition with_Data (e : t) (v : string) : t :=
  mk (Class e) v (Version e) (OSABI e) (Type_ e) (Machine e) (Entry e)
     (Header e) (Sections e) (Segments e) (Symbols e) (StringTable e).
Definition with_OSABI (e : t) (v : string) : t :=
  mk (Class e) (Data e) (Version e) v (Type_ e) (Machine e) (Entry e)
     (Header e) (Sections e) (Segments e) (Symbols e) (StringTable e).
(** the four assignments of a class branch of [ParseELF] *)
Definition with_fields (e : t) (ty ma : string) (ve en : Z) : t :=
  mk (Class e) (Data e) ve (OSABI e) ty ma en
     (Header e) (Sections e) (Segments e) (Symbols e) (StringTable e).
Definition with_Header (e : t) (v : ELFHeader.t) : t :=
  mk (Class e) (Data e) (Version e) (OSABI e) (Type_ e) (Machine e) (Entry e)
     v (Sections e) (Segments e) (Symbols e) (StringTable e).
Definition with_Sections (e : t) (v : list Section.t) : t :=
  mk (Class e) (Data e) (Version e) (OSABI e) (Type_ e) (Machine e) (Entry e)
     (Header e) v (Segments e) (Symbols e) (StringTable e).
Definition with_Symbols (e : t) (v : list Symbol.t) : t :=
  mk (Class e) (Data e) (Version e) (OSABI e) (Type_ e) (Machine e) (Entry e)
     (Header e) (Sections e) (Segments e) v (StringTable e).
Definition with_StringTable (e : t) (v : list byte) : t :=
  mk (Class e) (Data e) (Version e) (OSABI e) (Type_ e) (Machine e) (Entry e)
     (Header e) (Sections e) (Segments e) (Symbols e) v.
End ELF.

(** * elf/elf.go: the parser *)
Module Elf.

(** ** The byte source

    [ParseELF] takes an [io.ReadSeeker]; the tools pass an [*os.File] and
    the test a [*bytes.Reader]. Both are a byte sequence with a current
    offset. *)
Record Reader := mkReader { r_s : list byte; r_i : Z }.

Definition NewReader (b : list byte) : Reader := mkReader b 0.

Definition avail (r : Reader) : list byte :=
  if r_i r <? Z.of_nat (length (r_s r)) then drop (Z.to_nat (r_i r)) (r_s r)
  else [].

(** [r.Seek(offset, io.SeekStart)]: a negative offset is an error, an
    offset past the end is accepted. *)
Definition Seek (offset : Z) (r : Reader) : Reader * outcome Z :=
  if offset <? 0 then (r, Err "bytes.Reader.Seek: negative position")
  else (mkReader (r_s r) offset, Ok offset).

(** [r.Read(make([]byte, n))]: at the end of the input no byte is read
    and the error is [io.EOF] ([true] below); otherwise as many bytes as
    are available are copied, the rest of the buffer keeps its zeros and
    the error is nil. *)
Definition Read (n : nat) (r : Reader) : Reader * (list byte * bool) :=
  match avail r with
  | [] => (r, (make_bytes n, true))
  | a =>
      let chunk := take n a in
      (mkReader (r_s r) (r_i r + Z.of_nat (length chunk)),
       (chunk ++ make_bytes (n - length chunk), false))
  end.

(** [io.ReadFull], used by [binary.Read]: all [n] bytes or an error. *)
Definition ReadFull (n : nat) (r : Reader) : Reader * outcome (list byte) :=
  let a := avail r in
  if decide (n <= length a)%nat
  then (mkReader (r_s r) (r_i r + Z.of_nat n), Ok (take n a))
  else (mkReader (r_s r) (r_i r + Z.of_nat (length a)),
        Err (if decide (length a = 0%nat) then "EOF" else "unexpected EOF")).

(** ** [encoding/binary] *)
Inductive ByteOrder := LittleEndian | BigEndian.

Definition at_ (b : list byte) (i : nat) : Z := u8 (nth i b zero_byte).

Definition Uint16 (o : ByteOrder) (b : list byte) : Z :=
  match o with
  | LittleEndian => Z.lor (at_ b 0) (Z.shiftl (at_ b 1) 8)
  | BigEndian => Z.lor (at_ b 1) (Z.shiftl (at_ b 0) 8)
  end.

Definition Uint32 (o : ByteOrder) (b : list byte) : Z :=
  match o with
  | LittleEndian =>
      Z.lor (Z.lor (Z.lor (at_ b 0) (Z.shiftl (at_ b 1) 8))
                   (Z.shiftl (at_ b 2) 16)) (Z.shiftl (at_ b 3) 24)
  | BigEndian =>
      Z.lor (Z.lor (Z.lor (at_ b 3) (Z.shiftl (at_ b 2) 8))
                   (Z.shiftl (at_ b 1) 16)) (Z.shiftl (at_ b 0) 24)
  end.

Definition Uint64 (o : ByteOrder) (b : list byte) : Z :=
  match o with
  | LittleEndian =>
      Z.lor (Z.lor (Z.lor (Z.lor (Z.lor (Z.lor (Z.lor
        (at_ b 0) (Z.shiftl (at_ b 1) 8)) (Z.shiftl (at_ b 2) 16))
        (Z.shiftl (at_ b 3) 24)) (Z.shiftl (at_ b 4) 32))
        (Z.shiftl (at_ b 5) 40)) (Z.shiftl (at_ b 6) 48))
        (Z.shiftl (at_ b 7) 56)
  | BigEndian =>
      Z.lor (Z.lor (Z.lor (Z.lor (Z.lor (Z.lor (Z.lor
        (at_ b 7) (Z.shiftl (at_ b 6) 8)) (Z.shiftl (at_ b 5) 16))
        (Z.shiftl (at_ b 4) 24)) (Z.shiftl (at_ b 3) 32))
        (Z.shiftl (at_ b 2) 40)) (Z.shiftl (at_ b 1) 48))
        (Z.shiftl (at_ b 0) 56)
  end.

(** [b[lo:hi]] *)
Definition slice (lo hi : nat) (b : list byte) : list byte :=
  take (hi - lo) (drop lo b).

(** ** [ReadCString]

    The loop [for i := 0; i < len(data); i++] with the accesses [data[i]]
    and [data[:i]] checked as the Go runtime checks them. [n] is the number
    of iterations left, [len(data) - i]. *)
Fixpoint ReadCString_loop (data : list byte) (i n : nat) : outcome string :=
  match n with
  | O => Ok (string_of_bytes data)
  | S n' =>
      match data !! i with
      | None => Panic "index out of range"
      | Some b =>
          if decide (b = zero_byte)
          then Ok (string_of_bytes (take i data))
          else ReadCString_loop data (S i) n'
      end
  end.

Definition ReadCString (data : list byte) : outcome string :=
  ReadCString_loop data 0 (length data).

(** ** The label tables *)
Definition GetELFType (t : Z) : string :=
  if t =? 0 then "ET_NONE" else if t =? 1 then "ET_REL"
  else if t =? 2 then "ET_EXEC" else if t =? 3 then "ET_DYN"
  else if t =? 4 then "ET_CORE"
  else "ET_UNKNOWN(" +:+ fmt_d t +:+ ")".

Definition GetMachine (m : Z) : string :=
  if m =? 0x00 then "EM_NONE" else if m =? 0x02 then "EM_SPARC"
  else if m =? 0x03 then "EM_386" else if m =? 0x08 then "EM_MIPS"
  else if m =? 0x14 then "EM_PPC" else if m =? 0x28 then "EM_ARM"
  else if m =? 0x3E then "EM_X86_64" else if m =? 0xB7 then "EM_AARCH64"
  else "EM_UNKNOWN(0x" +:+ fmt_0x 2 m +:+ ")".

Definition GetOSABI (abi : Z) : string :=
  if abi =? 0x00 then "ELFOSABI_NONE" else if abi =? 0x01 then "ELFOSABI_HPUX"
  else if abi =? 0x02 then "ELFOSABI_NETBSD"
  else if abi =? 0x03 then "ELFOSABI_LINUX"
  else if abi =? 0x06 then "ELFOSABI_SOLARIS"
  else if abi =? 0x07 then "ELFOSABI_AIX"
  else if abi =? 0x08 then "ELFOSABI_IRIX"
  else if abi =? 0x09 then "ELFOSABI_FREEBSD"
  else if abi =? 0x0C then "ELFOSABI_OPENBSD"
  else "ELFOSABI_UNKNOWN(0x" +:+ fmt_0x 2 abi +:+ ")".

Definition GetSymbolType (t : Z) : string :=
  if t =? 0 then "STT_NOTYPE" else if t =? 1 then "STT_OBJECT"
  else if t =? 2 then "STT_FUNC" else if t =? 3 then "STT_SECTION"
  else if t =? 4 then "STT_FILE" else if t =? 10 then "STT_COMMON"
  else if t =? 13 then "STT_TLS"
  else "STT_UNKNOWN(" +:+ fmt_d t +:+ ")".

Definition GetSymbolBinding (b : Z) : string :=
  if b =? 0 then "STB_LOCAL" else if b =? 1 then "STB_GLOBAL"
  else if b =? 2 then "STB_WEAK"
  else "STB_UNKNOWN(" +:+ fmt_d b +:+ ")".

(** ** The parsing monad

    [ParseELF], [parseSections] and [parseSymbols] share the reader [r] and
    the model [elf] they fill in through a pointer. The state below holds
    both, together with the table allocations ([make] with a size taken
    from the input) in the order they happen. A returned error leaves the
    state as it is at the [return]. *)
Inductive Alloc :=
| MakeSections (n : Z)
| MakeStringTable (n : Z)
| MakeSymbols (n : Z)
| MakeStrtab (n : Z).

Record World := mkWorld { w_r : Reader; w_elf : ELF.t; w_allocs : list Alloc }.

Definition M (A : Type) : Type := World -> World * outcome A.

Definition ret {A} (a : A) : M A := fun w => (w, Ok a).

Definition bind {A B} (m : M A) (k : A -> M B) : M B :=
  fun w =>
    match m w with
    | (w', Ok a) => k a w'
    | (w', Err e) => (w', Err e)
    | (w', Panic e) => (w', Panic e)
    end.

Definition fail {A} (msg : string) : M A := fun w => (w, Err msg).

Definition lift {A} (o : outcome A) : M A := fun w => (w, o).

Definition get_elf : M ELF.t := fun w => (w, Ok (w_elf w)).

Definition modify_elf (f : ELF.t -> ELF.t) : M unit :=
  fun w => (mkWorld (w_r w) (f (w_elf w)) (w_allocs w), Ok tt).

Definition alloc (a : Alloc) : M unit :=
  fun w => (mkWorld (w_r w) (w_elf w) (w_allocs w ++ [a]), Ok tt).

(** [if _, err := r.Seek(offset, io.SeekStart); err != nil { return fmt.Errorf(msg, err) }] *)
Definition seek (offset : Z) (msg : string) : M unit :=
  fun w =>
    match Seek offset (w_r w) with
    | (r', Ok _) => (mkWorld r' (w_elf w) (w_allocs w), Ok tt)
    | (r', Err e) => (mkWorld r' (w_elf w) (w_allocs w), Err (msg +:+ e))
    | (r', Panic e) => (mkWorld r' (w_elf w) (w_allocs w), Panic e)
    end.

Definition read (n : nat) : M (list byte * bool) :=
  fun w =>
    let '(r', res) := Read n (w_r w) in
    (mkWorld r' (w_elf w) (w_allocs w), Ok res).

Definition read_full (n : nat) (msg : string) : M (list byte) :=
  fun w =>
    match ReadFull n (w_r w) with
    | (r', Ok b) => (mkWorld r' (w_elf w) (w_allocs w), Ok b)
    | (r', Err e) => (mkWorld r' (w_elf w) (w_allocs w), Err (msg +:+ e))
    | (r', Panic e) => (mkWorld r' (w_elf w) (w_allocs w), Panic e)
    end.

#[global] Instance M_ret : MRet M := @ret.
#[global] Instance M_bind : MBind M := fun A B k m => bind m k.

(** [return fmt.Errorf(msg, err)] around a call, and [_ = err] *)
Definition wrap_err {A} (msg : string) (m : M A) : M A :=
  fun w =>
    match m w with
    | (w', Err e) => (w', Err (msg +:+ e))
    | res => res
    end.

Definition ignore_err (m : M unit) : M unit :=
  fun w =>
    match m w with
    | (w', Err _) => (w', Ok tt)
    | res => res
    end.

Definition limit_100MB : Z := 100 * 1024 * 1024.

(** ** [parseSections] *)
Definition section32 (endian : ByteOrder) (i : Z) (shBytes : list byte) : Section.t :=
  Section.mk ("section_" +:+ fmt_d i)
    (Uint32 endian (slice 4 8 shBytes))
    (Uint32 endian (slice 8 12 shBytes))
    (Uint32 endian (slice 12 16 shBytes))
    (Uint32 endian (slice 16 20 shBytes))
    (Uint32 endian (slice 20 24 shBytes))
    (Uint32 endian (slice 24 28 shBytes))
    (Uint32 endian (slice 28 32 shBytes))
    (Uint32 endian (slice 32 36 shBytes))
    (Uint32 endian (slice 36 40 shBytes))
    [].

Definition section64 (endian : ByteOrder) (i : Z) (shBytes : list byte) : Section.t :=
  Section.mk ("section_" +:+ fmt_d i)
    (Uint32 endian (slice 4 8 shBytes))
    (Uint64 endian (slice 8 16 shBytes))
    (Uint64 endian (slice 16 24 shBytes))
    (Uint64 endian (slice 24 32 shBytes))
    (Uint64 endian (slice 32 40 shBytes))
    (Uint32 endian (slice 40 44 shBytes))
    (Uint32 endian (slice 44 48 shBytes))
    (Uint64 endian (slice 48 56 shBytes))
    (Uint64 endian (slice 56 64 shBytes))
    [].

(** [for i := uint16(0); i < elf.Header.ShNum; i++]: [n] iterations are
    left, [i] is the index of the next one. *)
Fixpoint read_section_headers (endian : ByteOrder) (n : nat) (i : Z) : M unit :=
  match n with
  | O => mret tt
  | S n' =>
      elf ← get_elf;
      section ←
        (if decide (ELF.Class elf = "ELF32") then
           '(shBytes, eof) ← read 40;
           if (eof : bool) then fail "failed to read section header: EOF"
           else mret (section32 endian i shBytes)
         else
           '(shBytes, eof) ← read 64;
           if (eof : bool) then fail "failed to read section header: EOF"
           else mret (section64 endian i shBytes));
      modify_elf (fun e =>
        ELF.with_Sections e (<[Z.to_nat i := section]> (ELF.Sections e)));;
      read_section_headers endian n' (i + 1)
  end.

(** [s[k]] on a string *)
Definition string_at (s : string) (k : nat) : outcome byte :=
  match bytes_of_string s !! k with
  | Some b => Ok b
  | None => Panic "index out of range"
  end.

Definition outcome_bind {A B} (o : outcome A) (k : A -> outcome B) : outcome B :=
  match o with
  | Ok a => k a
  | Err e => Err e
  | Panic e => Panic e
  end.

(** The body of [for i := range elf.Sections] that re-resolves a name. *)
Definition update_name (endian : ByteOrder) (strtab : list byte) (s : Section.t)
  : outcome Section.t :=
  outcome_bind (string_at (Section.Name s) 0) (fun b0 =>
  outcome_bind (string_at (Section.Name s) 1) (fun b1 =>
  outcome_bind (string_at (Section.Name s) 2) (fun b2 =>
  outcome_bind (string_at (Section.Name s) 3) (fun b3 =>
    let nameOffset := Uint32 endian [b0; b1; b2; b3] in
    if nameOffset <? wrap32 (Z.of_nat (length strtab)) then
      outcome_bind (ReadCString (drop (Z.to_nat nameOffset) strtab)) (fun nm =>
        Ok (Section.with_Name s nm))
    else Ok s)))).

Fixpoint update_names (endian : ByteOrder) (strtab : list byte)
    (secs : list Section.t) : outcome (list Section.t) :=
  match secs with
  | [] => Ok []
  | s :: rest =>
      outcome_bind (update_name endian strtab s) (fun s' =>
      outcome_bind (update_names endian strtab rest) (fun rest' =>
        Ok (s' :: rest')))
  end.

(** The last block of [parseSections], "Read string table for section
    names" *)
Definition read_section_names (endian : ByteOrder) (h : ELFHeader.t) : M unit :=
  if ELFHeader.ShStrndx h <? ELFHeader.ShNum h then
    elf ← get_elf;
    match ELF.Sections elf !! Z.to_nat (ELFHeader.ShStrndx h) with
    | None => lift (Panic "index out of range")
    | Some strSection =>
        if (0 <? Section.Offset strSection) && (0 <? Section.Size strSection)
        then
          if limit_100MB <? Section.Size strSection then
            fail ("string table too large: "
                  +:+ fmt_d (Section.Size strSection))
          else
            seek (int64_of_uint64 (Section.Offset strSection))
                 "failed to seek to string table: ";;
            alloc (MakeStringTable (Section.Size strSection));;
            '(buf, _) ← read (Z.to_nat (Section.Size strSection));
            modify_elf (fun e => ELF.with_StringTable e buf);;
            elf ← get_elf;
            secs ← lift (update_names endian (ELF.StringTable elf)
                                      (ELF.Sections elf));
            modify_elf (fun e => ELF.with_Sections e secs)
        else mret tt
    end
  else mret tt.

Definition limit_sections : Z := 10000.

Definition parseSections (endian : ByteOrder) : M unit :=
  elf ← get_elf;
  let h := ELF.Header elf in
  if ELFHeader.ShOff64 h =? 0 then mret tt
  else
    seek (int64_of_uint64 (ELFHeader.ShOff64 h)) "failed to seek to sections: ";;
    if (ELFHeader.ShNum h =? 0) || (limit_sections <? ELFHeader.ShNum h) then
      fail ("invalid section count: " +:+ fmt_d (ELFHeader.ShNum h))
    else
      alloc (MakeSections (ELFHeader.ShNum h));;
      modify_elf (fun e =>
        ELF.with_Sections e
          (replicate (Z.to_nat (ELFHeader.ShNum h)) Section.zero));;
      read_section_headers endian (Z.to_nat (ELFHeader.ShNum h)) 0;;
      read_section_names endian h.

(** ** [parseSymbols] *)

(** [symbol.Name] as the two class branches compute it *)
Definition symbol_name (strtab : list byte) (nameIdx : Z) : outcome string :=
  if nameIdx <? wrap32 (Z.of_nat (length strtab))
  then ReadCString (drop (Z.to_nat nameIdx) strtab)
  else Ok "".

Definition finish_symbol (name : string) (value size info other shndx : Z)
  : Symbol.t :=
  Symbol.mk name value size info other shndx
    (GetSymbolType (Z.land info 0x0f))
    (GetSymbolBinding (Z.land (Z.shiftr info 4) 0x0f)).

Definition symbol32 (endian : ByteOrder) (strtab symBytes : list byte)
  : outcome Symbol.t :=
  outcome_bind (symbol_name strtab (Uint32 endian (slice 0 4 symBytes)))
    (fun name =>
       Ok (finish_symbol name
             (Uint32 endian (slice 4 8 symBytes))
             (Uint32 endian (slice 8 12 symBytes))
             (at_ symBytes 12)
             (at_ symBytes 13)
             (Uint16 endian (slice 14 16 symBytes)))).

Definition symbol64 (endian : ByteOrder) (strtab symBytes : list byte)
  : outcome Symbol.t :=
  outcome_bind (symbol_name strtab (Uint32 endian (slice 0 4 symBytes)))
    (fun name =>
       Ok (finish_symbol name
             (Uint64 endian (slice 8 16 symBytes))
             (Uint64 endian (slice 16 24 symBytes))
             (at_ symBytes 4)
             (at_ symBytes 5)
             (Uint16 endian (slice 6 8 symBytes)))).

(** [for i := uint64(0); i < numSymbols; i++]; a failed read is the
    [break]. *)
Fixpoint read_symbols (endian : ByteOrder) (strtab : list byte) (n : nat) (i : Z)
  : M unit :=
  match n with
  | O => mret tt
  | S n' =>
      elf ← get_elf;
      if decide (ELF.Class elf = "ELF32") then
        '(symBytes, eof) ← read 16;
        if (eof : bool) then mret tt
        else
          symbol ← lift (symbol32 endian strtab symBytes);
          modify_elf (fun e =>
            ELF.with_Symbols e (<[Z.to_nat i := symbol]> (ELF.Symbols e)));;
          read_symbols endian strtab n' (i + 1)
      else
        '(symBytes, eof) ← read 24;
        if (eof : bool) then mret tt
        else
          symbol ← lift (symbol64 endian strtab symBytes);
          modify_elf (fun e =>
            ELF.with_Symbols e (<[Z.to_nat i := symbol]> (ELF.Symbols e)));;
          read_symbols endian strtab n' (i + 1)
  end.

Definition find_symtab (secs : list Section.t) : option Section.t :=
  List.find (fun s => Section.Type_ s =? 2) secs.

Definition find_strtab (symtab : Section.t) (secs : list Section.t)
  : option Section.t :=
  List.find (fun s => (Section.Type_ s =? 3)
                      && (Section.Link s =? wrap32 (Section.Info symtab))) secs.

Definition limit_symbols : Z := 100000.

Definition numSymbols_of (symtab : Section.t) : Z :=
  let numSymbols := Section.Size symtab / Section.EntSize symtab in
  if limit_symbols <? numSymbols then limit_symbols else numSymbols.

(** The second half of [parseSymbols]: the string table of the symbol
    names. *)
Definition read_strtab (strtabSection : option Section.t) : M (list byte) :=
  match strtabSection with
  | Some st =>
      if 0 <? Section.Size st then
        if limit_100MB <? Section.Size st then
          fail ("string table too large: " +:+ fmt_d (Section.Size st))
        else
          seek (int64_of_uint64 (Section.Offset st))
               "failed to seek to string table: ";;
          alloc (MakeStrtab (Section.Size st));;
          '(strtab, _) ← read (Z.to_nat (Section.Size st));
          mret strtab
      else mret []
  | None => mret []
  end.

Definition parseSymbols (endian : ByteOrder) : M unit :=
  elf ← get_elf;
  match find_symtab (ELF.Sections elf) with
  | None => mret tt
  | Some symtabSection =>
      if (Section.Size symtabSection =? 0) || (Section.EntSize symtabSection =? 0)
      then mret tt
      else if limit_100MB <? Section.Size symtabSection then
        fail ("symbol table too large: " +:+ fmt_d (Section.Size symtabSection))
      else
        seek (int64_of_uint64 (Section.Offset symtabSection))
             "failed to seek to symbols: ";;
        let numSymbols := numSymbols_of symtabSection in
        alloc (MakeSymbols numSymbols);;
        modify_elf (fun e =>
          ELF.with_Symbols e (replicate (Z.to_nat numSymbols) Symbol.zero));;
        strtab ← read_strtab (find_strtab symtabSection (ELF.Sections elf));
        read_symbols endian strtab (Z.to_nat numSymbols) 0
  end.

(** ** [ParseELF] *)
Definition magic_ok (m : list byte) : bool :=
  (at_ m 0 =? 0x7f) && (at_ m 1 =? u8 "E"%char) && (at_ m 2 =? u8 "L"%char)
  && (at_ m 3 =? u8 "F"%char).

Definition ParseELF_body : M unit :=
  magic ← read_full 4 "failed to read magic: ";
  let header := ELFHeader.with_Magic ELFHeader.zero magic in
  if negb (magic_ok (ELFHeader.Magic header)) then fail "invalid ELF magic"
  else
    seek 4 "failed to seek: ";;
    cls ← read_full 1 "failed to read class: ";
    let header := ELFHeader.with_Class header (at_ cls 0) in
    let endian :=
      if ELFHeader.Data header =? 2 then BigEndian else LittleEndian in
    seek 4 "failed to seek: ";;
    '(headerBytes, _) ← read 64;
    (if ELFHeader.Class header =? 1 then
       modify_elf (fun e => ELF.with_Class e "ELF32");;
       if decide (52 <= length headerBytes)%nat then
         modify_elf (fun e => ELF.with_fields e
           (GetELFType (Uint16 endian (slice 16 18 headerBytes)))
           (GetMachine (Uint16 endian (slice 18 20 headerBytes)))
           (Uint32 endian (slice 20 24 headerBytes))
           (Uint32 endian (slice 24 28 headerBytes)))
       else mret tt
     else if ELFHeader.Class header =? 2 then
       modify_elf (fun e => ELF.with_Class e "ELF64");;
       if decide (64 <= length headerBytes)%nat then
         modify_elf (fun e => ELF.with_fields e
           (GetELFType (Uint16 endian (slice 16 18 headerBytes)))
           (GetMachine (Uint16 endian (slice 18 20 headerBytes)))
           (Uint32 endian (slice 20 24 headerBytes))
           (Uint64 endian (slice 24 32 headerBytes)))
       else mret tt
     else fail ("invalid ELF class: " +:+ fmt_d (ELFHeader.Class header)));;
    (if ELFHeader.Data header =? 1 then
       modify_elf (fun e => ELF.with_Data e "Little Endian")
     else if ELFHeader.Data header =? 2 then
       modify_elf (fun e => ELF.with_Data e "Big Endian")
     else fail ("invalid data encoding: " +:+ fmt_d (ELFHeader.Data header)));;
    modify_elf (fun e => ELF.with_OSABI e (GetOSABI (at_ headerBytes 7)));;
    modify_elf (fun e => ELF.with_Header e header);;
    wrap_err "failed to parse sections: " (parseSections endian);;
    ignore_err (parseSymbols endian).

(** [ParseELF(r)]: the model behind the returned pointer, or the error. *)
Definition ParseELF (r : Reader) : outcome ELF.t :=
  match ParseELF_body (mkWorld r ELF.zero []) with
  | (w, Ok _) => Ok (w_elf w)
  | (_, Err e) => Err e
  | (_, Panic e) => Panic e
  end.

End Elf.

(** * 03_nm.go: the symbol lister *)
Module Nm.

(** [sort.Slice(symbols, less)] belongs to the Go library: it permutes the
    slice so that no later element is [less] than an earlier one, and it is
    not stable. [listSymbols] is therefore parametrised by the sorting
    function; [sorts_by_value] is the contract of [sort.Slice] for the
    [less] of [listSymbols], [symbols[i].Value < symbols[j].Value]. *)
Definition value_le (a b : Symbol.t) : Prop := Symbol.Value a <= Symbol.Value b.

Definition sorts_by_value (sort : list Symbol.t -> list Symbol.t) : Prop :=
  forall l, sort l ≡ₚ l /\ Sorted value_le (sort l).

(** For slices of at most twelve elements [sort.Slice] is the insertion
    sort below: [for j := i; j > a && less(j, j-1); j-- { swap(j, j-1) }]
    moves the new element to the left while it is smaller. *)
Fixpoint insert_left (x : Symbol.t) (sorted_rev : list Symbol.t) : list Symbol.t :=
  match sorted_rev with
  | [] => [x]
  | y :: rest =>
      if Symbol.Value x <? Symbol.Value y then y :: insert_left x rest
      else x :: y :: rest
  end.

(** The sorted prefix is kept in reverse, so that its last element comes
    first. *)
Definition insertion_sort (l : list Symbol.t) : list Symbol.t :=
  reverse (foldl (fun acc x => insert_left x acc) [] l).

Definition toUpper (c : byte) : byte :=
  if (u8 "a"%char <=? u8 c) && (u8 c <=? u8 "z"%char) then byte_of_Z (u8 c - 32)
  else c.

Definition toLower (c : byte) : byte :=
  if (u8 "A"%char <=? u8 c) && (u8 c <=? u8 "Z"%char) then byte_of_Z (u8 c + 32)
  else c.

(** The [switch sym.Type] *)
Definition type_char (ty : string) : byte :=
  if decide (ty = "STT_NOTYPE") then "U"%char
  else if decide (ty = "STT_OBJECT") then "D"%char
  else if decide (ty = "STT_FUNC") then "T"%char
  else if decide (ty = "STT_SECTION") then "S"%char
  else if decide (ty = "STT_FILE") then "A"%char
  else "?"%char.

Definition binding_char (binding : string) (typeChar : byte) : byte :=
  if decide (binding = "STB_GLOBAL") then toUpper typeChar
  else if decide (binding = "STB_WEAK") then
    if decide (typeChar = "U"%char) then "w"%char else toLower typeChar
  else typeChar.

Definition newline : string := String "010"%char "".
Definition blank_address : string := "                 ".

(** The three [fmt.Printf] calls; the result is the line written. *)
Definition symbol_line (class : string) (sym : Symbol.t) : string :=
  let typeChar := binding_char (Symbol.Binding sym) (type_char (Symbol.Type_ sym)) in
  let tail := String typeChar (" " +:+ Symbol.Name sym +:+ newline) in
  if (Symbol.Value sym =? 0) && bool_decide (Symbol.Type_ sym = "STT_NOTYPE") then
    blank_address +:+ tail
  else if decide (class = "ELF64") then
    fmt_0x 16 (Symbol.Value sym) +:+ " " +:+ tail
  else
    fmt_0x 8 (wrap32 (Symbol.Value sym)) +:+ " " +:+ tail.

(** [for _, sym := range symbols] with its [continue] *)
Fixpoint print_symbols (class : string) (symbols : list Symbol.t) : list string :=
  match symbols with
  | [] => []
  | sym :: rest =>
      if decide (Symbol.Name sym = "") then print_symbols class rest
      else symbol_line class sym :: print_symbols class rest
  end.

(** [listSymbols]: the lines written to the standard output, in order.
    The returned error is always nil. *)
Definition listSymbols (sort : list Symbol.t -> list Symbol.t) (elfFile : ELF.t)
  : list string :=
  if decide (length (ELF.Symbols elfFile) = 0%nat) then []
  else print_symbols (ELF.Class elfFile) (sort (ELF.Symbols elfFile)).

End Nm.

(** * The assembler (second half of 03_nm.go) *)
Module As.

Record Instruction := mkInstruction {
  Opcode : string;
  Operands : list string;
  Label : string
}.

(** The [switch inst.Opcode] of [generateCode]: the byte appended. *)
Definition opcode_byte (opcode : string) : byte :=
  if decide (opcode = "ret") then byte_of_Z 0xc3
  else if decide (opcode = "nop") then byte_of_Z 0x90
  else byte_of_Z 0x90.

Definition generateCode (instructions : list Instruction) : list byte :=
  foldl (fun code inst => code ++ [opcode_byte (Opcode inst)]) [] instructions.

(** [for i, inst := range instructions], from index [i] on *)
Fixpoint generateSymbols_from (i : Z) (instructions : list Instruction)
    (symbols : list Symbol.t) : list Symbol.t :=
  match instructions with
  | [] => symbols
  | inst :: rest =>
      generateSymbols_from (i + 1) rest
        (if decide (Label inst = "") then symbols
         else symbols ++ [Symbol.mk (Label inst) (wrap64 (i * 4)) 0 2 0 0
                                    "STT_FUNC" "STB_LOCAL"])
  end.

Definition generateSymbols (instructions : list Instruction) : list Symbol.t :=
  generateSymbols_from 0 instructions [].

(** The symbol [generateSymbols] appends for a labelled instruction at
    index [i]. *)
Definition label_symbol (i : Z) (inst : Instruction) : Symbol.t :=
  Symbol.mk (Label inst) (wrap64 (i * 4)) 0 2 0 0 "STT_FUNC" "STB_LOCAL".

(** The symbols of the labelled instructions of a list that starts at
    index [i], in order. *)
Fixpoint labelled_symbols (i : Z) (instructions : list Instruction) : list Symbol.t :=
  match instructions with
  | [] => []
  | inst :: rest =>
      (if decide (Label inst = "") then [] else [label_symbol i inst])
      ++ labelled_symbols (i + 1) rest
  end.

(** The byte offset, within the generated code, of the instruction at
    index [i]: the length of the code of the instructions before it. *)
Definition code_offset (instructions : list Instruction) (i : nat) : Z :=
  Z.of_nat (length (generateCode (take i instructions))).

(** The claim on label values as the specification states it. *)
Definition labels_at_code_offsets (instructions : list Instruction) : Prop :=
  forall i inst,
    instructions !! i = Some inst -> Label inst ≠ "" ->
    exists sym,
      sym ∈ generateSymbols instructions
      /\ Symbol.Name sym = Label inst
      /\ Symbol.Value sym = code_offset instructions i.

Definition generateObjectFile (instructions : list Instruction) : ELF.t :=
  ELF.mk "ELF64" "Little Endian" 1 "ELFOSABI_LINUX" "ET_REL" "EM_X86_64" 0
    ELFHeader.zero
    [Section.mk ".text" 1 6 0 0
       (wrap64 (Z.of_nat (length instructions) * 4)) 0 0 0 0
       (generateCode instructions)]
    []
    (generateSymbols instructions)
    [].

End As.

(** * 12_ld.go: the linker *)
Module Ld.

(** [for _, v := range m] visits every entry of a Go map once, in an
    order the language leaves unspecified: [order] is one possible
    visit. *)
Definition range_order {V} (m : gmap string V) (order : list (string * V)) : Prop :=
  order ≡ₚ map_to_list m.

(** ** [resolveSymbols]

    [symbolMap] maps a name to a pointer into [symbols]; the slice is not
    written, so the map holds the element pointed to. *)
Definition resolve_step (symbolMap : gmap string Symbol.t) (sym : Symbol.t)
  : gmap string Symbol.t :=
  match symbolMap !! Symbol.Name sym with
  | Some existing =>
      if bool_decide (Symbol.Type_ sym ≠ "STT_NOTYPE")
         && bool_decide (Symbol.Type_ existing = "STT_NOTYPE")
      then <[Symbol.Name sym := sym]> symbolMap
      else symbolMap
  | None => <[Symbol.Name sym := sym]> symbolMap
  end.

Definition resolveSymbols_map (symbols : list Symbol.t) : gmap string Symbol.t :=
  foldl resolve_step ∅ symbols.

(** [resolved] is a possible result of [resolveSymbols(symbols)]. *)
Definition resolveSymbols (symbols resolved : list Symbol.t) : Prop :=
  exists order,
    range_order (resolveSymbols_map symbols) order /\ resolved = order.*2.

(** The rule in the words of the specification: for a name, a symbol
    with a defined type beats an undefined placeholder, and otherwise the
    first occurrence wins. *)
Definition is_defined (s : Symbol.t) : bool :=
  bool_decide (Symbol.Type_ s ≠ "STT_NOTYPE").

Definition named (n : string) (s : Symbol.t) : bool :=
  bool_decide (Symbol.Name s = n).

Definition winner (n : string) (symbols : list Symbol.t) : option Symbol.t :=
  match List.find (fun s => named n s && is_defined s) symbols with
  | Some s => Some s
  | None => List.find (named n) symbols
  end.

(** ** [mergeSections]

    [sectionMap] maps a name to a pointer [&sections[i]], here the index
    [i]; merging writes through that pointer into the slice. *)
Record merge_state := mkMerge {
  m_sections : list Section.t;
  m_sectionMap : gmap string nat
}.

Definition merge_into (existing section : Section.t) : Section.t :=
  Section.with_Size
    (Section.with_Data existing (Section.Data existing ++ Section.Data section))
    (wrap64 (Section.Size existing + Section.Size section)).

Definition merge_step (st : merge_state) (i : nat) : merge_state :=
  match m_sections st !! i with
  | None => st
  | Some section =>
      match m_sectionMap st !! Section.Name section with
      | Some j =>
          match m_sections st !! j with
          | Some existing =>
              mkMerge (<[j := merge_into existing section]> (m_sections st))
                      (m_sectionMap st)
          | None => st
          end
      | None =>
          mkMerge (m_sections st) (<[Section.Name section := i]> (m_sectionMap st))
      end
  end.

(** The state after [for i := range sections] *)
Definition merge_loop (sections : list Section.t) : merge_state :=
  foldl merge_step (mkMerge sections ∅) (seq 0 (length sections)).

(** [merged] is a possible result of [mergeSections(sections)]: the
    sections the map entries point to, in the order of the visit. *)
Definition mergeSections (sections merged : list Section.t) : Prop :=
  exists order,
    range_order (m_sectionMap (merge_loop sections)) order
    /\ Forall2 (fun e s => m_sections (merge_loop sections) !! e.2 = Some s)
               order merged.

(** The executable visit in the order of [map_to_list]. *)
Definition mergeSections_list (sections : list Section.t) : list Section.t :=
  omap (fun e : string * nat => m_sections (merge_loop sections) !! e.2)
       (map_to_list (m_sectionMap (merge_loop sections))).

(** The sections of [secs] named [n], in input order. *)
Definition group (n : string) (secs : list Section.t) : list Section.t :=
  filter (fun s => Section.Name s = n) secs.

Definition sum_sizes (secs : list Section.t) : Z :=
  foldr (fun s acc => Section.Size s + acc) 0 secs.

(** [Size] is a [uint64]. *)
Definition uint64_sizes (secs : list Section.t) : Prop :=
  Forall (fun s => 0 <= Section.Size s < 2 ^ 64) secs.

(** The invariant of the loop of [mergeSections] after [k] iterations:
    a name in the map points to its first occurrence, which holds what
    has been merged into it so far; the sections not yet visited are
    untouched. *)
Definition merge_inv (secs : list Section.t) (k : nat) (st : merge_state) : Prop :=
  length (m_sections st) = length secs
  /\ (forall n j, m_sectionMap st !! n = Some j ->
        (j < k)%nat
        /\ exists f, secs !! j = Some f /\ Section.Name f = n
             /\ group n (take j secs) = []
             /\ m_sections st !! j
                = Some (foldl merge_into f (group n (drop (S j) (take k secs)))))
  /\ (forall n, m_sectionMap st !! n = None -> group n (take k secs) = [])
  /\ (forall i, (k <= i)%nat -> m_sections st !! i = secs !! i).

(** [findEntryPoint] *)
Fixpoint findEntryPoint (objects : list ELF.t) : Z :=
  match objects with
  | [] => 0
  | obj :: rest => if ELF.Entry obj =? 0 then findEntryPoint rest else ELF.Entry obj
  end.

End Ld.

(** * 06_ar.go: the archive codec *)
Module ArchiveHeader.
Record t := mk {
  Name : string;
  Date : Z;
  UID : Z;
  GID : Z;
  Mode : Z;
  Size : Z;
  EndChar : list byte
}.
End ArchiveHeader.

Module ArchiveMember.
Record t := mk {
  Header : ArchiveHeader.t;
  Data : list byte
}.
End ArchiveMember.

Module Ar.

Definition magic : list byte := bytes_of_string ("!<arch>" +:+ Nm.newline).

Definition size_ceiling : Z := 100 * 1024 * 1024.

Definition space : byte := " "%char.
Definition tab : byte := "009"%char.

(** [padString]: [copy] keeps at most [length] bytes of [s], the loop
    fills the positions from [len(s)] on with spaces. *)
Definition padString (s : string) (length : nat) : list byte :=
  take length (bytes_of_string s)
  ++ replicate (length - String.length s) space.

Definition is_blank (c : byte) : bool :=
  bool_decide (c = space) || bool_decide (c = tab).

Fixpoint drop_blanks (l : list byte) : list byte :=
  match l with
  | [] => []
  | c :: rest => if is_blank c then drop_blanks rest else l
  end.

(** [trimSpace]: the first loop moves [start] past the leading blanks,
    the second moves [end] back over the trailing ones, never before
    [start]; the result is [s[start:end]]. *)
Definition trimSpace (s : string) : string :=
  string_of_bytes
    (reverse (drop_blanks (reverse (drop_blanks (bytes_of_string s))))).

(** ** [strconv] *)

(** The digit loop of [strconv.ParseUint] in base 10: [None] is the
    syntax error. *)
Fixpoint parse_digits (s : list byte) (acc : Z) : option Z :=
  match s with
  | [] => Some acc
  | c :: rest =>
      let d := u8 c - 48 in
      if (0 <=? d) && (d <=? 9) then parse_digits rest (acc * 10 + d) else None
  end.

(** [strconv.ParseInt(s, 10, 64)]: the value and whether the error is
    non-nil. A syntax error gives 0, a value out of range the nearest
    bound. *)
Definition ParseInt (s : string) : Z * bool :=
  match bytes_of_string s with
  | [] => (0, true)
  | c :: rest =>
      let neg := bool_decide (c = "-"%char) in
      let body :=
        if bool_decide (c = "+"%char) || neg then rest else c :: rest in
      match body with
      | [] => (0, true)
      | _ =>
          match parse_digits body 0 with
          | None => (0, true)
          | Some un =>
              if neg then
                if 2 ^ 63 <? un then (- 2 ^ 63, true) else (- un, false)
              else
                if 2 ^ 63 <=? un then (2 ^ 63 - 1, true) else (un, false)
          end
      end
  end.

Definition parseInt64 (s : string) : Z * bool := ParseInt s.
(** [strconv.Atoi], on a 64-bit [int] *)
Definition parseIntSafe (s : string) : Z * bool := ParseInt s.
Definition parseIntOctal (s : string) : Z * bool := ParseInt s.

(** ** Headers *)
Definition field (lo hi : nat) (b : list byte) : string :=
  string_of_bytes (Elf.slice lo hi b).

Definition formatHeader (h : ArchiveHeader.t) : list byte :=
  padString (ArchiveHeader.Name h) 16
  ++ padString (fmt_d (ArchiveHeader.Date h)) 12
  ++ padString (fmt_d (ArchiveHeader.UID h)) 6
  ++ padString (fmt_d (ArchiveHeader.GID h)) 6
  ++ padString (fmt_o (ArchiveHeader.Mode h)) 8
  ++ padString (fmt_d (ArchiveHeader.Size h)) 10
  ++ bytes_of_string ("`" +:+ Nm.newline).

(** The "Parse header" block of [readArchive]; the errors of the
    conversions are dropped. *)
Definition parseHeader (headerBytes : list byte) : ArchiveHeader.t :=
  ArchiveHeader.mk
    (trimSpace (field 0 16 headerBytes))
    (parseInt64 (trimSpace (field 16 28 headerBytes))).1
    (parseIntSafe (trimSpace (field 28 34 headerBytes))).1
    (parseIntSafe (trimSpace (field 34 40 headerBytes))).1
    (parseIntOctal (trimSpace (field 40 48 headerBytes))).1
    (parseInt64 (trimSpace (field 48 58 headerBytes))).1
    (Elf.slice 58 60 headerBytes).

(** ** [readArchive]

    The file is read front to back, so the state of the open file is its
    unread rest. One iteration of the [for] loop either leaves the loop,
    returns an error, or appends a member and goes on with the rest. *)
Inductive iteration :=
| Break
| Fail (msg : string)
| Next (rest : list byte) (m : ArchiveMember.t).

Definition read_member (file : list byte) : iteration :=
  if decide (length file < 60)%nat then Break
  else
    let header := parseHeader (take 60 file) in
    let file := drop 60 file in
    if (ArchiveHeader.Size header <? 0) || (size_ceiling <? ArchiveHeader.Size header)
    then Fail ("invalid member size: " +:+ fmt_d (ArchiveHeader.Size header))
    else
      let size := Z.to_nat (ArchiveHeader.Size header) in
      if decide (length file < size)%nat then
        Fail ("failed to read member data: "
              +:+ (if decide (length file = 0%nat) then "EOF" else "unexpected EOF"))
      else
        let data := take size file in
        let file := drop size file in
        let file := if ArchiveHeader.Size header mod 2 =? 0 then file else drop 1 file in
        Next file (ArchiveMember.mk header data).

(** [None]: the iteration bound [fuel] was too small. *)
Fixpoint read_members (fuel : nat) (file : list byte)
    (members : list ArchiveMember.t) : option (outcome (list ArchiveMember.t)) :=
  match fuel with
  | O => None
  | S fuel' =>
      match read_member file with
      | Break => Some (Ok members)
      | Fail msg => Some (Err msg)
      | Next rest m => read_members fuel' rest (members ++ [m])
      end
  end.

(** [readArchive] on the contents of the file that was opened *)
Definition readArchive (file : list byte) : option (outcome (list ArchiveMember.t)) :=
  if decide (length file = 0%nat) then Some (Err "failed to read magic: EOF")
  else if decide (take 8 file ++ make_bytes (8 - length file) = magic) then
    read_members (S (length file)) (drop 8 file) []
  else Some (Err "invalid archive magic").

(** [reaches file rest]: started on [file], the loop of [readArchive]
    arrives at the top of an iteration with [rest] unread. *)
Inductive reaches : list byte -> list byte -> Prop :=
| reaches_here file : reaches file file
| reaches_next file file' m rest :
    read_member file = Next file' m -> reaches file' rest -> reaches file rest.

(** ** [writeArchive] *)
Definition write_member (m : ArchiveMember.t) : list byte :=
  formatHeader (ArchiveMember.Header m)
  ++ ArchiveMember.Data m
  ++ (if Z.of_nat (length (ArchiveMember.Data m)) mod 2 =? 0 then []
      else bytes_of_string Nm.newline).

(** The bytes written when the [range] over the map visits the members
    in [order] *)
Definition writeArchive_in (order : list (string * ArchiveMember.t)) : list byte :=
  magic ++ concat ((fun e => write_member e.2) <$> order).

(** [file] is a possible content of the archive after
    [writeArchive(archiveName, members)] returned nil. *)
Definition writeArchive (members : gmap string ArchiveMember.t)
    (file : list byte) : Prop :=
  exists order, Ld.range_order members order /\ file = writeArchive_in order.

(** ** What the round trip is about *)

(** The loops of [trimSpace] do not move on [s]: no space or tab at
    either end. *)
Definition no_outer_blanks (s : string) : Prop :=
  drop_blanks (bytes_of_string s) = bytes_of_string s
  /\ drop_blanks (reverse (bytes_of_string s)) = reverse (bytes_of_string s).

(** A member the fixed-width header can hold: a name of at most 16
    bytes without outer blanks, a declared size equal to the payload
    length and within the ceiling of the reader. *)
Definition storable (m : ArchiveMember.t) : Prop :=
  (String.length (ArchiveHeader.Name (ArchiveMember.Header m)) <= 16)%nat
  /\ no_outer_blanks (ArchiveHeader.Name (ArchiveMember.Header m))
  /\ ArchiveHeader.Size (ArchiveMember.Header m)
     = Z.of_nat (length (ArchiveMember.Data m))
  /\ ArchiveHeader.Size (ArchiveMember.Header m) <= size_ceiling.

(** Name, declared size and payload of a member *)
Definition payload (m : ArchiveMember.t) : string * Z * list byte :=
  (ArchiveHeader.Name (ArchiveMember.Header m),
   ArchiveHeader.Size (ArchiveMember.Header m),
   ArchiveMember.Data m).

(** The bytes a member takes in the file: header, payload and one pad
    byte when the payload length is odd. *)
Definition stored_length (m : ArchiveMember.t) : nat :=
  60 + length (ArchiveMember.Data m) + length (ArchiveMember.Data m) mod 2.

(** What [readArchive] returns for a member written by [writeArchive]. *)
Definition reread (m : ArchiveMember.t) : ArchiveMember.t :=
  ArchiveMember.mk (parseHeader (formatHeader (ArchiveMember.Header m)))
                   (ArchiveMember.Data m).

(** The round trip as the specification states it, for every set of
    members. *)
Definition round_trip (members : gmap string ArchiveMember.t) : Prop :=
  forall file,
    writeArchive members file ->
    exists ms,
      readArchive file = Some (Ok ms)
      /\ payload <$> ms ≡ₚ payload <$> (map_to_list members).*2.

End Ar.

(** * The files the tools open and write *)
Module Fs.

(** The regular files the process can reach, by path. Opening a path
    that names none of them fails, and reading an open file does not.
    The calls that create and write files can be refused: [Create] and
    [Append] below are the effects of the accepted calls, the refusals
    are in [Os]. *)
Definition t := gmap string (list byte).

(** [os.Open] followed by reads of the whole file *)
Definition Open (fs : t) (name : string) : outcome (list byte) :=
  match fs !! name with
  | Some data => Ok data
  | None => Err ("open " +:+ name +:+ ": no such file or directory")
  end.

(** An accepted [os.Create]: the file is created empty, or truncated. *)
Definition Create (fs : t) (name : string) : t := <[name := []]> fs.

(** An accepted [file.Write(p)] on a file opened by [Create]: [p] is
    appended. *)
Definition Append (fs : t) (name : string) (p : list byte) : t :=
  alter (fun old => old ++ p) name fs.

(** [os.Rename(old, new)] with its error dropped: nothing happens when
    [old] does not exist. *)
Definition Rename (fs : t) (old new : string) : t :=
  match fs !! old with
  | Some data => <[new := data]> (delete old fs)
  | None => fs
  end.

End Fs.

(** * The answers of the operating system *)
Module Os.

(** A call that creates a file, writes to one or closes one can be
    refused. The answers to the successive calls are a parameter of the
    functions that make them: [accept], or [refuse written msg], the error
    [msg] after [written] bytes of a write reached the file. Past the end
    of the list every call is accepted. *)
Inductive answer :=
| accept
| refuse (written : nat) (msg : string).

Definition t := list answer.

Definition next (os : t) : answer * t :=
  match os with
  | [] => (accept, [])
  | a :: rest => (a, rest)
  end.

(** No call is refused. *)
Definition accepts_all (os : t) : Prop := Forall (fun a => a = accept) os.

(** [os.Create]: a refusal leaves the files as they are. *)
Definition Create (os : t) (fs : Fs.t) (name : string)
  : t * Fs.t * outcome unit :=
  match next os with
  | (accept, os') => (os', Fs.Create fs name, Ok tt)
  | (refuse _ msg, os') => (os', fs, Err msg)
  end.

(** [file.Write(p)]: a refused write leaves the first [written] bytes of
    [p] in the file. *)
Definition WriteTo (os : t) (fs : Fs.t) (name : string) (p : list byte)
  : t * Fs.t * outcome unit :=
  match next os with
  | (accept, os') => (os', Fs.Append fs name p, Ok tt)
  | (refuse written msg, os') => (os', Fs.Append fs name (take written p), Err msg)
  end.

(** [file.Close()], where its error is looked at *)
Definition Close (os : t) : t * outcome unit :=
  match next os with
  | (accept, os') => (os', Ok tt)
  | (refuse _ msg, os') => (os', Err msg)
  end.

(** [os.WriteFile]: the file is opened with truncation, written with one
    call and closed; the first error is returned. *)
Definition WriteFile (os : t) (fs : Fs.t) (name : string) (data : list byte)
  : t * Fs.t * outcome unit :=
  match Create os fs name with
  | (os1, fs1, Ok _) =>
      match WriteTo os1 fs1 name data with
      | (os2, fs2, err) =>
          match Close os2 with
          | (os3, err1) =>
              (os3, fs2, match err with
                         | Ok _ => err1
                         | _ => err
                         end)
          end
      end
  | res => res
  end.

End Os.

(** * 12_ld.go: reading the inputs and writing the output *)
Module Link.
Import Elf.

(** [binary.LittleEndian.PutUint16(b, v)] and the wider variants: the
    bytes stored in [b], the least significant one first *)
Definition PutUint16 (v : Z) : list byte :=
  [byte_of_Z v; byte_of_Z (Z.shiftr v 8)].

Definition PutUint32 (v : Z) : list byte :=
  [byte_of_Z v; byte_of_Z (Z.shiftr v 8); byte_of_Z (Z.shiftr v 16);
   byte_of_Z (Z.shiftr v 24)].

Definition PutUint64 (v : Z) : list byte :=
  [byte_of_Z v; byte_of_Z (Z.shiftr v 8); byte_of_Z (Z.shiftr v 16);
   byte_of_Z (Z.shiftr v 24); byte_of_Z (Z.shiftr v 32);
   byte_of_Z (Z.shiftr v 40); byte_of_Z (Z.shiftr v 48);
   byte_of_Z (Z.shiftr v 56)].

(** [createELFHeader]: the assignments to [header] in source order *)
Definition createELFHeader (elfFile : ELF.t) : list byte :=
  let n := Z.of_nat (length (ELF.Sections elfFile)) in
  let header := make_bytes 64 in
  let header := <[0%nat := byte_of_Z 0x7f]> header in
  let header := <[1%nat := "E"%char]> header in
  let header := <[2%nat := "L"%char]> header in
  let header := <[3%nat := "F"%char]> header in
  let header := <[4%nat := byte_of_Z 2]> header in
  let header := <[5%nat := byte_of_Z 1]> header in
  let header := <[6%nat := byte_of_Z 1]> header in
  let header := <[7%nat := byte_of_Z 0]> header in
  let header := list_inserts 16 (PutUint16 2) header in
  let header := list_inserts 18 (PutUint16 0x3e) header in
  let header := list_inserts 20 (PutUint32 1) header in
  let header := list_inserts 24 (PutUint64 (ELF.Entry elfFile)) header in
  let header := list_inserts 32 (PutUint64 64) header in
  let header := list_inserts 40 (PutUint64 (wrap64 (64 + wrap64 n * 64))) header in
  let header := list_inserts 48 (PutUint32 0) header in
  let header := list_inserts 52 (PutUint16 64) header in
  let header := list_inserts 54 (PutUint16 56) header in
  let header := list_inserts 56 (PutUint16 1) header in
  let header := list_inserts 58 (PutUint16 64) header in
  let header := list_inserts 60 (PutUint16 (wrap16 n)) header in
  list_inserts 62 (PutUint16 0) header.

(** The loop of [writeLinkedELF] over the sections: the state of the
    files and the returned error *)
Fixpoint write_sections (os : Os.t) (fs : Fs.t) (filename : string)
    (sections : list Section.t) : Fs.t * outcome unit :=
  match sections with
  | [] => (fs, Ok tt)
  | section :: rest =>
      if decide (0 < length (Section.Data section))%nat then
        if limit_100MB <? Z.of_nat (length (Section.Data section)) then
          (fs, Err ("section too large: " +:+ Section.Name section))
        else
          match Os.WriteTo os fs filename (Section.Data section) with
          | (os', fs', Ok _) => write_sections os' fs' filename rest
          | (_, fs', Err e) => (fs', Err e)
          | (_, fs', Panic e) => (fs', Panic e)
          end
      else write_sections os fs filename rest
  end.

(** [writeLinkedELF]: the errors of [os.Create] and of the writes are
    returned as they are. *)
Definition writeLinkedELF (os : Os.t) (fs : Fs.t) (filename : string)
    (elfFile : ELF.t) : Fs.t * outcome unit :=
  match Os.Create os fs filename with
  | (os1, fs1, Ok _) =>
      match Os.WriteTo os1 fs1 filename (createELFHeader elfFile) with
      | (os2, fs2, Ok _) => write_sections os2 fs2 filename (ELF.Sections elfFile)
      | (_, fs2, Err e) => (fs2, Err e)
      | (_, fs2, Panic e) => (fs2, Panic e)
      end
  | (_, fs1, Err e) => (fs1, Err e)
  | (_, fs1, Panic e) => (fs1, Panic e)
  end.

(** What the loop over [inputFiles] has collected *)
Record inputs := mkInputs {
  objects : list ELF.t;
  allSymbols : list Symbol.t;
  allSections : list Section.t
}.

(** One input: [os.Open], [elf.ParseELF], and the wrapping of their
    errors *)
Definition load (fs : Fs.t) (filename : string) : outcome ELF.t :=
  match Fs.Open fs filename with
  | Ok file =>
      match ParseELF (NewReader file) with
      | Ok elfFile => Ok elfFile
      | Err e => Err ("failed to parse " +:+ filename +:+ ": " +:+ e)
      | Panic e => Panic e
      end
  | Err e => Err ("failed to open " +:+ filename +:+ ": " +:+ e)
  | Panic e => Panic e
  end.

Fixpoint load_all (fs : Fs.t) (inputFiles : list string) (acc : inputs)
  : outcome inputs :=
  match inputFiles with
  | [] => Ok acc
  | filename :: rest =>
      match load fs filename with
      | Ok elfFile =>
          load_all fs rest
            (mkInputs (objects acc ++ [elfFile])
                      (allSymbols acc ++ ELF.Symbols elfFile)
                      (allSections acc ++ ELF.Sections elfFile))
      | Err e => Err e
      | Panic e => Panic e
      end
  end.

(** [linkFiles fs inputFiles outputFile res]: [res] is a possible state
    of the files and result of the call; the choice is that of the two
    visits of a map in [resolveSymbols] and [mergeSections], and of the
    answers of the operating system. *)
Inductive linkFiles (fs : Fs.t) (inputFiles : list string) (outputFile : string)
  : Fs.t * outcome unit -> Prop :=
| link_too_many :
    (1000 < length inputFiles)%nat ->
    linkFiles fs inputFiles outputFile (fs, Err "too many input files")
| link_input_error e :
    (length inputFiles <= 1000)%nat ->
    load_all fs inputFiles (mkInputs [] [] []) = Err e ->
    linkFiles fs inputFiles outputFile (fs, Err e)
| link_input_panic e :
    (length inputFiles <= 1000)%nat ->
    load_all fs inputFiles (mkInputs [] [] []) = Panic e ->
    linkFiles fs inputFiles outputFile (fs, Panic e)
| link_no_object acc resolvedSymbols mergedSections :
    (length inputFiles <= 1000)%nat ->
    load_all fs inputFiles (mkInputs [] [] []) = Ok acc ->
    Ld.resolveSymbols (allSymbols acc) resolvedSymbols ->
    Ld.mergeSections (allSections acc) mergedSections ->
    objects acc = [] ->
    linkFiles fs inputFiles outputFile (fs, Panic "index out of range")
| link_output os acc resolvedSymbols mergedSections first others :
    (length inputFiles <= 1000)%nat ->
    load_all fs inputFiles (mkInputs [] [] []) = Ok acc ->
    Ld.resolveSymbols (allSymbols acc) resolvedSymbols ->
    Ld.mergeSections (allSections acc) mergedSections ->
    objects acc = first :: others ->
    linkFiles fs inputFiles outputFile
      (writeLinkedELF os fs outputFile
         (ELF.mk (ELF.Class first) (ELF.Data first) 1 (ELF.OSABI first)
                 "ET_EXEC" (ELF.Machine first)
                 (Ld.findEntryPoint (objects acc))
                 ELFHeader.zero mergedSections [] resolvedSymbols [])).

End Link.

(** * 06_ar.go: the commands on archives *)
Module ArCmd.

(** [readArchive(archiveName)]: the file is opened, then read; the
    error of [os.Open] is returned as it is. *)
Definition readArchive (fs : Fs.t) (archiveName : string)
  : option (outcome (list ArchiveMember.t)) :=
  match Fs.Open fs archiveName with
  | Ok file => Ar.readArchive file
  | Err e => Some (Err e)
  | Panic e => Some (Panic e)
  end.

(** The loop of [writeArchive] when the [range] over the map visits the
    members in [order] *)
Fixpoint write_members (os : Os.t) (fs : Fs.t) (archiveName : string)
    (order : list (string * ArchiveMember.t)) : Fs.t * outcome unit :=
  match order with
  | [] => (fs, Ok tt)
  | (_, member) :: rest =>
      match Os.WriteTo os fs archiveName
              (Ar.formatHeader (ArchiveMember.Header member)) with
      | (os1, fs1, Ok _) =>
          match Os.WriteTo os1 fs1 archiveName (ArchiveMember.Data member) with
          | (os2, fs2, Ok _) =>
              if Z.of_nat (length (ArchiveMember.Data member)) mod 2 =? 0 then
                write_members os2 fs2 archiveName rest
              else
                match Os.WriteTo os2 fs2 archiveName
                        (bytes_of_string Nm.newline) with
                | (os3, fs3, Ok _) => write_members os3 fs3 archiveName rest
                | (_, fs3, Err e) => (fs3, Err ("failed to write padding: " +:+ e))
                | (_, fs3, Panic e) => (fs3, Panic e)
                end
          | (_, fs2, Err e) => (fs2, Err ("failed to write data: " +:+ e))
          | (_, fs2, Panic e) => (fs2, Panic e)
          end
      | (_, fs1, Err e) => (fs1, Err ("failed to write header: " +:+ e))
      | (_, fs1, Panic e) => (fs1, Panic e)
      end
  end.

Definition writeArchive_in (os : Os.t) (fs : Fs.t) (archiveName : string)
    (order : list (string * ArchiveMember.t)) : Fs.t * outcome unit :=
  match Os.Create os fs archiveName with
  | (os1, fs1, Ok _) =>
      match Os.WriteTo os1 fs1 archiveName Ar.magic with
      | (os2, fs2, Ok _) => write_members os2 fs2 archiveName order
      | (_, fs2, Err e) => (fs2, Err ("failed to write magic: " +:+ e))
      | (_, fs2, Panic e) => (fs2, Panic e)
      end
  | (_, fs1, Err e) => (fs1, Err ("failed to create archive: " +:+ e))
  | (_, fs1, Panic e) => (fs1, Panic e)
  end.

(** [res] is a possible state of the files and result of
    [writeArchive(archiveName, members)]. *)
Definition writeArchive (os : Os.t) (fs : Fs.t) (archiveName : string)
    (members : gmap string ArchiveMember.t) (res : Fs.t * outcome unit)
  : Prop :=
  exists order,
    Ld.range_order members order
    /\ res = writeArchive_in os fs archiveName order.

(** [contains] *)
Fixpoint contains (slice : list string) (s : string) : bool :=
  match slice with
  | [] => false
  | item :: rest => if decide (item = s) then true else contains rest s
  end.

(** [bytes.Contains(b, subslice)]: [subslice] starts at some position
    of [b]. *)
Fixpoint has_prefix (subslice b : list byte) : bool :=
  match subslice, b with
  | [], _ => true
  | _ :: _, [] => false
  | p :: subslice', c :: b' => bool_decide (p = c) && has_prefix subslice' b'
  end.

Fixpoint Contains (b subslice : list byte) : bool :=
  has_prefix subslice b
  || match b with
     | [] => false
     | _ :: b' => Contains b' subslice
     end.

Definition slash : byte := "/"%char.
Definition backslash : byte := "092"%char.
Definition dot : byte := "."%char.

(** The patterns of [containsPathTraversal], in source order *)
Definition dangerous : list (list byte) :=
  [[dot; dot; slash]; [dot; dot; backslash]; [slash]; [backslash]].

Fixpoint any_pattern (path : list byte) (patterns : list (list byte)) : bool :=
  match patterns with
  | [] => false
  | pattern :: rest =>
      if Contains path pattern then true else any_pattern path rest
  end.

Definition containsPathTraversal (path : string) : bool :=
  any_pattern (bytes_of_string path) dangerous.

(** The loop of [extractArchive] over the members; a refused
    [os.WriteFile] ends it with an error. *)
Fixpoint extract_members (os : Os.t) (files : list string)
    (members : list ArchiveMember.t) (fs : Fs.t) : Fs.t * outcome unit :=
  match members with
  | [] => (fs, Ok tt)
  | member :: rest =>
      let name := ArchiveHeader.Name (ArchiveMember.Header member) in
      if bool_decide (length files = 0%nat) || contains files name then
        if bool_decide (String.length name = 0%nat)
           || bool_decide (255 < String.length name)%nat
        then extract_members os files rest fs
        else if containsPathTraversal name then extract_members os files rest fs
        else
          match Os.WriteFile os fs name (ArchiveMember.Data member) with
          | (os', fs', Ok _) => extract_members os' files rest fs'
          | (_, fs', Err e) =>
              (fs', Err ("failed to write " +:+ name +:+ ": " +:+ e))
          | (_, fs', Panic e) => (fs', Panic e)
          end
      else extract_members os files rest fs
  end.

(** [extractArchive]: the state of the files and the returned error;
    [None] as for [Ar.readArchive]. *)
Definition extractArchive (os : Os.t) (fs : Fs.t) (archiveName : string)
    (files : list string) : option (Fs.t * outcome unit) :=
  res ← readArchive fs archiveName;
  Some match res with
       | Ok members => extract_members os files members fs
       | Err e => (fs, Err e)
       | Panic e => (fs, Panic e)
       end.

(** [deleteMap] of [deleteFromArchive]; a missing key reads as
    [false]. *)
Definition deleteMap (files : list string) : gmap string bool :=
  foldl (fun m f => <[f := true]> m) ∅ files.

Definition deleted (files : list string) (name : string) : bool :=
  default false (deleteMap files !! name).

(** [newMembers] of [deleteFromArchive] *)
Definition newMembers (files : list string) (members : list ArchiveMember.t)
  : gmap string ArchiveMember.t :=
  foldl (fun acc member =>
           let name := ArchiveHeader.Name (ArchiveMember.Header member) in
           if negb (deleted files name) then <[name := member]> acc else acc)
        ∅ members.

(** [deleteFromArchive os fs archiveName files res]: [res] is a possible
    state of the files and result of the call. *)
Inductive deleteFromArchive (os : Os.t) (fs : Fs.t) (archiveName : string)
    (files : list string) : Fs.t * outcome unit -> Prop :=
| delete_error e :
    readArchive fs archiveName = Some (Err e) ->
    deleteFromArchive os fs archiveName files (fs, Err e)
| delete_panic e :
    readArchive fs archiveName = Some (Panic e) ->
    deleteFromArchive os fs archiveName files (fs, Panic e)
| delete_written members res :
    readArchive fs archiveName = Some (Ok members) ->
    writeArchive os fs archiveName (newMembers files members) res ->
    deleteFromArchive os fs archiveName files res.

(** [listArchive]: the lines printed, one name each, and the returned
    error *)
Definition names (members : list ArchiveMember.t) : list string :=
  (fun member => ArchiveHeader.Name (ArchiveMember.Header member)) <$> members.

Definition listArchive (fs : Fs.t) (archiveName : string)
  : option (list string * outcome unit) :=
  res ← readArchive fs archiveName;
  Some match res with
       | Ok members => (names members, Ok tt)
       | Err e => ([], Err e)
       | Panic e => ([], Panic e)
       end.

(** ** [createArchive]

    [modTime] gives [stat.ModTime().Unix()] for a file. *)

(** The members the first loop ranges over: those of the archive when it
    exists and [readArchive] returns no error, none otherwise. *)
Definition old_members (fs : Fs.t) (archiveName : string)
  : option (list ArchiveMember.t) :=
  match fs !! archiveName with
  | Some _ =>
      res ← readArchive fs archiveName;
      Some match res with
           | Ok existing => existing
           | _ => []
           end
  | None => Some []
  end.

(** [members[m.Header.Name] = m] for each of them *)
Definition index_members (existing : list ArchiveMember.t)
  : gmap string ArchiveMember.t :=
  foldl (fun members m =>
           <[ArchiveHeader.Name (ArchiveMember.Header m) := m]> members)
        ∅ existing.

(** The member built for a file *)
Definition new_member (modTime : string -> Z) (filename : string)
    (data : list byte) : ArchiveMember.t :=
  ArchiveMember.mk
    (ArchiveHeader.mk filename (modTime filename) 0 0 420
                      (Z.of_nat (length data)) (make_bytes 2))
    data.

(** The loop over [files] *)
Fixpoint add_files (fs : Fs.t) (modTime : string -> Z) (files : list string)
    (members : gmap string ArchiveMember.t)
  : outcome (gmap string ArchiveMember.t) :=
  match files with
  | [] => Ok members
  | filename :: rest =>
      if decide (255 < String.length filename)%nat then
        Err ("filename too long: " +:+ filename)
      else
        match Fs.Open fs filename with
        | Ok data =>
            if Ar.size_ceiling <? Z.of_nat (length data) then
              Err ("file too large: " +:+ filename)
            else
              add_files fs modTime rest
                (<[filename := new_member modTime filename data]> members)
        | Err e => Err ("failed to read " +:+ filename +:+ ": " +:+ e)
        | Panic e => Panic e
        end
  end.

(** [createArchive os fs modTime archiveName files res]: [res] is a
    possible state of the files and result of the call. *)
Inductive createArchive (os : Os.t) (fs : Fs.t) (modTime : string -> Z)
    (archiveName : string) (files : list string)
  : Fs.t * outcome unit -> Prop :=
| create_error existing e :
    old_members fs archiveName = Some existing ->
    add_files fs modTime files (index_members existing) = Err e ->
    createArchive os fs modTime archiveName files (fs, Err e)
| create_panic existing e :
    old_members fs archiveName = Some existing ->
    add_files fs modTime files (index_members existing) = Panic e ->
    createArchive os fs modTime archiveName files (fs, Panic e)
| create_written existing members res :
    old_members fs archiveName = Some existing ->
    add_files fs modTime files (index_members existing) = Ok members ->
    writeArchive os fs archiveName members res ->
    createArchive os fs modTime archiveName files res.

End ArCmd.

(** * The assembler: writing the object file *)
Module AsOut.

(** The loop of [writeObjectFile] over the sections *)
Fixpoint write_sections (os : Os.t) (fs : Fs.t) (filename : string)
    (sections : list Section.t) : Fs.t * outcome unit :=
  match sections with
  | [] => (fs, Ok tt)
  | section :: rest =>
      if decide (0 < length (Section.Data section))%nat then
        match Os.WriteTo os fs filename (Section.Data section) with
        | (os', fs', Ok _) => write_sections os' fs' filename rest
        | (_, fs', Err e) => (fs', Err e)
        | (_, fs', Panic e) => (fs', Panic e)
        end
      else write_sections os fs filename rest
  end.

(** [writeObjectFile]: no header is written, only the section data; the
    errors of [os.Create] and of the writes are returned as they are. *)
Definition writeObjectFile (os : Os.t) (fs : Fs.t) (filename : string)
    (elfFile : ELF.t) : Fs.t * outcome unit :=
  match Os.Create os fs filename with
  | (os1, fs1, Ok _) => write_sections os1 fs1 filename (ELF.Sections elfFile)
  | (_, fs1, Err e) => (fs1, Err e)
  | (_, fs1, Panic e) => (fs1, Panic e)
  end.

End AsOut.

(** * 15_elfedit.go *)
Module ElfEdit.

Definition with_Type (e : ELF.t) (v : string) : ELF.t :=
  ELF.mk (ELF.Class e) (ELF.Data e) (ELF.Version e) (ELF.OSABI e) v
         (ELF.Machine e) (ELF.Entry e) (ELF.Header e) (ELF.Sections e)
         (ELF.Segments e) (ELF.Symbols e) (ELF.StringTable e).

(** What a call leaves behind: the files, the model behind the pointer
    [elfFile], the lines printed, and the returned error. *)
Record edited := mkEdited {
  e_fs : Fs.t;
  e_elf : ELF.t;
  e_out : list string;
  e_err : outcome unit
}.

Definition validOSABI : gmap string bool :=
  list_to_map [("ELFOSABI_NONE", true); ("ELFOSABI_LINUX", true);
               ("ELFOSABI_FREEBSD", true); ("ELFOSABI_NETBSD", true);
               ("ELFOSABI_OPENBSD", true); ("ELFOSABI_SOLARIS", true)].

Definition validTypes : gmap string bool :=
  list_to_map [("ET_NONE", true); ("ET_REL", true); ("ET_EXEC", true);
               ("ET_DYN", true); ("ET_CORE", true)].

(** [m[k]] on a [map[string]bool]: a missing key reads as [false]. *)
Definition index (m : gmap string bool) (k : string) : bool :=
  default false (m !! k).

(** [writeELFFile]: the original is copied to the backup, and a line
    is printed; [elfFile] is not used. *)
Definition writeELFFile (os : Os.t) (fs : Fs.t) (filename : string)
    (elfFile : ELF.t) : edited :=
  let backup := filename +:+ ".bak" in
  match Fs.Open fs filename with
  | Ok original =>
      if Elf.limit_100MB <? Z.of_nat (length original) then
        mkEdited fs elfFile [] (Err "file too large")
      else
        match Os.WriteFile os fs backup original with
        | (_, fs', Ok _) =>
            mkEdited fs' elfFile
                     ["ELF file " +:+ filename +:+ " modified (backup: "
                      +:+ backup +:+ ")" +:+ Nm.newline]
                     (Ok tt)
        | (_, fs', Err e) =>
            mkEdited fs' elfFile [] (Err ("failed to create backup: " +:+ e))
        | (_, fs', Panic e) => mkEdited fs' elfFile [] (Panic e)
        end
  | Err e => mkEdited fs elfFile [] (Err ("failed to read original file: " +:+ e))
  | Panic e => mkEdited fs elfFile [] (Panic e)
  end.

Definition editELF (os : Os.t) (fs : Fs.t) (filename : string)
    (elfFile : ELF.t) (option : string) (args : list string) : edited :=
  if decide (option = "--output-class") then
    match args with
    | [] => mkEdited fs elfFile [] (Err "missing class value")
    | arg :: _ =>
        if bool_decide (arg ≠ "ELF32") && bool_decide (arg ≠ "ELF64") then
          mkEdited fs elfFile [] (Err ("invalid class: " +:+ arg))
        else writeELFFile os fs filename (ELF.with_Class elfFile arg)
    end
  else if decide (option = "--output-data") then
    match args with
    | [] => mkEdited fs elfFile [] (Err "missing data value")
    | arg :: _ =>
        if bool_decide (arg ≠ "Little Endian") && bool_decide (arg ≠ "Big Endian")
        then mkEdited fs elfFile [] (Err ("invalid data encoding: " +:+ arg))
        else writeELFFile os fs filename (ELF.with_Data elfFile arg)
    end
  else if decide (option = "--output-osabi") then
    match args with
    | [] => mkEdited fs elfFile [] (Err "missing OS/ABI value")
    | arg :: _ =>
        if negb (index validOSABI arg) then
          mkEdited fs elfFile [] (Err ("invalid OS/ABI: " +:+ arg))
        else writeELFFile os fs filename (ELF.with_OSABI elfFile arg)
    end
  else if decide (option = "--output-type") then
    match args with
    | [] => mkEdited fs elfFile [] (Err "missing type value")
    | arg :: _ =>
        if negb (index validTypes arg) then
          mkEdited fs elfFile [] (Err ("invalid type: " +:+ arg))
        else writeELFFile os fs filename (with_Type elfFile arg)
    end
  else mkEdited fs elfFile [] (Err ("unknown option: " +:+ option)).

End ElfEdit.

(** * 08_addr2line.go *)
Module Addr2line.

(** The error of [parseAddress]. An error of [strconv.ParseUint] carries
    the name of the function and the quoted input; only its kind is
    kept. *)
Inductive error := address_too_long | invalid_syntax | value_out_of_range.

(** The digit of [strconv.ParseUint] for a byte: [lower(c)] is
    [c | 0x20]; [None] is the syntax error. *)
Definition digit_value (c : byte) : option Z :=
  if (u8 "0"%char <=? u8 c) && (u8 c <=? u8 "9"%char) then Some (u8 c - u8 "0"%char)
  else if (u8 "a"%char <=? Z.lor (u8 c) 32) && (Z.lor (u8 c) 32 <=? u8 "z"%char)
       then Some (Z.lor (u8 c) 32 - u8 "a"%char + 10)
       else None.

(** The loop of [strconv.ParseUint(s, 16, 64)] *)
Fixpoint parse_hex (s : list byte) (n : Z) : Z * option error :=
  match s with
  | [] => (n, None)
  | c :: rest =>
      match digit_value c with
      | None => (0, Some invalid_syntax)
      | Some d =>
          if 16 <=? d then (0, Some invalid_syntax)
          else if 2 ^ 60 <=? n then (2 ^ 64 - 1, Some value_out_of_range)
          else
            let n1 := wrap64 (n * 16 + d) in
            if n1 <? n * 16 then (2 ^ 64 - 1, Some value_out_of_range)
            else parse_hex rest n1
      end
  end.

Definition ParseUint (s : string) : Z * option error :=
  match bytes_of_string s with
  | [] => (0, Some invalid_syntax)
  | b => parse_hex b 0
  end.

Definition parseAddress (s : string) : Z * option error :=
  let b := bytes_of_string s in
  let b :=
    if bool_decide (2 < length b)%nat
       && bool_decide (take 2 b = ["0"; "x"]%char)
    then drop 2 b else b in
  if decide (16 < length b)%nat then (0, Some address_too_long)
  else
    match ParseUint (string_of_bytes b) with
    | (val, None) => (val, None)
    | (_, Some err) => (0, Some err)
    end.

(** [addrToLine]: the loop over the sections; [Addr + Size] is a
    [uint64] sum. *)
Fixpoint find_section (sections : list Section.t) (addr : Z) : string * Z :=
  match sections with
  | [] => ("", 0)
  | section :: rest =>
      if (Section.Addr section <=? addr)
         && (addr <? wrap64 (Section.Addr section + Section.Size section))
      then (Section.Name section, 0)
      else find_section rest addr
  end.

Definition addrToLine (elfFile : ELF.t) (addr : Z) : string * Z :=
  find_section (ELF.Sections elfFile) addr.

End Addr2line.

(** * The size tool *)
Module Size.

(** ["%7d"] and ["%7x"]: the digits, with spaces on the left up to seven
    characters *)
Definition pad7 (s : string) : string :=
  repeat_char " " (7 - String.length s) +:+ s.

Record sizes := mkSizes {
  textSize : Z;
  dataSize : Z;
  bssSize : Z
}.

(** The [switch section.Name] of the loop *)
Definition add_section (acc : sizes) (section : Section.t) : sizes :=
  let name := Section.Name section in
  if bool_decide (name ∈ [".text"; ".init"; ".fini"]) then
    mkSizes (wrap64 (textSize acc + Section.Size section)) (dataSize acc) (bssSize acc)
  else if bool_decide (name ∈ [".data"; ".rodata"; ".sdata"]) then
    mkSizes (textSize acc) (wrap64 (dataSize acc + Section.Size section)) (bssSize acc)
  else if bool_decide (name ∈ [".bss"; ".sbss"]) then
    mkSizes (textSize acc) (dataSize acc) (wrap64 (bssSize acc + Section.Size section))
  else acc.

(** [showSize]: the lines printed and the returned error *)
Definition showSize (fs : Fs.t) (filename : string) : list string * outcome unit :=
  match Fs.Open fs filename with
  | Ok file =>
      match Elf.ParseELF (Elf.NewReader file) with
      | Ok elfFile =>
          let s := foldl add_section (mkSizes 0 0 0) (ELF.Sections elfFile) in
          let total := wrap64 (wrap64 (textSize s + dataSize s) + bssSize s) in
          (["   text    data     bss     dec     hex filename" +:+ Nm.newline;
            pad7 (fmt_d (textSize s)) +:+ " " +:+ pad7 (fmt_d (dataSize s))
            +:+ " " +:+ pad7 (fmt_d (bssSize s)) +:+ " " +:+ pad7 (fmt_d total)
            +:+ " " +:+ pad7 (fmt_x total) +:+ " " +:+ filename +:+ Nm.newline],
           Ok tt)
      | Err e => ([], Err ("not an ELF file: " +:+ e))
      | Panic e => ([], Panic e)
      end
  | Err e => ([], Err e)
  | Panic e => ([], Panic e)
  end.

End Size.

(** * 10_strip.go *)
Module Strip.

Definition debugSections : list string :=
  [".debug"; ".zdebug"; ".comment"; ".note"].

(** The loop of [isDebugSection]: [name[:len(prefix)] == prefix] *)
Fixpoint has_prefix_in (name : string) (prefixes : list string) : bool :=
  match prefixes with
  | [] => false
  | prefix :: rest =>
      if bool_decide (String.length prefix <= String.length name)%nat
         && bool_decide (take (String.length prefix) (bytes_of_string name)
                         = bytes_of_string prefix)
      then true
      else has_prefix_in name rest
  end.

Definition isDebugSection (name : string) : bool :=
  has_prefix_in name debugSections.

(** The model [stripFile] builds and then drops *)
Definition stripped (elfFile : ELF.t) : ELF.t :=
  ELF.with_Sections (ELF.with_Symbols elfFile [])
    (filter (fun section => isDebugSection (Section.Name section) = false)
            (ELF.Sections elfFile)).

(** [stripFile]: the file is renamed to the backup, and back when the
    function returns; the stripped model is not written. *)
Definition stripFile (fs : Fs.t) (filename : string) : Fs.t * outcome unit :=
  match Fs.Open fs filename with
  | Ok file =>
      match Elf.ParseELF (Elf.NewReader file) with
      | Ok elfFile =>
          let elfFile := stripped elfFile in
          let backup := filename +:+ ".bak" in
          let fs := Fs.Rename fs filename backup in
          (Fs.Rename fs backup filename, Ok tt)
      | Err e => (fs, Err ("not an ELF file: " +:+ e))
      | Panic e => (fs, Panic e)
      end
  | Err e => (fs, Err e)
  | Panic e => (fs, Panic e)
  end.

End Strip.

(** * Concrete inputs *)
Module Inputs.
Import Elf.

(** [elfData] of [TestParseELF] (01_elf_parser_test.go): an ELF64
    little-endian header, type [ET_EXEC], machine [EM_X86_64], no section
    and no symbol. *)
Definition elfData : list byte := byte_of_Z <$>
  [0x7f; 69; 76; 70;
   2; 1; 1; 0;
   0; 0; 0; 0; 0; 0; 0; 0;
   2; 0;
   0x3e; 0x00;
   1; 0; 0; 0;
   0; 0; 0; 0; 0; 0; 0; 0;
   0; 0; 0; 0; 0; 0; 0; 0;
   0; 0; 0; 0; 0; 0; 0; 0;
   0; 0; 0; 0;
   64; 0;
   56; 0;
   0; 0;
   64; 0;
   0; 0;
   0; 0].

(** The same header with the data-encoding byte 2 and every multi-byte
    field written big-endian. *)
Definition elfData_be : list byte := byte_of_Z <$>
  [0x7f; 69; 76; 70;
   2; 2; 1; 0;
   0; 0; 0; 0; 0; 0; 0; 0;
   0; 2;
   0x00; 0x3e;
   0; 0; 0; 1;
   0; 0; 0; 0; 0; 0; 0; 0;
   0; 0; 0; 0; 0; 0; 0; 0;
   0; 0; 0; 0; 0; 0; 0; 0;
   0; 0; 0; 0;
   0; 64;
   0; 56;
   0; 0;
   0; 64;
   0; 0;
   0; 0].

(** A header that only sets the section-header offset, the section
    count and the index of the section-name string table. *)
Definition header_of (shoff shnum shstrndx : Z) : ELFHeader.t :=
  ELFHeader.mk (make_bytes 4) 2 0 0 0 0 (make_bytes 7) 0 0 0 0 0 shoff 0 0 0 0 0
    shnum shstrndx.

Definition world_of (h : ELFHeader.t) (secs : list Section.t) : World :=
  mkWorld (NewReader [])
    (ELF.with_Sections (ELF.with_Header (ELF.with_Class ELF.zero "ELF64") h) secs)
    [].


(** a section-name string table of 100 MB + 1 byte *)
Definition big_shstrtab : World :=
  world_of (header_of 64 1 0)
    [Section.mk "section_0" 3 0 0 64 (limit_100MB + 1) 0 0 0 0 []].




(** Input A defines [foo] as a function, input B refers to it. *)
Definition foo_func : Symbol.t := Symbol.mk "foo" 4096 16 18 0 1 "STT_FUNC" "STB_GLOBAL".
Definition foo_undef : Symbol.t := Symbol.mk "foo" 0 0 16 0 0 "STT_NOTYPE" "STB_GLOBAL".
Definition bar_undef : Symbol.t := Symbol.mk "bar" 0 0 16 0 0 "STT_NOTYPE" "STB_GLOBAL".

(** Two inputs that each contribute a [.text] section, of sizes 10 and
    20, around a [.data] section. *)
Definition text_a : Section.t :=
  Section.mk ".text" 1 6 0 64 10 0 0 16 0 (replicate 10 (byte_of_Z 0x90)).
Definition data_a : Section.t :=
  Section.mk ".data" 1 3 0 74 2 0 0 8 0 (byte_of_Z <$> [1; 2]).
Definition text_b : Section.t :=
  Section.mk ".text" 1 6 0 64 20 0 0 16 0 (replicate 20 (byte_of_Z 0xc3)).

(** [start: nop] followed by [done: ret] *)
Definition two_labels : list As.Instruction :=
  [As.mkInstruction "nop" [] "start"; As.mkInstruction "ret" [] "done"].

(** Symbols of values 50, 10 and 30, an unnamed symbol, and an undefined
    reference of value 0. *)
Definition sym50 : Symbol.t := Symbol.mk "c" 50 0 18 0 1 "STT_FUNC" "STB_GLOBAL".
Definition sym10 : Symbol.t := Symbol.mk "a" 10 0 17 0 2 "STT_OBJECT" "STB_GLOBAL".
Definition sym30 : Symbol.t := Symbol.mk "b" 30 0 2 0 1 "STT_FUNC" "STB_LOCAL".
Definition unnamed : Symbol.t := Symbol.mk "" 20 0 3 0 1 "STT_SECTION" "STB_LOCAL".
Definition undef0 : Symbol.t := Symbol.mk "puts" 0 0 16 0 0 "STT_NOTYPE" "STB_GLOBAL".

Definition listed : ELF.t :=
  ELF.with_Symbols (ELF.with_Class ELF.zero "ELF64")
    [sym50; unnamed; sym10; undef0; sym30].

(** An archive member [a.o] with the three bytes [hi!], and archives in
    which it is followed by a header whose size field is [-5], respectively
    [104857601] (100 MB + 1). *)
Definition end_char : list byte := bytes_of_string ("`" +:+ Nm.newline).

Definition member_hi : ArchiveMember.t :=
  ArchiveMember.mk (ArchiveHeader.mk "a.o" 1700000000 0 0 420 3 end_char)
                   (bytes_of_string "hi!").

Definition header_neg : list byte :=
  Ar.formatHeader (ArchiveHeader.mk "b.o" 0 0 0 420 (-5) end_char).

Definition header_big : list byte :=
  Ar.formatHeader (ArchiveHeader.mk "b.o" 0 0 0 420 (Ar.size_ceiling + 1) end_char).

Definition archive_neg : list byte :=
  Ar.writeArchive_in [("a.o", member_hi)] ++ header_neg ++ bytes_of_string "xy".

Definition archive_big : list byte :=
  Ar.writeArchive_in [("a.o", member_hi)] ++ header_big.

(** A member whose name has 17 bytes *)
Definition member_long : ArchiveMember.t :=
  ArchiveMember.mk (ArchiveHeader.mk "seventeen_chars.o" 0 0 0 420 2 end_char)
                   (bytes_of_string "ok").

(** A second member, of even length *)
Definition member_even : ArchiveMember.t :=
  ArchiveMember.mk (ArchiveHeader.mk "b.o" 1700000001 0 0 420 4 end_char)
                   (bytes_of_string "data").

(** A file image with two section headers at offset 64; the second one
    is a string table of 7 bytes at offset 192 that holds the name
    [.text]. *)
Definition section_header_strtab : list byte := byte_of_Z <$>
  ([0; 0; 0; 0] ++ [3; 0; 0; 0] ++ replicate 16 0
   ++ [192; 0; 0; 0; 0; 0; 0; 0] ++ [7; 0; 0; 0; 0; 0; 0; 0] ++ replicate 24 0).

Definition sections_image : list byte :=
  make_bytes 64 ++ make_bytes 64 ++ section_header_strtab
  ++ (byte_of_Z <$> [0; 46; 116; 101; 120; 116; 0]).

Definition two_sections : World :=
  mkWorld (NewReader sections_image)
    (ELF.with_Header (ELF.with_Class ELF.zero "ELF64") (header_of 64 2 1)) [].

(** A symbol table that declares two 24-byte entries at offset 64 of
    an input of 10 bytes. *)
Definition truncated_symtab : World :=
  mkWorld (NewReader (make_bytes 10))
    (ELF.with_Sections (ELF.with_Class ELF.zero "ELF64")
       [Section.mk "section_0" 2 0 0 64 48 0 0 0 24 []])
    [].

(** A linked image with two sections to write, and the files of a
    directory that holds one object file. *)
Definition linked : ELF.t :=
  ELF.mk "ELF64" "Little Endian" 1 "System V" "ET_EXEC" "EM_X86_64" 0x401000
         ELFHeader.zero [text_a; data_a] [] [] [].

Definition disk : Fs.t := {[ "a.o" := elfData ]}.

(** A directory that holds one archive with one member *)
Definition shelf : Fs.t := {[ "lib.a" := Ar.writeArchive_in [("a.o", member_hi)] ]}.

(** A directory with one file to archive, and its modification time *)
Definition workdir : Fs.t := {[ "a.o" := bytes_of_string "hi!" ]}.
Definition mtime (name : string) : Z := 1700000000.




(** A directory that holds one archive with two members *)
Definition shelf2 : Fs.t :=
  {[ "lib.a" := Ar.writeArchive_in [("a.o", member_hi); ("b.o", member_even)] ]}.

End Inputs.

(** * Properties of [elf/elf.go] *)

Section ReadCString_facts.
Import Elf.

Lemma lookup_middle_byte (pre post : list byte) (b : byte) :
  (pre ++ b :: post) !! length pre = Some b.
Proof. by rewrite list_lookup_middle. Qed.

(** The loop invariant: the bytes before index [i] hold no zero. *)
Lemma ReadCString_loop_inv (post pre : list byte) :
  zero_byte ∉ pre ->
  exists s rest,
    ReadCString_loop (pre ++ post) (length pre) (length post)
      = Ok (string_of_bytes s)
    /\ pre ++ post = s ++ rest
    /\ (zero_byte ∉ s)
    /\ (rest = [] \/ exists tl, rest = zero_byte :: tl).
Proof.
  revert pre. induction post as [|b post IH]; intros pre Hpre.
  - exists (pre ++ []), []. simpl. rewrite !app_nil_r. auto.
  - simpl. rewrite lookup_middle_byte. destruct (decide (b = zero_byte)) as [->|Hb].
    + exists pre, (zero_byte :: post). rewrite take_app_length. eauto 6.
    + specialize (IH (pre ++ [b])).
      rewrite length_app, Nat.add_1_r, <- app_assoc in IH. simpl in IH.
      apply IH. rewrite elem_of_app, list_elem_of_singleton. intros [?|?]; auto.
Qed.

End ReadCString_facts.

(** C10. [ReadCString] is total and never indexes past the end of its
    argument: on every byte slice it returns (no panic) the bytes strictly
    before the first zero byte, and the whole slice when it holds no zero
    byte. *)
Theorem ReadCString_total_prefix (data : list byte) :
  exists s rest,
    Elf.ReadCString data = Ok (string_of_bytes s)
    /\ data = s ++ rest
    /\ (zero_byte ∉ s)
    /\ (rest = [] \/ exists tl, rest = zero_byte :: tl)
    /\ (zero_byte ∉ data -> s = data).
Proof.
  destruct (ReadCString_loop_inv data []) as (s & rest & Hrun & Hsplit & Hs & Hrest).
  { apply not_elem_of_nil. }
  exists s, rest. simpl in Hrun, Hsplit. repeat split; auto.
  intros Hno. destruct Hrest as [->|[tl ->]].
  - by rewrite app_nil_r in Hsplit.
  - exfalso. apply Hno. rewrite Hsplit. apply elem_of_app. right. left.
Qed.

Section ParseELF_facts.
Import Elf.

Lemma read_full_cases n msg w :
  (exists w' b, read_full n msg w = (w', Ok b))
  \/ (exists w' e, read_full n msg w = (w', Err e)).
Proof.
  unfold read_full, ReadFull. case_decide; eauto.
Qed.

Lemma seek_nonneg offset msg w :
  0 <= offset ->
  seek offset msg w
  = (mkWorld (mkReader (r_s (w_r w)) offset) (w_elf w) (w_allocs w), Ok tt).
Proof.
  intros H. unfold seek, Seek.
  destruct (offset <? 0) eqn:E; [apply Z.ltb_lt in E; lia | done].
Qed.

Lemma read_ok n w : exists w' res, read n w = (w', Ok res).
Proof. unfold read. destruct (Read n (w_r w)) as [r' res]. eauto. Qed.

Lemma modify_elf_ok f w :
  modify_elf f w = (mkWorld (w_r w) (f (w_elf w)) (w_allocs w), Ok tt).
Proof. done. Qed.

(** [header.Data] is still the zero value when it is tested: whatever the
    input, [ParseELF] returns an error. *)
Lemma ParseELF_body_fails w : exists w' msg, ParseELF_body w = (w', Err msg).
Proof.
  unfold ParseELF_body, mbind, M_bind, bind.
  destruct (read_full_cases 4 "failed to read magic: " w)
    as [(w1 & magic & ->)|(w1 & e & ->)]; [|eauto].
  destruct (negb _); [unfold fail; eauto|].
  rewrite seek_nonneg by lia.
  match goal with |- context [read_full 1 ?m ?w] =>
    destruct (read_full_cases 1 m w) as [(w2 & cls & ->)|(w2 & e & ->)]; [|eauto]
  end.
  rewrite seek_nonneg by lia.
  match goal with |- context [read 64 ?w] =>
    destruct (read_ok 64 w) as (w3 & [headerBytes eof] & ->)
  end.
  cbn [ELFHeader.with_Class ELFHeader.with_Magic ELFHeader.Class ELFHeader.Data
       ELFHeader.zero].
  change (0 =? 2) with false. change (0 =? 1) with false. cbv iota.
  destruct (_ =? 1).
  - rewrite modify_elf_ok. case_decide; rewrite ?modify_elf_ok; unfold mret, M_ret, ret, fail; eauto.
  - destruct (_ =? 2); [|unfold fail; eauto].
    rewrite modify_elf_ok. case_decide; rewrite ?modify_elf_ok; unfold mret, M_ret, ret, fail; eauto.
Qed.

End ParseELF_facts.

(** C1. The claim asks that [ParseELF] succeed on a well-formed ELF64
    little-endian stream and report its N sections and M symbols. On the
    header of [TestParseELF] (N = 0, M = 0) the code returns the error
    ["invalid data encoding: 0"], and indeed it returns an error on every
    input: the data-encoding byte is never read into [header.Data]. *)
Theorem ParseELF_rejects_test_header :
  Elf.ParseELF (Elf.NewReader Inputs.elfData) = Err "invalid data encoding: 0"
  /\ forall r, exists msg, Elf.ParseELF r = Err msg.
Proof.
  split; [by vm_compute|].
  intros r. unfold Elf.ParseELF.
  destruct (ParseELF_body_fails (Elf.mkWorld r ELF.zero [])) as (w' & msg & ->).
  eauto.
Qed.

(** C2. The claim asks that the little- and the big-endian encoding of
    one header parse to the same field values. The code rejects both with
    the same error, the big-endian one although its data-encoding byte is
    the valid value 2: the byte order is chosen from a field that is never
    filled in. *)
Theorem ParseELF_rejects_both_encodings :
  Elf.ParseELF (Elf.NewReader Inputs.elfData_be) = Err "invalid data encoding: 0"
  /\ Elf.ParseELF (Elf.NewReader Inputs.elfData) = Err "invalid data encoding: 0".
Proof. split; by vm_compute. Qed.

Ltac munfold :=
  unfold mbind, Elf.M_bind, Elf.bind, mret, Elf.M_ret, Elf.ret, Elf.fail,
    Elf.get_elf, Elf.lift.

Section ceilings.
Import Elf.

Lemma seek_cases offset msg w :
  (0 <= offset /\
   seek offset msg w
   = (mkWorld (mkReader (r_s (w_r w)) offset) (w_elf w) (w_allocs w), Ok tt))
  \/ (offset < 0 /\ exists e, seek offset msg w = (w, Err e)).
Proof.
  destruct (Z.lt_ge_cases offset 0) as [H|H].
  - right. split; [done|]. unfold seek, Seek.
    destruct (offset <? 0) eqn:E; [|apply Z.ltb_ge in E; lia].
    destruct w; eauto.
  - left. split; [done|]. by apply seek_nonneg.
Qed.


Lemma read_section_names_ceiling endian h w s :
  ELFHeader.ShStrndx h < ELFHeader.ShNum h ->
  ELF.Sections (w_elf w) !! Z.to_nat (ELFHeader.ShStrndx h) = Some s ->
  0 < Section.Offset s ->
  limit_100MB < Section.Size s ->
  read_section_names endian h w
  = (w, Err ("string table too large: " +:+ fmt_d (Section.Size s))).
Proof.
  intros Hidx Hs Hoff Hsize. unfold read_section_names. munfold.
  apply Z.ltb_lt in Hidx. rewrite Hidx, Hs.
  assert (0 < Section.Size s) as Hpos by (unfold limit_100MB in Hsize; lia).
  apply Z.ltb_lt in Hoff, Hpos, Hsize. by rewrite Hoff, Hpos, Hsize.
Qed.











End ceilings.

Section table_ceilings.
Import Elf.







End table_ceilings.




(** * Properties of [12_ld.go] *)
Section resolve_facts.
Import Ld.

Lemma find_snoc {A} (P : A -> bool) (l : list A) (x : A) :
  List.find P (l ++ [x])
  = match List.find P l with
    | Some y => Some y
    | None => if P x then Some x else None
    end.
Proof.
  induction l as [|a l IH]; simpl; [done|]. by destruct (P a).
Qed.

Lemma find_named_name n l s : List.find (named n) l = Some s -> Symbol.Name s = n.
Proof.
  intros H. apply find_some in H as [_ H]. unfold named in H.
  by apply bool_decide_eq_true in H.
Qed.

Lemma winner_name n l s : winner n l = Some s -> Symbol.Name s = n.
Proof.
  unfold winner. destruct (List.find (fun s => named n s && is_defined s) l) eqn:E.
  - intros [= <-]. apply find_some in E as [_ E].
    apply andb_true_iff in E as [E _]. by apply bool_decide_eq_true in E.
  - apply find_named_name.
Qed.

Lemma winner_elem n l s : winner n l = Some s -> s ∈ l.
Proof.
  unfold winner. destruct (List.find (fun s => named n s && is_defined s) l) eqn:E.
  - intros [= <-]. apply find_some in E as [E _]. by apply list_elem_of_In.
  - intros H. apply find_some in H as [H _]. by apply list_elem_of_In.
Qed.

(** An undefined winner means that no symbol of that name is defined. *)
Lemma winner_undefined n l s :
  winner n l = Some s -> is_defined s = false ->
  List.find (fun s => named n s && is_defined s) l = None.
Proof.
  unfold winner. destruct (List.find (fun s => named n s && is_defined s) l) eqn:E;
    [|done].
  intros [= <-] Hd. apply find_some in E as [_ E].
  apply andb_true_iff in E as [_ E]. congruence.
Qed.

Lemma winner_defined n l s :
  winner n l = Some s -> is_defined s = true ->
  List.find (fun s => named n s && is_defined s) l = Some s.
Proof.
  unfold winner. destruct (List.find (fun s => named n s && is_defined s) l) eqn:E;
    [done|].
  intros H Hd. pose proof (find_named_name _ _ _ H) as Hn.
  apply find_some in H as [H _].
  eapply find_none in E; [|done]. unfold named in E.
  rewrite Hd, andb_true_r in E. apply bool_decide_eq_false in E. done.
Qed.

Lemma winner_none n l :
  winner n l = None -> List.find (named n) l = None.
Proof. unfold winner. by case_match. Qed.

(** How the winner of a name changes when one more symbol is read: this
    is the rule of the loop body. *)
Lemma winner_snoc n l x :
  winner n (l ++ [x])
  = if named n x then
      match winner n l with
      | Some e => if is_defined x && negb (is_defined e) then Some x else Some e
      | None => Some x
      end
    else winner n l.
Proof.
  destruct (named n x) eqn:Hn.
  - destruct (winner n l) as [e|] eqn:Hw.
    + destruct (is_defined e) eqn:He.
      * rewrite andb_false_r. unfold winner. rewrite find_snoc.
        by rewrite (winner_defined _ _ _ Hw He).
      * rewrite andb_true_r. pose proof (winner_undefined _ _ _ Hw He) as Hnone.
        unfold winner in *. rewrite !find_snoc, Hnone in *. rewrite Hn. simpl.
        destruct (is_defined x); [done|]. by rewrite Hw.
    + pose proof (winner_none _ _ Hw) as Hnone.
      unfold winner in *. rewrite !find_snoc, Hnone, Hn in *.
      destruct (List.find _ l); [done|]. simpl. by destruct (is_defined x).
  - unfold winner. rewrite !find_snoc, Hn. simpl.
    destruct (List.find _ l); [done|]. by destruct (List.find (named n) l).
Qed.

Lemma undefined_negb s :
  bool_decide (Symbol.Type_ s = "STT_NOTYPE") = negb (is_defined s).
Proof.
  unfold is_defined.
  destruct (decide (Symbol.Type_ s = "STT_NOTYPE")) as [H|H].
  - rewrite bool_decide_eq_true_2, bool_decide_eq_false_2; auto.
  - rewrite bool_decide_eq_false_2, bool_decide_eq_true_2; auto.
Qed.

(** The loop invariant of [resolveSymbols]: the map holds, for every
    name, the winner among the symbols read so far. *)
Lemma resolveSymbols_map_lookup symbols n :
  resolveSymbols_map symbols !! n = winner n symbols.
Proof.
  revert n. induction symbols as [|x l IH] using rev_ind; intros n; [done|].
  unfold resolveSymbols_map in *. rewrite foldl_snoc, winner_snoc.
  unfold resolve_step at 1. rewrite IH. unfold named.
  destruct (winner (Symbol.Name x) l) as [e|] eqn:Hw.
  - rewrite undefined_negb. fold (is_defined x).
    destruct (decide (Symbol.Name x = n)) as [<-|Hne].
    + rewrite bool_decide_eq_true_2, Hw by done.
      destruct (is_defined x && negb (is_defined e)).
      * by rewrite lookup_insert_eq.
      * by rewrite IH.
    + rewrite bool_decide_eq_false_2 by done.
      destruct (is_defined x && negb (is_defined e)).
      * by rewrite lookup_insert_ne.
      * done.
  - destruct (decide (Symbol.Name x = n)) as [<-|Hne].
    + rewrite bool_decide_eq_true_2, Hw by done. by rewrite lookup_insert_eq.
    + rewrite bool_decide_eq_false_2 by done. by rewrite lookup_insert_ne.
Qed.

(** Every visit of the final map lists each name once, with its
    winner. *)
Lemma resolveSymbols_elem symbols resolved s :
  resolveSymbols symbols resolved ->
  s ∈ resolved <-> winner (Symbol.Name s) symbols = Some s.
Proof.
  intros (order & Hperm & ->). unfold range_order in Hperm.
  rewrite list_elem_of_fmap. split.
  - intros ([k v] & -> & Hin). rewrite Hperm in Hin.
    apply elem_of_map_to_list in Hin. rewrite resolveSymbols_map_lookup in Hin.
    simpl. by rewrite (winner_name _ _ _ Hin).
  - intros Hw. exists (Symbol.Name s, s). split; [done|].
    rewrite Hperm. apply elem_of_map_to_list. by rewrite resolveSymbols_map_lookup.
Qed.

Lemma resolveSymbols_NoDup symbols resolved :
  resolveSymbols symbols resolved -> NoDup (Symbol.Name <$> resolved).
Proof.
  intros (order & Hperm & ->). unfold range_order in Hperm.
  assert ((Symbol.Name <$> order.*2) = order.*1) as ->.
  { rewrite <- list_fmap_compose. apply list_fmap_ext.
    intros i [k v] Hi. simpl.
    assert ((k, v) ∈ order) as Hin by (eapply list_elem_of_lookup_2; eauto).
    rewrite Hperm in Hin. apply elem_of_map_to_list in Hin.
    rewrite resolveSymbols_map_lookup in Hin. by apply winner_name in Hin. }
  rewrite Hperm. apply NoDup_fst_map_to_list.
Qed.

Lemma winner_is_Some n symbols :
  n ∈ Symbol.Name <$> symbols -> is_Some (winner n symbols).
Proof.
  intros (s & -> & Hin)%list_elem_of_fmap. unfold winner.
  destruct (List.find (fun s0 => named (Symbol.Name s) s0 && is_defined s0) symbols);
    [eauto|].
  destruct (List.find (named (Symbol.Name s)) symbols) eqn:E; [eauto|].
  eapply find_none in E; [|by apply list_elem_of_In].
  unfold named in E. by rewrite bool_decide_eq_true_2 in E.
Qed.

End resolve_facts.

(** C4. Whatever the order in which the final map is visited, the
    resolved table has exactly one entry per input name; that entry is
    the winner of the name (the first symbol of that name whose type is
    not [STT_NOTYPE], or else its first occurrence); reading one more
    symbol replaces a recorded [STT_NOTYPE] entry of its name when its own
    type is defined, and otherwise keeps what is recorded; hence a name
    that is defined in one input and undefined in another has exactly one
    entry, of defined type. *)
Theorem resolveSymbols_defined_beats_undefined
    (symbols resolved : list Symbol.t) :
  Ld.resolveSymbols symbols resolved ->
  NoDup (Symbol.Name <$> resolved)
  /\ (forall n, n ∈ Symbol.Name <$> resolved <-> n ∈ Symbol.Name <$> symbols)
  /\ (forall s, s ∈ resolved <-> Ld.winner (Symbol.Name s) symbols = Some s)
  /\ (forall sym n,
        Ld.resolveSymbols_map (symbols ++ [sym]) !! n
        = if decide (n = Symbol.Name sym) then
            match Ld.resolveSymbols_map symbols !! n with
            | Some e =>
                if Ld.is_defined sym && negb (Ld.is_defined e) then Some sym
                else Some e
            | None => Some sym
            end
          else Ld.resolveSymbols_map symbols !! n)
  /\ (forall a b,
        a ∈ symbols -> b ∈ symbols ->
        Symbol.Name a = Symbol.Name b ->
        Symbol.Type_ a ≠ "STT_NOTYPE" -> Symbol.Type_ b = "STT_NOTYPE" ->
        exists s,
          s ∈ resolved /\ Symbol.Name s = Symbol.Name a
          /\ Symbol.Type_ s ≠ "STT_NOTYPE"
          /\ forall s', s' ∈ resolved -> Symbol.Name s' = Symbol.Name a -> s' = s).
Proof.
  intros Hres.
  pose proof (resolveSymbols_elem symbols resolved) as Helem.
  split_and!.
  - by eapply resolveSymbols_NoDup.
  - intros n. split.
    + intros (s & -> & Hin)%list_elem_of_fmap. apply Helem in Hin; [|done].
      apply winner_elem in Hin. by apply list_elem_of_fmap_2.
    + intros Hn. destruct (winner_is_Some _ _ Hn) as [s Hs].
      pose proof (winner_name _ _ _ Hs) as <-.
      apply list_elem_of_fmap_2. by apply Helem.
  - intros s. by apply Helem.
  - intros sym n. rewrite !resolveSymbols_map_lookup, winner_snoc.
    unfold Ld.named. destruct (decide (n = Symbol.Name sym)) as [->|Hne].
    + by rewrite bool_decide_eq_true_2.
    + by rewrite bool_decide_eq_false_2.
  - intros a b Ha Hb Hname Hdef Hundef.
    assert (is_Some (Ld.winner (Symbol.Name a) symbols)) as [s Hs].
    { apply winner_is_Some. by apply list_elem_of_fmap_2. }
    pose proof (winner_name _ _ _ Hs) as Hsn.
    exists s. split_and!.
    + apply Helem; [done|]. by rewrite Hsn.
    + done.
    + intros Hty.
      assert (Ld.is_defined s = false) as Hds.
      { unfold Ld.is_defined. apply bool_decide_eq_false_2. auto. }
      pose proof (winner_undefined _ _ _ Hs Hds) as Hnone.
      eapply find_none in Hnone; [|apply list_elem_of_In, Ha].
      unfold Ld.named, Ld.is_defined in Hnone.
      rewrite !bool_decide_eq_true_2 in Hnone; done.
    + intros s' Hin' Hn'. apply Helem in Hin'; [|done].
      rewrite Hn' in Hin'. congruence.
Qed.

Lemma resolveSymbols_defined_beats_undefined_witness :
  let symbols := [Inputs.foo_func; Inputs.bar_undef; Inputs.foo_undef] in
  let resolved := [Inputs.bar_undef; Inputs.foo_func] in
  Ld.resolveSymbols symbols resolved
  /\ NoDup (Symbol.Name <$> resolved)
  /\ (forall s, s ∈ resolved <-> Ld.winner (Symbol.Name s) symbols = Some s).
Proof.
  intros symbols resolved.
  assert (Ld.resolveSymbols symbols resolved) as Hres.
  { exists [("bar", Inputs.bar_undef); ("foo", Inputs.foo_func)].
    split; [|reflexivity]. unfold Ld.range_order. vm_compute. apply perm_swap. }
  split; [done|].
  pose proof (resolveSymbols_defined_beats_undefined symbols resolved Hres)
    as (H1 & _ & H3 & _).
  done.
Defined.

Section merge_facts.
Import Ld.

Lemma merge_loop_prefix secs k :
  foldl merge_step (mkMerge secs ∅) (seq 0 (S k))
  = merge_step (foldl merge_step (mkMerge secs ∅) (seq 0 k)) k.
Proof. by rewrite seq_S, foldl_snoc. Qed.

Lemma group_snoc n l s :
  group n (l ++ [s])
  = if decide (Section.Name s = n) then group n l ++ [s] else group n l.
Proof.
  unfold group. rewrite filter_app, filter_cons, filter_nil.
  case_decide; [done|by rewrite app_nil_r].
Qed.

Lemma merge_inv_init secs : merge_inv secs 0 (mkMerge secs ∅).
Proof.
  split_and!; simpl; auto.
  - intros n j H. by rewrite lookup_empty in H.
Qed.

Lemma merge_inv_step secs k st :
  (k < length secs)%nat ->
  merge_inv secs k st -> merge_inv secs (S k) (merge_step st k).
Proof.
  intros Hk (Hlen & Hmap & Hnone & Hrest).
  destruct (lookup_lt_is_Some_2 secs k Hk) as [s Hs].
  pose proof (take_S_r secs k s Hs) as Htake.
  assert (length (take k secs) = k) as Hlk by (rewrite length_take; lia).
  unfold merge_step. rewrite (Hrest k), Hs by lia.
  destruct (m_sectionMap st !! Section.Name s) as [j|] eqn:Hj.
  - destruct (Hmap _ _ Hj) as (Hjk & f & Hf & Hfn & Hbefore & Hcur).
    rewrite Hcur. split_and!; simpl.
    + by rewrite length_insert.
    + intros n j' Hj'. destruct (Hmap _ _ Hj') as (Hj'k & f' & Hf' & Hfn' & Hb' & Hcur').
      split; [lia|]. exists f'. split_and!; [done..|].
      rewrite Htake, drop_app_le, group_snoc by lia.
      destruct (decide (j' = j)) as [->|Hne].
      * assert (f' = f) as -> by congruence.
        rewrite decide_True by congruence.
        rewrite list_lookup_insert_eq by (rewrite Hlen; lia).
        rewrite foldl_snoc. subst n. by rewrite Hfn.
      * rewrite list_lookup_insert_ne by done.
        rewrite decide_False; [done|].
        intros Heq. subst n. congruence.
    + intros n Hn. rewrite Htake, group_snoc.
      rewrite decide_False by congruence. auto.
    + intros i Hi. rewrite list_lookup_insert_ne by lia. apply Hrest. lia.
  - split_and!; simpl.
    + done.
    + intros n j'. destruct (decide (Section.Name s = n)) as [<-|Hne].
      * rewrite lookup_insert_eq. intros [= <-]. split; [lia|].
        exists s. split_and!; [done|done|by apply Hnone|].
        rewrite (Hrest k), Hs by lia. f_equal.
        rewrite drop_ge by (rewrite length_take; lia). done.
      * rewrite lookup_insert_ne by done. intros Hj'.
        destruct (Hmap _ _ Hj') as (Hj'k & f' & Hf' & Hfn' & Hb' & Hcur').
        split; [lia|]. exists f'. split_and!; [done..|].
        rewrite Htake, drop_app_le, group_snoc by lia.
        by rewrite decide_False.
    + intros n. destruct (decide (Section.Name s = n)) as [<-|Hne].
      * by rewrite lookup_insert_eq.
      * rewrite lookup_insert_ne by done. intros Hn.
        rewrite Htake, group_snoc, decide_False by done. auto.
    + intros i Hi. apply Hrest. lia.
Qed.

Lemma merge_inv_prefix secs k :
  (k <= length secs)%nat ->
  merge_inv secs k (foldl merge_step (mkMerge secs ∅) (seq 0 k)).
Proof.
  induction k as [|k IH]; intros Hk.
  - apply merge_inv_init.
  - rewrite merge_loop_prefix. apply merge_inv_step; [lia|]. apply IH. lia.
Qed.

Lemma merge_inv_final secs : merge_inv secs (length secs) (merge_loop secs).
Proof. by apply merge_inv_prefix. Qed.

Lemma sum_sizes_snoc l s : sum_sizes (l ++ [s]) = sum_sizes l + Section.Size s.
Proof.
  unfold sum_sizes. induction l as [|a l IH]; simpl; [lia|]. rewrite IH. lia.
Qed.

(** What merging [rest] into [f] gives. *)
Lemma merged_fields f rest :
  0 <= Section.Size f < 2 ^ 64 ->
  let o := foldl merge_into f rest in
  Section.Data o = Section.Data f ++ concat (Section.Data <$> rest)
  /\ Section.Size o = wrap64 (Section.Size f + sum_sizes rest)
  /\ o = Section.with_Size (Section.with_Data f (Section.Data o)) (Section.Size o).
Proof.
  intros Hf. induction rest as [|s rest IH] using rev_ind; simpl.
  - rewrite app_nil_r, Z.add_0_r. unfold wrap64.
    rewrite Z.mod_small by done. split_and!; [done..|]. by destruct f.
  - destruct IH as (HD & HS & Ho). rewrite foldl_snoc.
    set (o := foldl merge_into f rest) in *.
    rewrite fmap_app, concat_app, sum_sizes_snoc. simpl.
    rewrite HD, HS, app_nil_r, <- app_assoc. split_and!; [done| |].
    + unfold wrap64. rewrite Zplus_mod_idemp_l. f_equal. lia.
    + unfold merge_into. rewrite HD, HS, <- app_assoc. clearbody o.
      destruct o, f. unfold Section.with_Size, Section.with_Data in *.
      simpl in *. congruence.
Qed.

Lemma group_first n secs j f :
  secs !! j = Some f -> Section.Name f = n -> group n (take j secs) = [] ->
  group n secs = f :: group n (drop (S j) secs).
Proof.
  intros Hj Hn Hb. rewrite <- (take_drop_middle secs j f Hj) at 1.
  unfold group in *. rewrite filter_app, Hb, filter_cons. simpl.
  by rewrite decide_True.
Qed.

(** The entries of the final map, read through the pointers. *)
Lemma merge_loop_entry secs n j :
  m_sectionMap (merge_loop secs) !! n = Some j ->
  exists f,
    secs !! j = Some f /\ Section.Name f = n
    /\ group n secs = f :: group n (drop (S j) secs)
    /\ m_sections (merge_loop secs) !! j
       = Some (foldl merge_into f (group n (drop (S j) secs))).
Proof.
  intros Hj. destruct (merge_inv_final secs) as (_ & Hmap & _ & _).
  destruct (Hmap _ _ Hj) as (_ & f & Hf & Hn & Hb & Hcur).
  rewrite firstn_all in Hcur. exists f. split_and!; [done..| |done].
  by apply group_first.
Qed.

Lemma merge_loop_names secs n :
  is_Some (m_sectionMap (merge_loop secs) !! n) <-> n ∈ Section.Name <$> secs.
Proof.
  split.
  - intros [j Hj]. destruct (merge_loop_entry _ _ _ Hj) as (f & Hf & <- & _).
    apply list_elem_of_fmap_2. by eapply list_elem_of_lookup_2.
  - intros (s & -> & Hin)%list_elem_of_fmap.
    destruct (m_sectionMap (merge_loop secs) !! Section.Name s) eqn:E; [eauto|].
    destruct (merge_inv_final secs) as (_ & _ & Hnone & _).
    apply Hnone in E. rewrite firstn_all in E.
    assert (s ∈ group (Section.Name s) secs) as Hs.
    { unfold group. by apply list_elem_of_filter. }
    rewrite E in Hs. by apply elem_of_nil in Hs.
Qed.

Lemma mergeSections_names secs merged order :
  Forall2 (fun e s => m_sections (merge_loop secs) !! e.2 = Some s) order merged ->
  (forall e, e ∈ order -> m_sectionMap (merge_loop secs) !! e.1 = Some e.2) ->
  Section.Name <$> merged = order.*1.
Proof.
  induction 1 as [|e o order merged Hlook HF IH]; intros Hin; [done|].
  simpl. f_equal.
  - destruct (merge_loop_entry secs e.1 e.2) as (f & Hf & Hn & Hg & Hcur).
    { apply Hin. left. }
    rewrite Hcur in Hlook. injection Hlook as <-.
    clear -Hn. induction (group _ _) as [|s l IH] using rev_ind; [done|].
    by rewrite foldl_snoc.
  - apply IH. intros e' He'. apply Hin. by right.
Qed.

(** Every pointer of the map can be read: the final [range] produces a
    result. *)
Lemma mergeSections_list_ok secs : mergeSections secs (mergeSections_list secs).
Proof.
  exists (map_to_list (m_sectionMap (merge_loop secs))).
  split; [by unfold range_order|].
  unfold mergeSections_list.
  assert (forall e, e ∈ map_to_list (m_sectionMap (merge_loop secs)) ->
            is_Some (m_sections (merge_loop secs) !! e.2)) as Hall.
  { intros [n j] He. apply elem_of_map_to_list in He.
    destruct (merge_loop_entry _ _ _ He) as (f & _ & _ & _ & Hcur).
    simpl. rewrite Hcur. eauto. }
  induction (map_to_list _) as [|e l IH]; simpl; [constructor|].
  destruct (Hall e) as [o Ho]; [left|]. rewrite Ho. constructor; [done|].
  apply IH. intros e' He'. apply Hall. by right.
Qed.

End merge_facts.

Lemma sum_sizes_nonneg (secs : list Section.t) :
  Ld.uint64_sizes secs -> 0 <= Ld.sum_sizes secs.
Proof.
  unfold Ld.uint64_sizes, Ld.sum_sizes.
  induction 1 as [|s l Hs _ IH]; simpl; lia.
Qed.

(** C5. [mergeSections] always produces a result and, whatever the order
    in which the final map is visited, the result has exactly one section
    per distinct input name; its payload is the concatenation of the
    payloads of the same-named inputs in input order and its size the
    ([uint64]) sum of their sizes, the sum itself when it fits in 64 bits;
    the other fields are those of the first same-named input. *)
Theorem mergeSections_concatenates (sections : list Section.t) :
  Ld.uint64_sizes sections ->
  (exists merged, Ld.mergeSections sections merged)
  /\ forall merged,
       Ld.mergeSections sections merged ->
       NoDup (Section.Name <$> merged)
       /\ (forall n, n ∈ Section.Name <$> merged <-> n ∈ Section.Name <$> sections)
       /\ (forall o, o ∈ merged ->
             exists f rest,
               Ld.group (Section.Name o) sections = f :: rest
               /\ Section.Data o = concat (Section.Data <$> f :: rest)
               /\ Section.Size o = wrap64 (Ld.sum_sizes (f :: rest))
               /\ (Ld.sum_sizes (f :: rest) < 2 ^ 64 ->
                   Section.Size o = Ld.sum_sizes (f :: rest))
               /\ o = Section.with_Size
                        (Section.with_Data f (Section.Data o)) (Section.Size o)).
Proof.
  intros Hu. split; [eexists; apply mergeSections_list_ok|].
  intros merged (order & Hperm & HF). unfold Ld.range_order in Hperm.
  assert (forall e, e ∈ order ->
            Ld.m_sectionMap (Ld.merge_loop sections) !! e.1 = Some e.2) as Hin.
  { intros [n j] He. rewrite Hperm in He. by apply elem_of_map_to_list in He. }
  pose proof (mergeSections_names _ _ _ HF Hin) as Hnames.
  split_and!.
  - rewrite Hnames, Hperm. apply NoDup_fst_map_to_list.
  - intros n. rewrite Hnames, <- merge_loop_names, Hperm.
    rewrite list_elem_of_fmap. split.
    + intros ([k j] & -> & He). apply elem_of_map_to_list in He. eauto.
    + intros [j Hj]. exists (n, j). split; [done|]. by apply elem_of_map_to_list.
  - intros o Ho. apply list_elem_of_lookup in Ho as [i Hi].
    destruct (Forall2_lookup_r _ _ _ _ _ HF Hi) as (e & He & Hlook).
    apply list_elem_of_lookup_2, Hin in He.
    destruct (merge_loop_entry _ _ _ He) as (f & Hf & Hn & Hg & Hcur).
    rewrite Hcur in Hlook. injection Hlook as <-.
    assert (0 <= Section.Size f < 2 ^ 64) as Hfs.
    { eapply Forall_forall in Hu; [apply Hu|]. by eapply list_elem_of_lookup_2. }
    destruct (merged_fields f (Ld.group e.1 (drop (S e.2) sections)) Hfs)
      as (HD & HS & Hrest).
    set (o := foldl Ld.merge_into f (Ld.group e.1 (drop (S e.2) sections))) in *.
    assert (Section.Name o = e.1) as Hon.
    { rewrite Hrest. simpl. done. }
    exists f, (Ld.group e.1 (drop (S e.2) sections)).
    rewrite Hon. split_and!; [done|done|done| |done].
    intros Hlt. rewrite HS. unfold wrap64. apply Z.mod_small. split; [|done].
    apply sum_sizes_nonneg. unfold Ld.uint64_sizes in *.
    rewrite <- Hg. unfold Ld.group.
    apply Forall_forall. intros s [_ Hs]%list_elem_of_filter.
    by eapply Forall_forall in Hu.
Qed.

Lemma mergeSections_concatenates_witness :
  let sections := [Inputs.text_a; Inputs.data_a; Inputs.text_b] in
  let text :=
    Section.mk ".text" 1 6 0 64 30 0 0 16 0
      (replicate 10 (byte_of_Z 0x90) ++ replicate 20 (byte_of_Z 0xc3)) in
  Ld.uint64_sizes sections
  /\ Ld.mergeSections sections [Inputs.data_a; text]
  /\ NoDup (Section.Name <$> [Inputs.data_a; text])
  /\ exists f rest,
       Ld.group ".text" sections = f :: rest
       /\ Section.Data text = concat (Section.Data <$> f :: rest)
       /\ (Ld.sum_sizes (f :: rest) < 2 ^ 64 ->
           Section.Size text = Ld.sum_sizes (f :: rest)).
Proof.
  intros sections text.
  assert (Ld.uint64_sizes sections) as Hu.
  { repeat constructor; by vm_compute. }
  assert (Ld.mergeSections sections [Inputs.data_a; text]) as Hm.
  { exists [(".data", 1%nat); (".text", 0%nat)]. split.
    - unfold Ld.range_order. vm_compute. first [reflexivity | apply perm_swap].
    - repeat constructor; by vm_compute. }
  destruct (mergeSections_concatenates sections Hu) as [_ H].
  destruct (H _ Hm) as (Hnd & _ & Hall).
  split_and!; [done..|].
  destruct (Hall text) as (f & rest & Hg & HD & _ & HS & _).
  { right. left. }
  exists f, rest. auto.
Defined.

(** * Properties of the assembler *)
Section assembler_facts.
Import As.

Lemma generateCode_map instructions :
  generateCode instructions = (fun inst => opcode_byte (Opcode inst)) <$> instructions.
Proof.
  unfold generateCode.
  assert (forall acc,
            foldl (fun code inst => code ++ [opcode_byte (Opcode inst)]) acc instructions
            = acc ++ ((fun inst => opcode_byte (Opcode inst)) <$> instructions)) as H.
  { induction instructions as [|inst rest IH]; intros acc; simpl.
    - by rewrite app_nil_r.
    - rewrite IH, <- app_assoc. done. }
  apply H.
Qed.

Lemma generateSymbols_from_spec instructions : forall i symbols,
  generateSymbols_from i instructions symbols
  = symbols ++ labelled_symbols i instructions.
Proof.
  induction instructions as [|inst rest IH]; intros i symbols; simpl.
  - by rewrite app_nil_r.
  - rewrite IH. case_decide; [done|]. by rewrite <- app_assoc.
Qed.

Lemma elem_of_labelled_symbols instructions : forall i0 sym,
  sym ∈ labelled_symbols i0 instructions
  <-> exists (k : nat) inst,
        instructions !! k = Some inst /\ Label inst ≠ ""
        /\ sym = label_symbol (i0 + Z.of_nat k) inst.
Proof.
  induction instructions as [|inst rest IH]; intros i0 sym; simpl.
  - split; [by intros ?%elem_of_nil|]. by intros (k & i & ? & _).
  - rewrite elem_of_app, IH. split.
    + intros [H|(k & i & Hk & Hl & ->)].
      * case_decide; [by apply elem_of_nil in H|].
        apply list_elem_of_singleton in H as ->.
        exists 0%nat, inst. by rewrite Z.add_0_r.
      * exists (S k), i. split_and!; [done..|]. f_equal. lia.
    + intros ([|k] & i & Hk & Hl & ->).
      * injection Hk as ->. left. rewrite decide_False by done.
        rewrite Z.add_0_r. apply list_elem_of_singleton. done.
      * right. exists k, i. split_and!; [done..|]. f_equal. lia.
Qed.

End assembler_facts.

(** C9, as stated, fails: in [start: nop] followed by [done: ret] the
    instruction labelled [done] is the byte at offset 1 of the two code
    bytes, and its symbol has the value 4. *)
Lemma label_value_is_not_code_offset :
  As.generateCode Inputs.two_labels = [byte_of_Z 0x90; byte_of_Z 0xc3]
  /\ As.code_offset Inputs.two_labels 1 = 1
  /\ As.generateSymbols Inputs.two_labels
     = [Symbol.mk "start" 0 0 2 0 0 "STT_FUNC" "STB_LOCAL";
        Symbol.mk "done" 4 0 2 0 0 "STT_FUNC" "STB_LOCAL"]
  /\ ~ As.labels_at_code_offsets Inputs.two_labels.
Proof.
  split_and!; [by vm_compute..|].
  intros H.
  destruct (H 1%nat (As.mkInstruction "ret" [] "done")) as (sym & Hin & Hn & Hv);
    [done|done|].
  change (As.generateSymbols Inputs.two_labels)
    with [Symbol.mk "start" 0 0 2 0 0 "STT_FUNC" "STB_LOCAL";
          Symbol.mk "done" 4 0 2 0 0 "STT_FUNC" "STB_LOCAL"] in Hin.
  rewrite !elem_of_cons, elem_of_nil in Hin.
  destruct Hin as [->|[->|[]]]; by vm_compute in Hn, Hv.
Qed.

(** C9 (amended). The code bytes hold exactly one byte per instruction,
    given by a total table that maps [ret] to 0xc3 and every other opcode
    to 0x90, so the instruction at index [i] is at byte offset [i]. The
    symbols are exactly those of the labelled instructions, in order: a
    local [STT_FUNC] symbol named after the label whose value is four
    times the index of the instruction, the nominal 4-byte slot that the
    declared size of [.text] uses as well. *)
Theorem labels_at_four_times_index (instructions : list As.Instruction) :
  As.generateSymbols instructions = As.labelled_symbols 0 instructions
  /\ (forall sym,
        sym ∈ As.generateSymbols instructions
        <-> exists (i : nat) inst,
              instructions !! i = Some inst /\ As.Label inst ≠ ""
              /\ sym = Symbol.mk (As.Label inst) (wrap64 (Z.of_nat i * 4)) 0 2 0 0
                                 "STT_FUNC" "STB_LOCAL")
  /\ (forall (i : nat), Z.of_nat i < 2 ^ 62 ->
        wrap64 (Z.of_nat i * 4) = 4 * Z.of_nat i)
  /\ length (As.generateCode instructions) = length instructions
  /\ (forall (i : nat) inst,
        instructions !! i = Some inst ->
        As.generateCode instructions !! i = Some (As.opcode_byte (As.Opcode inst))
        /\ As.code_offset instructions i = Z.of_nat i)
  /\ (forall opcode,
        As.opcode_byte opcode
        = if decide (opcode = "ret") then byte_of_Z 0xc3 else byte_of_Z 0x90)
  /\ Section.Size <$> ELF.Sections (As.generateObjectFile instructions)
     = [wrap64 (Z.of_nat (length instructions) * 4)].
Proof.
  split_and!.
  - unfold As.generateSymbols. by rewrite generateSymbols_from_spec.
  - intros sym. unfold As.generateSymbols.
    rewrite generateSymbols_from_spec, app_nil_l, elem_of_labelled_symbols.
    done.
  - intros i Hi. unfold wrap64. rewrite Z.mod_small; lia.
  - by rewrite generateCode_map, length_fmap.
  - intros i inst Hi. split.
    + by rewrite generateCode_map, list_lookup_fmap, Hi.
    + unfold As.code_offset. rewrite generateCode_map, length_fmap, length_take.
      apply lookup_lt_Some in Hi. lia.
  - intros opcode. unfold As.opcode_byte. by repeat case_decide.
  - done.
Qed.

Lemma labels_at_four_times_index_witness :
  Symbol.mk "done" 4 0 2 0 0 "STT_FUNC" "STB_LOCAL"
    ∈ As.generateSymbols Inputs.two_labels
  /\ As.generateCode Inputs.two_labels !! 1%nat = Some (byte_of_Z 0xc3)
  /\ As.code_offset Inputs.two_labels 1 = 1.
Proof.
  destruct (labels_at_four_times_index Inputs.two_labels)
    as (_ & Hsym & _ & _ & Hcode & _).
  split.
  - apply Hsym. exists 1%nat, (As.mkInstruction "ret" [] "done").
    split_and!; [reflexivity|done|reflexivity].
  - apply (Hcode 1%nat (As.mkInstruction "ret" [] "done")). reflexivity.
Defined.

(** * Properties of the symbol lister *)
#[global] Instance value_le_trans : Transitive Nm.value_le.
Proof. unfold Nm.value_le. intros a b c. lia. Qed.

Section lister_facts.
Import Nm.

Lemma insert_left_perm x l : insert_left x l ≡ₚ x :: l.
Proof.
  induction l as [|y l IH]; simpl; [done|].
  case_match; [|done]. rewrite IH. apply perm_swap.
Qed.

Lemma insert_left_HdRel x y l :
  Symbol.Value x < Symbol.Value y ->
  HdRel (flip value_le) y l -> HdRel (flip value_le) y (insert_left x l).
Proof.
  intros Hxy Hy. destruct l as [|z l]; simpl.
  - constructor. unfold flip, value_le. lia.
  - case_match; constructor.
    + by inversion Hy.
    + unfold flip, value_le. lia.
Qed.

Lemma insert_left_sorted x l :
  Sorted (flip value_le) l -> Sorted (flip value_le) (insert_left x l).
Proof.
  induction 1 as [|y l Hl IH Hy]; simpl.
  - repeat constructor.
  - destruct (Symbol.Value x <? Symbol.Value y) eqn:E.
    + apply Z.ltb_lt in E. constructor; [done|]. by apply insert_left_HdRel.
    + apply Z.ltb_ge in E. constructor; [by constructor|].
      constructor. by unfold flip, value_le.
Qed.

(** The insertion sort of [sort.Slice] meets the contract. *)
Lemma insertion_sort_sorts : sorts_by_value insertion_sort.
Proof.
  intros l. unfold insertion_sort.
  assert (forall acc,
            Sorted (flip value_le) acc ->
            foldl (fun acc x => insert_left x acc) acc l ≡ₚ acc ++ l
            /\ Sorted (flip value_le) (foldl (fun acc x => insert_left x acc) acc l))
    as H.
  { induction l as [|x l IH]; intros acc Hacc; simpl.
    - by rewrite app_nil_r.
    - destruct (IH (insert_left x acc)) as [Hp Hs].
      { by apply insert_left_sorted. }
      split; [|done]. rewrite Hp, insert_left_perm. simpl. apply Permutation_middle. }
  destruct (H []) as [Hp Hs]; [constructor|]. split.
  - by rewrite reverse_Permutation, Hp.
  - apply Sorted_reverse in Hs. exact Hs.
Qed.

Lemma print_symbols_filter class symbols :
  print_symbols class symbols
  = symbol_line class <$> filter (fun s => Symbol.Name s ≠ "") symbols.
Proof.
  induction symbols as [|s l IH]; simpl; [done|].
  rewrite filter_cons. destruct (decide (Symbol.Name s = "")) as [H|H].
  - by rewrite decide_False by auto.
  - rewrite decide_True by auto. simpl. by rewrite IH.
Qed.

Lemma Sorted_filter_value (P : Symbol.t -> Prop) `{forall s, Decision (P s)} l :
  Sorted value_le l -> Sorted value_le (filter P l).
Proof.
  intros Hs. apply Sorted_StronglySorted in Hs; [|apply _].
  apply StronglySorted_Sorted.
  induction Hs as [|x l Hl IH Hx]; [constructor|].
  rewrite filter_cons. case_decide; [|done].
  constructor; [done|].
  apply Forall_forall. intros y [_ Hy]%list_elem_of_filter.
  by eapply Forall_forall in Hx.
Qed.

End lister_facts.

(** C8. For any sorting function that meets the contract of [sort.Slice],
    the lister writes one line per symbol with a non-empty name and
    nothing else, in ascending order of value; symbols of values 50, 10
    and 30 given in any order are printed in the order 10, 30, 50; a
    symbol of value 0 and type [STT_NOTYPE] is printed with a blank
    address field. *)
Theorem listSymbols_sorted_named
    (sort : list Symbol.t -> list Symbol.t) (elfFile : ELF.t) :
  Nm.sorts_by_value sort ->
  exists printed,
    Nm.listSymbols sort elfFile = Nm.symbol_line (ELF.Class elfFile) <$> printed
    /\ printed ≡ₚ filter (fun s => Symbol.Name s ≠ "") (ELF.Symbols elfFile)
    /\ Sorted Nm.value_le printed
    /\ (forall a b c,
          Symbol.Value a = 10 -> Symbol.Value b = 30 -> Symbol.Value c = 50 ->
          Symbol.Name a ≠ "" -> Symbol.Name b ≠ "" -> Symbol.Name c ≠ "" ->
          ELF.Symbols elfFile ≡ₚ [c; a; b] ->
          printed = [a; b; c])
    /\ (forall s,
          s ∈ printed -> Symbol.Value s = 0 -> Symbol.Type_ s = "STT_NOTYPE" ->
          Nm.symbol_line (ELF.Class elfFile) s
          = Nm.blank_address
            +:+ String (Nm.binding_char (Symbol.Binding s) "U"%char)
                       (" " +:+ Symbol.Name s +:+ Nm.newline)).
Proof.
  intros Hsort.
  exists (filter (fun s => Symbol.Name s ≠ "") (sort (ELF.Symbols elfFile))).
  destruct (Hsort (ELF.Symbols elfFile)) as [Hperm Hsorted].
  assert (Sorted Nm.value_le
            (filter (fun s => Symbol.Name s ≠ "") (sort (ELF.Symbols elfFile))))
    as Hfs by (by apply Sorted_filter_value).
  split_and!.
  - unfold Nm.listSymbols. case_decide as Hlen.
    + apply length_zero_iff_nil in Hlen. rewrite Hlen in Hperm |- *.
      apply Permutation_nil_r in Hperm. by rewrite Hperm.
    + apply print_symbols_filter.
  - by rewrite Hperm.
  - done.
  - intros a b c Ha Hb Hc Hna Hnb Hnc Hsyms.
    assert (filter (fun s => Symbol.Name s ≠ "") (sort (ELF.Symbols elfFile))
            ≡ₚ [a; b; c]) as Hp.
    { rewrite Hperm, Hsyms. rewrite !filter_cons, filter_nil.
      rewrite !decide_True by done. rewrite (perm_swap a c). apply perm_skip, perm_swap. }
    apply (Sorted_unique_strong Nm.value_le); [|done| |done].
    + intros x1 x2 H1 H2 H12 H21. rewrite Hp in H1.
      unfold Nm.value_le in *.
      rewrite !elem_of_cons, elem_of_nil in H1, H2.
      destruct H1 as [->|[->|[->|[]]]], H2 as [->|[->|[->|[]]]]; (done || lia).
    + repeat constructor; unfold Nm.value_le; lia.
  - intros s _ Hv Ht. unfold Nm.symbol_line, Nm.type_char.
    rewrite Hv, Ht. simpl. done.
Qed.

Lemma listSymbols_sorted_named_witness :
  Nm.listSymbols Nm.insertion_sort Inputs.listed
  = Nm.symbol_line "ELF64" <$> [Inputs.undef0; Inputs.sym10; Inputs.sym30; Inputs.sym50]
  /\ Nm.symbol_line "ELF64" Inputs.undef0
     = "                 U puts" +:+ Nm.newline
  /\ Nm.symbol_line "ELF64" Inputs.sym10
     = "000000000000000a D a" +:+ Nm.newline.
Proof.
  destruct (listSymbols_sorted_named Nm.insertion_sort Inputs.listed
              insertion_sort_sorts)
    as (printed & Hlines & Hperm & Hsorted & _ & _).
  assert (printed = [Inputs.undef0; Inputs.sym10; Inputs.sym30; Inputs.sym50]) as ->.
  { apply (Sorted_unique_strong Nm.value_le); [|done| |].
    - intros x1 x2 H1 H2 H12 H21. rewrite Hperm in H1.
      apply list_elem_of_filter in H1 as [_ H1].
      unfold Nm.value_le in *.
      change (ELF.Symbols Inputs.listed)
        with [Inputs.sym50; Inputs.unnamed; Inputs.sym10; Inputs.undef0; Inputs.sym30]
        in H1.
      rewrite !elem_of_cons, elem_of_nil in H1.
      rewrite !elem_of_cons, elem_of_nil in H2.
      destruct H1 as [->|[->|[->|[->|[->|[]]]]]], H2 as [->|[->|[->|[->|[]]]]];
        (done || (vm_compute in H12, H21; done)).
    - repeat constructor; by vm_compute.
    - rewrite Hperm.
      assert (filter (fun s => Symbol.Name s ≠ "") (ELF.Symbols Inputs.listed)
              = [Inputs.sym50; Inputs.sym10; Inputs.undef0; Inputs.sym30]) as ->
        by (by vm_compute).
      apply (Permutation_cons_app [Inputs.undef0; Inputs.sym10; Inputs.sym30] []).
      simpl. apply perm_swap. }
  split; [done|]. split; by vm_compute.
Defined.

(** * Properties of the archive codec *)
Section archive_reader_facts.
Import Ar.

(** Each completed iteration consumes at least the 60 bytes of a
    header. *)
Lemma read_member_consumes file rest m :
  read_member file = Next rest m -> (length rest + 60 <= length file)%nat.
Proof.
  unfold read_member. case_decide as Hlen; [done|].
  case_match; [done|]. case_decide; [done|].
  intros [= <- _]. case_match; rewrite ?length_drop; lia.
Qed.

(** The bound chosen by [readArchive] is never reached. *)
Lemma read_members_total fuel : forall file members,
  (length file < fuel)%nat ->
  exists res, read_members fuel file members = Some res.
Proof.
  induction fuel as [|fuel IH]; intros file members Hlen; [lia|].
  simpl. destruct (read_member file) as [| |rest m] eqn:E; [eauto..|].
  apply IH. apply read_member_consumes in E. lia.
Qed.

Lemma readArchive_total file : exists res, readArchive file = Some res.
Proof.
  unfold readArchive. repeat case_decide; eauto.
  apply read_members_total. rewrite length_drop. lia.
Qed.

(** With enough iterations the result does not depend on the bound. *)
Lemma read_members_fuel fuel1 : forall fuel2 file members,
  (length file < fuel1)%nat -> (length file < fuel2)%nat ->
  read_members fuel1 file members = read_members fuel2 file members.
Proof.
  induction fuel1 as [|fuel1 IH]; intros [|fuel2] file members H1 H2; try lia.
  simpl. destruct (read_member file) as [| |rest m] eqn:E; [done..|].
  apply read_member_consumes in E. apply IH; lia.
Qed.

Lemma read_members_S fuel file members :
  read_members (S fuel) file members
  = match read_member file with
    | Break => Some (Ok members)
    | Fail msg => Some (Err msg)
    | Next rest m => read_members fuel rest (members ++ [m])
    end.
Proof. done. Qed.

Lemma reaches_read_members file rest :
  reaches file rest ->
  forall members, exists members',
    read_members (S (length file)) file members
    = read_members (S (length rest)) rest members'.
Proof.
  induction 1 as [file|file file' m rest Hstep Hreach IH]; intros members.
  - eauto.
  - destruct (IH (members ++ [m])) as [members' Heq].
    exists members'. rewrite <- Heq, read_members_S, Hstep.
    apply read_member_consumes in Hstep.
    apply read_members_fuel; lia.
Qed.

Lemma read_member_bad_size file :
  (60 <= length file)%nat ->
  ArchiveHeader.Size (parseHeader (take 60 file)) < 0
  \/ size_ceiling < ArchiveHeader.Size (parseHeader (take 60 file)) ->
  read_member file
  = Fail ("invalid member size: "
          +:+ fmt_d (ArchiveHeader.Size (parseHeader (take 60 file)))).
Proof.
  intros Hlen Hbad. unfold read_member. rewrite decide_False by lia.
  destruct Hbad as [H|H]; apply Z.ltb_lt in H; rewrite H; [done|].
  by rewrite orb_true_r.
Qed.

End archive_reader_facts.

(** C7. When the reading loop arrives at a member header whose size field
    is negative or above the 100 MB ceiling, [readArchive] returns an
    error and no member list, whatever it has read before. *)
Theorem readArchive_aborts_on_bad_size (file rest : list byte) :
  take 8 file = Ar.magic ->
  Ar.reaches (drop 8 file) rest ->
  (60 <= length rest)%nat ->
  ArchiveHeader.Size (Ar.parseHeader (take 60 rest)) < 0
  \/ Ar.size_ceiling < ArchiveHeader.Size (Ar.parseHeader (take 60 rest)) ->
  Ar.readArchive file
  = Some (Err ("invalid member size: "
               +:+ fmt_d (ArchiveHeader.Size (Ar.parseHeader (take 60 rest))))).
Proof.
  intros Hmagic Hreach Hlen Hbad.
  assert (8 <= length file)%nat as Hfile.
  { assert (length (take 8 file) = 8%nat) as H by (by rewrite Hmagic).
    rewrite length_take in H. lia. }
  unfold Ar.readArchive. rewrite decide_False by lia.
  replace (8 - length file)%nat with 0%nat by lia.
  unfold make_bytes. cbn [replicate]. rewrite app_nil_r, decide_True by done.
  rewrite (read_members_fuel _ (S (length (drop 8 file))))
    by (rewrite length_drop; lia).
  destruct (reaches_read_members _ _ Hreach []) as [members' ->].
  by rewrite read_members_S, read_member_bad_size.
Qed.

Lemma readArchive_aborts_on_bad_size_witness :
  Ar.readArchive Inputs.archive_neg = Some (Err "invalid member size: -5")
  /\ Ar.readArchive Inputs.archive_big
     = Some (Err "invalid member size: 104857601").
Proof.
  split.
  - rewrite (readArchive_aborts_on_bad_size Inputs.archive_neg
               (Inputs.header_neg ++ bytes_of_string "xy")).
    + by vm_compute.
    + by vm_compute.
    + eapply Ar.reaches_next; [by vm_compute|]. apply Ar.reaches_here.
    + vm_compute. lia.
    + left. by vm_compute.
  - rewrite (readArchive_aborts_on_bad_size Inputs.archive_big Inputs.header_big).
    + by vm_compute.
    + by vm_compute.
    + eapply Ar.reaches_next; [by vm_compute|]. apply Ar.reaches_here.
    + vm_compute. lia.
    + right. by vm_compute.
Defined.

Section archive_codec_facts.
Import Ar.

Lemma bytes_of_string_of_bytes l : bytes_of_string (string_of_bytes l) = l.
Proof. apply list_ascii_of_string_of_list_ascii. Qed.

Lemma string_of_bytes_of_string s : string_of_bytes (bytes_of_string s) = s.
Proof. apply string_of_list_ascii_of_string. Qed.

Lemma length_bytes_of_string s : length (bytes_of_string s) = String.length s.
Proof. induction s as [|c s IH]; simpl; [done|]. by rewrite IH. Qed.

Lemma length_padString s n : length (padString s n) = n.
Proof.
  unfold padString.
  rewrite length_app, length_take, length_replicate, length_bytes_of_string. lia.
Qed.

Lemma padString_short s n :
  (String.length s <= n)%nat ->
  padString s n = bytes_of_string s ++ replicate (n - String.length s) space.
Proof.
  intros H. unfold padString. rewrite take_ge; [done|].
  by rewrite length_bytes_of_string.
Qed.

Lemma drop_blanks_spaces k l : drop_blanks (replicate k space ++ l) = drop_blanks l.
Proof. induction k as [|k IH]; simpl; [done|]. exact IH. Qed.

Lemma length_drop_blanks l : (length (drop_blanks l) <= length l)%nat.
Proof.
  induction l as [|c l IH]; simpl; [done|]. destruct (is_blank c); simpl; lia.
Qed.

Lemma drop_blanks_fixed_app l k :
  drop_blanks l = l -> l ≠ [] -> drop_blanks (l ++ k) = l ++ k.
Proof.
  destruct l as [|c l]; [done|]. simpl. intros H _.
  destruct (is_blank c); [|done].
  pose proof (length_drop_blanks l) as Hlen. rewrite H in Hlen. simpl in Hlen. lia.
Qed.

(** Padding with spaces and trimming gives the string back. *)
Lemma trim_pad l k :
  drop_blanks l = l -> drop_blanks (reverse l) = reverse l ->
  reverse (drop_blanks (reverse (drop_blanks (l ++ replicate k space)))) = l.
Proof.
  intros Hl Hr. destruct (decide (l = [])) as [->|Hne].
  - simpl. rewrite <- (app_nil_r (replicate k space)), drop_blanks_spaces. done.
  - rewrite drop_blanks_fixed_app by done.
    rewrite reverse_app, reverse_replicate, drop_blanks_spaces, Hr.
    apply reverse_involutive.
Qed.

Lemma trimSpace_padString s n :
  (String.length s <= n)%nat -> no_outer_blanks s ->
  trimSpace (string_of_bytes (padString s n)) = s.
Proof.
  intros Hlen [Hl Hr]. unfold trimSpace.
  rewrite bytes_of_string_of_bytes, padString_short, trim_pad by done.
  apply string_of_bytes_of_string.
Qed.

Lemma u8_digit_char d : 0 <= d < 10 -> u8 (digit_char d) = 48 + d.
Proof.
  intros H. unfold u8, digit_char.
  destruct (d <? 10) eqn:E; [|apply Z.ltb_ge in E; lia].
  rewrite N_ascii_embedding by lia. lia.
Qed.

Lemma parse_digits_digit d tl v :
  0 <= d < 10 ->
  parse_digits (digit_char d :: tl) v = parse_digits tl (v * 10 + d).
Proof.
  intros H. simpl. rewrite u8_digit_char by done.
  replace (48 + d - 48) with d by lia.
  destruct (0 <=? d) eqn:E1; [|apply Z.leb_gt in E1; lia].
  destruct (d <=? 9) eqn:E2; [done|apply Z.leb_gt in E2; lia].
Qed.

(** The decimal digits written by ["%d"]: at most [k] of them for a
    number below [10 ^ k], and [strconv] reads the number back. *)
Lemma fmt_digits_spec k : forall fuel u acc,
  (0 < k <= fuel)%nat -> 0 <= u < 10 ^ Z.of_nat k ->
  exists ds,
    bytes_of_string (fmt_digits 10 fuel u acc) = ds ++ bytes_of_string acc
    /\ ds ≠ []
    /\ (length ds <= k)%nat
    /\ Forall (fun c => 48 <= u8 c <= 57) ds
    /\ forall tl v,
         parse_digits (ds ++ tl) v
         = parse_digits tl (v * 10 ^ Z.of_nat (length ds) + u).
Proof.
  induction k as [|k IH]; intros fuel u acc Hk Hu; [lia|].
  destruct fuel as [|fuel]; [lia|]. simpl fmt_digits.
  assert (0 <= u mod 10 < 10) as Hmod by (apply Z.mod_pos_bound; lia).
  destruct (u <? 10) eqn:E.
  - apply Z.ltb_lt in E. exists [digit_char (u mod 10)].
    rewrite Z.mod_small by lia. split_and!.
    + done.
    + done.
    + simpl. lia.
    + constructor; [|done]. rewrite u8_digit_char; lia.
    + intros tl v. simpl app. rewrite parse_digits_digit by lia.
      f_equal.
  - apply Z.ltb_ge in E.
    assert (0 < k)%nat as Hk0.
    { destruct k; [|lia]. simpl in Hu. lia. }
    destruct (IH fuel (u / 10) (String (digit_char (u mod 10)) acc))
      as (ds & Hb & Hne & Hlen & Hd & Hp).
    { lia. }
    { split; [apply Z.div_pos; lia|].
      apply Z.div_lt_upper_bound; [lia|].
      rewrite Nat2Z.inj_succ, Z.pow_succ_r in Hu; lia. }
    exists (ds ++ [digit_char (u mod 10)]). split_and!.
    + rewrite Hb. simpl. by rewrite <- app_assoc.
    + by destruct ds.
    + rewrite length_app. simpl. lia.
    + apply Forall_app. split; [done|]. constructor; [|done].
      rewrite u8_digit_char; lia.
    + intros tl v. rewrite <- app_assoc. simpl app.
      rewrite Hp, parse_digits_digit by done. f_equal.
      rewrite length_app. simpl length.
      rewrite Nat2Z.inj_add, Z.pow_add_r by lia. simpl (Z.of_nat 1).
      pose proof (Z.div_mod u 10). lia.
Qed.

Lemma digit_not_blank c : 48 <= u8 c <= 57 -> is_blank c = false.
Proof.
  intros H. unfold is_blank.
  rewrite !bool_decide_eq_false_2; [done|..]; intros ->.
  - change (48 <= 9 <= 57) in H. lia.
  - change (48 <= 32 <= 57) in H. lia.
Qed.

Lemma drop_blanks_digits ds :
  Forall (fun c => 48 <= u8 c <= 57) ds -> drop_blanks ds = ds.
Proof.
  destruct 1 as [|c ds Hc _]; [done|]. simpl. by rewrite digit_not_blank.
Qed.

(** The size field: [parseInt64] reads back what ["%d"] wrote, for every
    size below [10 ^ 10]. *)
Lemma size_field_round_trip n :
  0 <= n < 10 ^ 10 ->
  parseInt64 (trimSpace (string_of_bytes (padString (fmt_d n) 10))) = (n, false).
Proof.
  intros Hn. unfold fmt_d.
  destruct (n <? 0) eqn:E; [apply Z.ltb_lt in E; lia|].
  destruct (fmt_digits_spec 10 20 n "") as (ds & Hb & Hne & Hlen & Hd & Hp);
    [lia|done|].
  change (bytes_of_string "") with (@nil byte) in Hb. rewrite app_nil_r in Hb.
  rewrite trimSpace_padString.
  - unfold parseInt64, ParseInt. rewrite Hb.
    destruct ds as [|c ds]; [done|].
    apply Forall_cons in Hd as Hc. destruct Hc as [Hc _].
    rewrite !bool_decide_eq_false_2;
      [|intros ->; change (48 <= 45 <= 57) in Hc; lia
       |intros ->; change (48 <= 43 <= 57) in Hc; lia].
    simpl orb. cbv iota.
    specialize (Hp [] 0). rewrite app_nil_r in Hp. rewrite Hp.
    simpl parse_digits. rewrite Z.mul_0_l, Z.add_0_l.
    destruct (2 ^ 63 <=? n) eqn:E2; [apply Z.leb_le in E2; lia|done].
  - by rewrite <- length_bytes_of_string, Hb.
  - split; rewrite Hb; apply drop_blanks_digits; [done|].
    by apply Forall_reverse.
Qed.

Lemma slice_middle (pre mid post : list byte) lo hi :
  length pre = lo -> length mid = (hi - lo)%nat ->
  Elf.slice lo hi (pre ++ mid ++ post) = mid.
Proof.
  intros Hpre Hmid. unfold Elf.slice. rewrite <- Hmid, <- Hpre.
  by rewrite drop_app_length, take_app_length.
Qed.

Lemma formatHeader_name h :
  field 0 16 (formatHeader h)
  = string_of_bytes (padString (ArchiveHeader.Name h) 16).
Proof.
  unfold field, formatHeader. f_equal.
  apply (slice_middle [] (padString (ArchiveHeader.Name h) 16));
    [done|by rewrite length_padString].
Qed.

Lemma formatHeader_size h :
  field 48 58 (formatHeader h)
  = string_of_bytes (padString (fmt_d (ArchiveHeader.Size h)) 10).
Proof.
  unfold field, formatHeader. f_equal.
  rewrite !app_assoc.
  rewrite <- (app_assoc _ (padString (fmt_d (ArchiveHeader.Size h)) 10)).
  apply slice_middle; rewrite ?length_app, ?length_padString; done.
Qed.

Lemma length_formatHeader h : length (formatHeader h) = 60%nat.
Proof. unfold formatHeader. by rewrite !length_app, !length_padString. Qed.

(** Name and size survive the header codec. *)
Lemma reread_payload m : storable m -> payload (reread m) = payload m.
Proof.
  intros (Hlen & Hblank & Hsize & Hceil). unfold payload, reread, parseHeader.
  simpl. rewrite formatHeader_name, formatHeader_size.
  rewrite trimSpace_padString by done.
  rewrite size_field_round_trip; [done|].
  unfold size_ceiling in Hceil. lia.
Qed.

Lemma length_write_member m : length (write_member m) = stored_length m.
Proof.
  unfold write_member, stored_length.
  rewrite !length_app, length_formatHeader.
  pose proof (Nat2Z.inj_mod (length (ArchiveMember.Data m)) 2) as Hmod.
  pose proof (Nat.mod_upper_bound (length (ArchiveMember.Data m)) 2) as Hlt.
  destruct (Z.of_nat (length (ArchiveMember.Data m)) mod 2 =? 0) eqn:E.
  - apply Z.eqb_eq in E. cbn [length]. lia.
  - apply Z.eqb_neq in E.
    change (length (bytes_of_string Nm.newline)) with 1%nat. lia.
Qed.

(** One iteration of the reader on a member written by the writer: the
    header and the payload are read, the pad byte is skipped. *)
Lemma read_member_written m rest :
  storable m -> read_member (write_member m ++ rest) = Next rest (reread m).
Proof.
  intros Hst.
  assert (ArchiveHeader.Size (parseHeader (formatHeader (ArchiveMember.Header m)))
          = Z.of_nat (length (ArchiveMember.Data m))) as Hsz.
  { pose proof (reread_payload m Hst) as Hpay.
    destruct Hst as (_ & _ & <- & _).
    unfold payload, reread in Hpay.
    cbn [ArchiveMember.Header ArchiveMember.Data] in Hpay. by injection Hpay. }
  destruct Hst as (_ & _ & Hsize & Hceil). rewrite Hsize in Hceil.
  unfold read_member, write_member. rewrite <- !app_assoc.
  rewrite decide_False by (rewrite length_app, length_formatHeader; lia).
  rewrite (take_app_length' _ _ 60), (drop_app_length' _ _ 60)
    by (symmetry; apply length_formatHeader).
  rewrite Hsz.
  destruct (Z.of_nat _ <? 0) eqn:E1; [apply Z.ltb_lt in E1; lia|].
  destruct (size_ceiling <? _) eqn:E2; [apply Z.ltb_lt in E2; lia|].
  simpl orb. cbv iota. rewrite Nat2Z.id.
  rewrite decide_False by (rewrite length_app; lia).
  rewrite take_app_length, drop_app_length.
  unfold reread. by destruct (_ =? 0).
Qed.

Lemma read_members_written order : forall acc,
  Forall storable order ->
  read_members (S (length (concat (write_member <$> order))))
               (concat (write_member <$> order)) acc
  = Some (Ok (acc ++ (reread <$> order))).
Proof.
  induction order as [|m order IH]; intros acc Hall.
  - simpl. by rewrite app_nil_r.
  - apply Forall_cons in Hall as [Hm Hall].
    rewrite fmap_cons, concat_cons, read_members_S, read_member_written by done.
    rewrite (read_members_fuel _ (S (length (concat (write_member <$> order)))))
      by (rewrite ?length_app, ?length_write_member; unfold stored_length; lia).
    rewrite IH by done. by rewrite <- app_assoc.
Qed.

Lemma readArchive_written order :
  Forall storable order.*2 ->
  readArchive (writeArchive_in order) = Some (Ok (reread <$> order.*2)).
Proof.
  intros Hall. unfold readArchive, writeArchive_in.
  assert (((fun e : string * ArchiveMember.t => write_member e.2) <$> order)
          = write_member <$> order.*2) as ->
    by (by rewrite <- list_fmap_compose).
  set (body := concat (write_member <$> order.*2)).
  assert (length (magic ++ body) = (8 + length body)%nat) as Hlen
    by (by rewrite length_app).
  rewrite decide_False by lia.
  rewrite Hlen. replace (8 - (8 + length body))%nat with 0%nat by lia.
  rewrite (take_app_length' _ _ 8), (drop_app_length' _ _ 8) by done.
  unfold make_bytes. cbn [replicate]. rewrite app_nil_r, decide_True by done.
  rewrite (read_members_fuel _ (S (length body))) by lia.
  by apply read_members_written.
Qed.

Lemma length_writeArchive_in order :
  length (writeArchive_in order)
  = (8 + sum_list (stored_length <$> (reread <$> order.*2)))%nat.
Proof.
  unfold writeArchive_in. rewrite length_app. f_equal.
  induction order as [|e order IH]; [done|].
  rewrite !fmap_cons, concat_cons, length_app, IH, length_write_member. done.
Qed.

End archive_codec_facts.

(** C6, as stated, fails: a member whose name has 17 bytes comes back
    with the first 16 bytes of its name. *)
Lemma long_name_is_truncated :
  Ar.readArchive
    (Ar.writeArchive_in [("seventeen_chars.o", Inputs.member_long)])
  = Some (Ok [ArchiveMember.mk
                (ArchiveHeader.mk "seventeen_chars." 0 0 0 644 2 Inputs.end_char)
                (bytes_of_string "ok")])
  /\ ~ Ar.round_trip {[ "seventeen_chars.o" := Inputs.member_long ]}.
Proof.
  assert (Ar.readArchive
            (Ar.writeArchive_in [("seventeen_chars.o", Inputs.member_long)])
          = Some (Ok [ArchiveMember.mk
                        (ArchiveHeader.mk "seventeen_chars." 0 0 0 644 2
                                          Inputs.end_char)
                        (bytes_of_string "ok")])) as Hread by (by vm_compute).
  split; [done|]. intros Hrt.
  destruct (Hrt (Ar.writeArchive_in [("seventeen_chars.o", Inputs.member_long)]))
    as (ms & Hms & Hperm).
  { exists [("seventeen_chars.o", Inputs.member_long)]. split; [|done].
    unfold Ld.range_order. by rewrite map_to_list_singleton. }
  rewrite Hread in Hms. injection Hms as <-.
  rewrite map_to_list_singleton in Hperm. simpl in Hperm.
  apply Permutation_singleton_r in Hperm. discriminate Hperm.
Qed.

(** C6 (amended). For members that the fixed-width header can hold (a
    name of at most 16 bytes with no space or tab at either end, a
    declared size equal to the payload length and at most 100 MB),
    whatever the order in which the writer visits the map, the reader
    returns as many members as were written, with the same names, declared
    sizes and payload bytes; each member takes its 60-byte header, its
    payload and exactly one pad byte when the payload length is odd. *)
Theorem archive_round_trip_storable
    (members : gmap string ArchiveMember.t) (file : list byte) :
  Ar.writeArchive members file ->
  (forall k m, members !! k = Some m -> Ar.storable m) ->
  exists ms,
    Ar.readArchive file = Some (Ok ms)
    /\ length ms = size members
    /\ Ar.payload <$> ms ≡ₚ Ar.payload <$> (map_to_list members).*2
    /\ length file = (8 + sum_list (Ar.stored_length <$> ms))%nat.
Proof.
  intros (order & Hperm & ->) Hst. unfold Ld.range_order in Hperm.
  assert (Forall Ar.storable order.*2) as Hall.
  { apply Forall_forall. intros m ([k m'] & -> & Hin)%list_elem_of_fmap.
    rewrite Hperm in Hin. apply elem_of_map_to_list in Hin. by eapply Hst. }
  exists (Ar.reread <$> order.*2). split_and!.
  - by apply readArchive_written.
  - rewrite !length_fmap, Hperm. by rewrite length_map_to_list.
  - rewrite <- Hperm, <- list_fmap_compose.
    assert (Ar.payload ∘ Ar.reread <$> order.*2 = Ar.payload <$> order.*2) as ->;
      [|done].
    apply Forall_fmap_ext. eapply Forall_impl; [exact Hall|].
    intros m Hm. by apply reread_payload.
  - apply length_writeArchive_in.
Qed.

Lemma archive_round_trip_storable_witness :
  let members : gmap string ArchiveMember.t :=
    <["a.o" := Inputs.member_hi]> {[ "b.o" := Inputs.member_even ]} in
  exists ms,
    Ar.readArchive (Ar.writeArchive_in (map_to_list members)) = Some (Ok ms)
    /\ length ms = 2%nat
    /\ Ar.payload <$> ms ≡ₚ Ar.payload <$> (map_to_list members).*2.
Proof.
  intros members.
  destruct (archive_round_trip_storable members
              (Ar.writeArchive_in (map_to_list members)))
    as (ms & Hread & Hlen & Hperm & _).
  - exists (map_to_list members). split; [by unfold Ld.range_order|done].
  - intros k m. unfold members.
    rewrite lookup_insert_Some, lookup_singleton_Some.
    intros [[_ <-]|[_ [_ <-]]]; repeat split; (by vm_compute) || (vm_compute; lia).
  - exists ms. split_and!; [done| |done]. rewrite Hlen. by vm_compute.
Defined.

(** * More on [elf/elf.go] *)
Section ParseELF_errors.
Import Elf.

Lemma avail_at s i : 0 <= i -> avail (mkReader s i) = drop (Z.to_nat i) s.
Proof.
  intros Hi. unfold avail. simpl.
  destruct (i <? Z.of_nat (length s)) eqn:E; [done|].
  apply Z.ltb_ge in E. rewrite drop_ge; [done|lia].
Qed.

Lemma read_full_ok n msg s i e a :
  0 <= i -> (n <= length (drop (Z.to_nat i) s))%nat ->
  read_full n msg (mkWorld (mkReader s i) e a)
  = (mkWorld (mkReader s (i + Z.of_nat n)) e a, Ok (take n (drop (Z.to_nat i) s))).
Proof.
  intros Hi Hn. unfold read_full, ReadFull. simpl w_r.
  rewrite avail_at by done. by rewrite decide_True.
Qed.

Lemma read_full_short n msg s i e a :
  0 <= i -> (length (drop (Z.to_nat i) s) < n)%nat ->
  exists w',
    read_full n msg (mkWorld (mkReader s i) e a)
    = (w', Err (msg +:+ (if decide (length (drop (Z.to_nat i) s) = 0%nat)
                         then "EOF" else "unexpected EOF"))).
Proof.
  intros Hi Hn. unfold read_full, ReadFull. simpl w_r.
  rewrite avail_at by done. rewrite decide_False by lia. eauto.
Qed.

(** The error of [ParseELF] as a function of the input bytes. *)
Lemma ParseELF_body_error data :
  exists w',
    ParseELF_body (mkWorld (NewReader data) ELF.zero [])
    = (w', Err
        (if decide (length data < 4)%nat then
           "failed to read magic: "
           +:+ (if decide (length data = 0%nat) then "EOF" else "unexpected EOF")
         else if negb (magic_ok (take 4 data)) then "invalid ELF magic"
         else match data !! 4%nat with
              | None => "failed to read class: EOF"
              | Some c =>
                  if (u8 c =? 1) || (u8 c =? 2) then "invalid data encoding: 0"
                  else "invalid ELF class: " +:+ fmt_d (u8 c)
              end)).
Proof.
  unfold ParseELF_body, NewReader. munfold.
  destruct (decide (length data < 4)%nat) as [Hshort|Hlong].
  - destruct (read_full_short 4 "failed to read magic: " data 0 ELF.zero [])
      as [w' ->]; [done|by rewrite drop_0|].
    rewrite drop_0. eauto.
  - rewrite read_full_ok by (rewrite ?drop_0; lia). rewrite drop_0.
    cbn [ELFHeader.with_Magic ELFHeader.Magic].
    destruct (negb (magic_ok (take 4 data))); [eauto|].
    rewrite seek_nonneg by lia. cbn [w_r w_elf w_allocs r_s].
    destruct (data !! 4%nat) as [c|] eqn:Hc.
    + assert (drop 4 data = c :: drop 5 data) as Hdrop.
      { by rewrite <- (drop_S data c 4). }
      rewrite read_full_ok
        by first [lia | change (Z.to_nat 4) with 4%nat; rewrite Hdrop; simpl; lia].
      change (Z.to_nat 4) with 4%nat. rewrite Hdrop. cbn [take].
      rewrite seek_nonneg by lia. cbn [w_r w_elf w_allocs r_s].
      match goal with |- context [read 64 ?w] =>
        destruct (read_ok 64 w) as (w3 & [headerBytes eof] & ->)
      end.
      cbn [ELFHeader.with_Class ELFHeader.with_Magic ELFHeader.Class
           ELFHeader.Data ELFHeader.zero].
      change (at_ (c :: take 0 (drop 5 data)) 0) with (u8 c).
      change (0 =? 2) with false. change (0 =? 1) with false. cbv iota.
      change (fmt_d 0) with "0".
      destruct (u8 c =? 1); simpl orb.
      * rewrite modify_elf_ok.
        case_decide; rewrite ?modify_elf_ok; munfold; eauto.
      * destruct (u8 c =? 2); [|eauto].
        rewrite modify_elf_ok.
        case_decide; rewrite ?modify_elf_ok; munfold; eauto.
    + apply lookup_ge_None in Hc.
      destruct (read_full_short 1 "failed to read class: " data 4
                  (w_elf (mkWorld (mkReader data 4) ELF.zero [])) [])
        as [w' Hw]; [done|rewrite length_drop; lia|].
      simpl w_elf in Hw. rewrite Hw.
      rewrite decide_True by (rewrite length_drop; lia). eauto.
Qed.

End ParseELF_errors.

(** X1. The error [ParseELF] returns is decided by the first five bytes:
    fewer than four bytes fail the read of the magic, a wrong magic is
    reported as such, a missing fifth byte fails the read of the class, a
    class other than 1 and 2 is an invalid class, and every remaining input
    is rejected for its data encoding. *)
Theorem ParseELF_error_cases (data : list byte) :
  Elf.ParseELF (Elf.NewReader data)
  = Err (if decide (length data < 4)%nat then
           "failed to read magic: "
           +:+ (if decide (length data = 0%nat) then "EOF" else "unexpected EOF")
         else if negb (Elf.magic_ok (take 4 data)) then "invalid ELF magic"
         else match data !! 4%nat with
              | None => "failed to read class: EOF"
              | Some c =>
                  if (u8 c =? 1) || (u8 c =? 2) then "invalid data encoding: 0"
                  else "invalid ELF class: " +:+ fmt_d (u8 c)
              end).
Proof.
  unfold Elf.ParseELF. by destruct (ParseELF_body_error data) as [w' ->].
Qed.

Section parseSections_facts.
Import Elf.

Lemma Read_length n r r' buf eof : Read n r = (r', (buf, eof)) -> length buf = n.
Proof.
  unfold Read. destruct (avail r) as [|b a]; intros [= _ <- _].
  - apply length_replicate.
  - unfold make_bytes.
    rewrite length_app, length_replicate, length_take. lia.
Qed.

Lemma read_length n w w' buf eof :
  read n w = (w', Ok (buf, eof)) ->
  length buf = n /\ w_elf w' = w_elf w /\ w_allocs w' = w_allocs w.
Proof.
  unfold read. destruct (Read n (w_r w)) as [r' [b e]] eqn:E.
  intros [= <- <- <-]. apply Read_length in E. auto.
Qed.

(** The offset computed from the first four bytes of a name
    [section_<i>] is beyond every string table the parser accepts. *)
Lemma update_name_unchanged endian strtab s rest :
  Section.Name s = "sect" +:+ rest ->
  Z.of_nat (length strtab) <= limit_100MB ->
  update_name endian strtab s = Ok s.
Proof.
  intros Hname Hlen. unfold update_name, string_at. rewrite Hname.
  change (bytes_of_string ("sect" +:+ rest))
    with ("s"%char :: "e"%char :: "c"%char :: "t"%char :: bytes_of_string rest).
  cbn [lookup list_lookup outcome_bind].
  assert (wrap32 (Z.of_nat (length strtab)) = Z.of_nat (length strtab)) as ->.
  { unfold wrap32. apply Z.mod_small. unfold limit_100MB in Hlen. lia. }
  match goal with |- context [Uint32 endian ?l <? _] =>
    assert (limit_100MB < Uint32 endian l) as Hoff
      by (by destruct endian; vm_compute)
  end.
  destruct (Uint32 endian _ <? _) eqn:E; [|done]. apply Z.ltb_lt in E. lia.
Qed.

Lemma update_names_unchanged endian strtab secs :
  Forall (fun s => exists rest, Section.Name s = "sect" +:+ rest) secs ->
  Z.of_nat (length strtab) <= limit_100MB ->
  update_names endian strtab secs = Ok secs.
Proof.
  intros Hall Hlen. induction Hall as [|s secs [rest Hs] _ IH]; [done|].
  simpl. rewrite (update_name_unchanged _ _ _ rest) by done. simpl.
  by rewrite IH.
Qed.

(** The header loop fills the entries [i .. i+n-1] and gives them the
    names [section_<index>]. *)
Lemma read_section_headers_names endian n : forall i w w',
  read_section_headers endian n i w = (w', Ok tt) ->
  0 <= i ->
  length (ELF.Sections (w_elf w')) = length (ELF.Sections (w_elf w))
  /\ ELF.Header (w_elf w') = ELF.Header (w_elf w)
  /\ w_allocs w' = w_allocs w
  /\ (forall j, (j < Z.to_nat i)%nat ->
        ELF.Sections (w_elf w') !! j = ELF.Sections (w_elf w) !! j)
  /\ (forall j s, (Z.to_nat i <= j < Z.to_nat i + n)%nat ->
        ELF.Sections (w_elf w') !! j = Some s ->
        Section.Name s = "section_" +:+ fmt_d (Z.of_nat j)).
Proof.
  induction n as [|n IH]; intros i w w' Hrun Hi.
  - simpl in Hrun. injection Hrun as <-. split_and!; auto. intros; lia.
  - simpl in Hrun. revert Hrun. munfold.
    assert (forall sec w1,
              w_elf w1 = w_elf w -> w_allocs w1 = w_allocs w ->
              Section.Name sec = "section_" +:+ fmt_d i ->
              (let (w'0, o) :=
                 modify_elf (fun e => ELF.with_Sections e
                               (<[Z.to_nat i := sec]> (ELF.Sections e))) w1 in
               match o with
               | Ok _ => read_section_headers endian n (i + 1) w'0
               | Err e => (w'0, Err e)
               | Panic e => (w'0, Panic e)
               end) = (w', Ok tt) ->
              length (ELF.Sections (w_elf w')) = length (ELF.Sections (w_elf w))
              /\ ELF.Header (w_elf w') = ELF.Header (w_elf w)
              /\ w_allocs w' = w_allocs w
              /\ (forall j, (j < Z.to_nat i)%nat ->
                    ELF.Sections (w_elf w') !! j = ELF.Sections (w_elf w) !! j)
              /\ (forall j s, (Z.to_nat i <= j < Z.to_nat i + S n)%nat ->
                    ELF.Sections (w_elf w') !! j = Some s ->
                    Section.Name s = "section_" +:+ fmt_d (Z.of_nat j))) as Hstep.
    { intros sec w1 He Ha Hsec. rewrite modify_elf_ok. intros Hrun.
      apply IH in Hrun as (Hlen & Hhdr & Hal & Hlow & Hnew); [|lia].
      cbn [w_elf w_allocs ELF.with_Sections ELF.Sections ELF.Header] in *.
      rewrite length_insert, He in Hlen. rewrite He in Hhdr. rewrite Ha in Hal.
      replace (Z.to_nat (i + 1)) with (S (Z.to_nat i)) in * by lia.
      split_and!; [done..| |].
      - intros j Hj. rewrite Hlow by lia.
        rewrite list_lookup_insert_ne by lia. by rewrite He.
      - intros j s Hj Hs. destruct (decide (j = Z.to_nat i)) as [->|Hne].
        + rewrite Hlow in Hs by lia.
          apply list_lookup_insert_Some in Hs as [(_ & <- & _)|[? _]]; [|done].
          rewrite Hsec. by rewrite Z2Nat.id.
        + apply (Hnew j s); [lia|done]. }
    case_decide.
    + destruct (read 40 w) as [w1 [[b eof]|e|e]] eqn:Hread; try done.
      destruct eof; [done|].
      apply read_length in Hread as (_ & He & Ha). by apply Hstep.
    + destruct (read 64 w) as [w1 [[b eof]|e|e]] eqn:Hread; try done.
      destruct eof; [done|].
      apply read_length in Hread as (_ & He & Ha). by apply Hstep.
Qed.

End parseSections_facts.

Section parseSections_names.
Import Elf.

Lemma read_section_names_keeps endian h w w' :
  Forall (fun s => exists rest, Section.Name s = "sect" +:+ rest)
         (ELF.Sections (w_elf w)) ->
  read_section_names endian h w = (w', Ok tt) ->
  ELF.Sections (w_elf w') = ELF.Sections (w_elf w).
Proof.
  intros Hall. unfold read_section_names. munfold.
  destruct (_ <? _); [|by intros [= <-]].
  destruct (ELF.Sections (w_elf w) !! _) as [st|]; [|done].
  destruct (_ && _); [|by intros [= <-]].
  destruct (limit_100MB <? Section.Size st) eqn:Hsz; [done|].
  apply Z.ltb_ge in Hsz.
  match goal with |- context [seek ?o ?m ?w] =>
    destruct (seek_cases o m w) as [[_ ->]|[_ [e ->]]]
  end; [|done].
  unfold alloc at 1. cbn [w_r w_elf w_allocs].
  match goal with |- context [read ?n ?w1] =>
    destruct (read n w1) as [w2 [[buf eof]|e|e]] eqn:Hread; [|done..]
  end.
  apply read_length in Hread as (Hbuf & He & Ha). cbn [w_elf] in He.
  rewrite !modify_elf_ok. cbn [w_elf w_r w_allocs ELF.with_StringTable
                                 ELF.StringTable ELF.Sections].
  rewrite He, update_names_unchanged; [|done|].
  - intros [= <-]. simpl. by destruct (w_elf w).
  - rewrite Hbuf. unfold limit_100MB in *. lia.
Qed.

End parseSections_names.

(** X2. When [parseSections] succeeds on a header with a section table, the
    model holds exactly [ShNum] sections, at most 10,000 and not 0, and every
    one of them still carries the placeholder name [section_<index>]: the
    offset that is looked up in the string table is decoded from the
    letters of the placeholder and lies beyond every table of at most
    100 MB, so no name is ever read from the string table. *)
Theorem parseSections_keeps_placeholder_names
    (endian : Elf.ByteOrder) (w w' : Elf.World) :
  Elf.parseSections endian w = (w', Ok tt) ->
  ELFHeader.ShOff64 (ELF.Header (Elf.w_elf w)) ≠ 0 ->
  ELFHeader.ShNum (ELF.Header (Elf.w_elf w)) ≠ 0
  /\ ELFHeader.ShNum (ELF.Header (Elf.w_elf w)) <= Elf.limit_sections
  /\ length (ELF.Sections (Elf.w_elf w'))
     = Z.to_nat (ELFHeader.ShNum (ELF.Header (Elf.w_elf w)))
  /\ forall j s,
       ELF.Sections (Elf.w_elf w') !! j = Some s ->
       Section.Name s = "section_" +:+ fmt_d (Z.of_nat j).
Proof.
  intros Hrun Hoff. revert Hrun. unfold Elf.parseSections. munfold.
  destruct (_ =? 0) eqn:E; [apply Z.eqb_eq in E; done|].
  match goal with |- context [Elf.seek ?o ?m ?w] =>
    destruct (seek_cases o m w) as [[_ ->]|[_ [e ->]]]
  end; [|done].
  cbn [Elf.w_elf].
  set (num := ELFHeader.ShNum (ELF.Header (Elf.w_elf w))).
  destruct (num =? 0) eqn:E0; [done|]. apply Z.eqb_neq in E0.
  destruct (Elf.limit_sections <? num) eqn:E1; [done|]. apply Z.ltb_ge in E1.
  change (false || false) with false. cbv beta iota.
  unfold Elf.alloc, Elf.modify_elf. cbv beta iota.
  cbn [Elf.w_elf Elf.w_r Elf.w_allocs].
  match goal with |- context [Elf.read_section_headers ?e ?n ?i ?w1] =>
    destruct (Elf.read_section_headers e n i w1) as [w2 [[]|e2|e2]] eqn:Hloop;
      [|done..]
  end.
  apply read_section_headers_names in Hloop as (Hlen & Hhdr & _ & _ & Hnames);
    [|done].
  cbn [Elf.w_elf ELF.with_Sections ELF.Sections ELF.Header] in Hlen, Hhdr, Hnames.
  rewrite length_replicate in Hlen.
  intros Hrun.
  assert (forall j s, ELF.Sections (Elf.w_elf w2) !! j = Some s ->
            Section.Name s = "section_" +:+ fmt_d (Z.of_nat j)) as Hall.
  { intros j s Hs. apply (Hnames j s); [|done].
    apply lookup_lt_Some in Hs. change (Z.to_nat 0) with 0%nat.
    rewrite Hlen in Hs. revert Hs. generalize (Z.to_nat num). intros; lia. }
  apply read_section_names_keeps in Hrun as ->.
  - split_and!; done.
  - apply Forall_forall. intros s [j Hj]%list_elem_of_lookup.
    rewrite (Hall j s Hj). by eexists.
Qed.

Lemma parseSections_keeps_placeholder_names_witness :
  exists w',
    Elf.parseSections Elf.LittleEndian Inputs.two_sections = (w', Ok tt)
    /\ length (ELF.Sections (Elf.w_elf w')) = 2%nat
    /\ Section.Name <$> ELF.Sections (Elf.w_elf w') = ["section_0"; "section_1"]
    /\ ELF.StringTable (Elf.w_elf w') = byte_of_Z <$> [0; 46; 116; 101; 120; 116; 0].
Proof.
  destruct (Elf.parseSections Elf.LittleEndian Inputs.two_sections)
    as [w' res] eqn:Hrun.
  assert (res = Ok tt) as -> by (by vm_compute in Hrun; injection Hrun as _ <-).
  exists w'.
  destruct (parseSections_keeps_placeholder_names _ _ _ Hrun)
    as (_ & _ & Hlen & _); [by vm_compute|].
  split_and!; [done|done| |].
  - by vm_compute in Hrun; injection Hrun as <-.
  - by vm_compute in Hrun; injection Hrun as <-.
Defined.

Section parseSymbols_truncated.
Import Elf.

Lemma read_at_eof n w :
  avail (w_r w) = [] -> read n w = (w, Ok (make_bytes n, true)).
Proof. intros H. unfold read, Read. rewrite H. by destruct w. Qed.

Lemma read_symbols_at_eof endian strtab n i w :
  avail (w_r w) = [] -> read_symbols endian strtab n i w = (w, Ok tt).
Proof.
  intros H. destruct n as [|n]; [done|]. simpl. munfold.
  case_decide; by rewrite read_at_eof.
Qed.

End parseSymbols_truncated.

(** X3. A symbol table that lies at or beyond the end of the input is not
    an error: without a linked string table, [parseSymbols] returns nil
    and [elf.Symbols] holds the declared number of entries
    ([Size / EntSize], at most 100,000), all of them zero-valued. *)
Theorem parseSymbols_beyond_end_of_input
    (endian : Elf.ByteOrder) (w : Elf.World) (st : Section.t) :
  Elf.find_symtab (ELF.Sections (Elf.w_elf w)) = Some st ->
  Elf.find_strtab st (ELF.Sections (Elf.w_elf w)) = None ->
  Section.Size st ≠ 0 ->
  Section.EntSize st ≠ 0 ->
  Section.Size st <= Elf.limit_100MB ->
  Z.of_nat (length (Elf.r_s (Elf.w_r w))) <= int64_of_uint64 (Section.Offset st) ->
  exists w',
    Elf.parseSymbols endian w = (w', Ok tt)
    /\ ELF.Symbols (Elf.w_elf w')
       = replicate (Z.to_nat (Elf.numSymbols_of st)) Symbol.zero
    /\ Elf.w_allocs w' = Elf.w_allocs w ++ [Elf.MakeSymbols (Elf.numSymbols_of st)].
Proof.
  intros Hst Hstr Hsz Hent Hle Heof. unfold Elf.parseSymbols. munfold.
  rewrite Hst, Hstr.
  apply Z.eqb_neq in Hsz, Hent. rewrite Hsz, Hent.
  change (false || false) with false. cbv iota.
  destruct (Elf.limit_100MB <? Section.Size st) eqn:E; [apply Z.ltb_lt in E; lia|].
  rewrite seek_nonneg by lia.
  unfold Elf.alloc, Elf.modify_elf, Elf.read_strtab. munfold. cbv beta iota.
  cbn [Elf.w_r Elf.w_elf Elf.w_allocs].
  rewrite read_symbols_at_eof.
  - eexists. split_and!; [done| |]; done.
  - cbn [Elf.w_r]. unfold Elf.avail. cbn [Elf.r_i Elf.r_s].
    destruct (int64_of_uint64 (Section.Offset st)
              <? Z.of_nat (length (Elf.r_s (Elf.w_r w)))) eqn:E2; [|done].
    apply Z.ltb_lt in E2. lia.
Qed.

Lemma parseSymbols_beyond_end_of_input_witness :
  exists w',
    Elf.parseSymbols Elf.LittleEndian Inputs.truncated_symtab = (w', Ok tt)
    /\ ELF.Symbols (Elf.w_elf w') = [Symbol.zero; Symbol.zero].
Proof.
  destruct (parseSymbols_beyond_end_of_input Elf.LittleEndian
              Inputs.truncated_symtab
              (Section.mk "section_0" 2 0 0 64 48 0 0 0 24 []))
    as (w' & Hrun & Hsyms & _);
    [solve [reflexivity | vm_compute; congruence
           | vm_compute; intros H; discriminate H]..|].
  exists w'. split; [done|]. rewrite Hsyms. by vm_compute.
Defined.

(** * More on the symbol lister *)
Section lister_format.
Import Nm.

Lemma length_string_app a b :
  String.length (a +:+ b) = (String.length a + String.length b)%nat.
Proof. induction a as [|c a IH]; simpl; [done|]. by rewrite IH. Qed.

Lemma length_repeat_char c n : String.length (repeat_char c n) = n.
Proof. induction n as [|n IH]; simpl; [done|]. by rewrite IH. Qed.

(** A number below [base ^ k] is written with at least one and at most
    [k] digits. *)
Lemma fmt_digits_length base k : forall fuel u acc,
  1 < base -> (0 < k <= fuel)%nat -> 0 <= u < base ^ Z.of_nat k ->
  (String.length acc < String.length (fmt_digits base fuel u acc)
   <= k + String.length acc)%nat.
Proof.
  induction k as [|k IH]; intros fuel u acc Hb Hk Hu; [lia|].
  destruct fuel as [|fuel]; [lia|]. simpl fmt_digits.
  destruct (u <? base) eqn:E; [simpl; lia|].
  apply Z.ltb_ge in E.
  assert (0 < k)%nat as Hk0.
  { destruct k; [|lia]. change (base ^ Z.of_nat 1) with (base ^ 1) in Hu. lia. }
  destruct (IH fuel (u / base) (String (digit_char (u mod base)) acc)) as [H1 H2].
  - done.
  - lia.
  - split; [apply Z.div_pos; lia|].
    apply Z.div_lt_upper_bound; [lia|].
    rewrite Nat2Z.inj_succ, Z.pow_succ_r in Hu; lia.
  - simpl String.length in *. lia.
Qed.

Lemma length_fmt_0x width n :
  0 <= n < 16 ^ Z.of_nat width -> (0 < width <= 16)%nat ->
  String.length (fmt_0x width n) = width.
Proof.
  intros Hn Hw. unfold fmt_0x, fmt_x.
  destruct (fmt_digits_length 16 width 16 n "") as [_ Hlen]; [lia..|].
  simpl String.length in Hlen at 2.
  rewrite length_string_app, length_repeat_char. lia.
Qed.

Lemma type_char_cases ty :
  type_char ty ∈ ["U"; "D"; "T"; "S"; "A"; "?"]%char.
Proof. unfold type_char. repeat case_decide; set_solver. Qed.

End lister_format.

(** X4. The letter printed for a symbol is the upper-case letter of its
    type (or [?]) unless the binding is weak: a global and a local symbol
    print the same letter; a weak symbol prints [w] when its type is
    [STT_NOTYPE] and the lower-case letter otherwise. *)
Theorem binding_only_marks_weak (ty binding : string) :
  (binding ≠ "STB_WEAK" ->
   Nm.binding_char binding (Nm.type_char ty) = Nm.type_char ty)
  /\ Nm.binding_char "STB_WEAK" (Nm.type_char ty)
     = (if decide (ty = "STT_NOTYPE") then "w"%char
        else Nm.toLower (Nm.type_char ty))
  /\ Nm.type_char ty ∈ ["U"; "D"; "T"; "S"; "A"; "?"]%char.
Proof.
  split_and!.
  - intros Hb. unfold Nm.binding_char.
    rewrite (decide_False (P := binding = "STB_WEAK")) by done.
    case_decide; [|done].
    pose proof (type_char_cases ty) as Hc.
    rewrite !elem_of_cons, elem_of_nil in Hc.
    destruct Hc as [->|[->|[->|[->|[->|[->|[]]]]]]]; reflexivity.
  - unfold Nm.binding_char. simpl. unfold Nm.type_char.
    repeat case_decide; subst; try done.
  - apply type_char_cases.
Qed.

Lemma binding_only_marks_weak_witness :
  Nm.binding_char "STB_LOCAL" (Nm.type_char "STT_FUNC") = "T"%char
  /\ Nm.binding_char "STB_GLOBAL" (Nm.type_char "STT_FUNC") = "T"%char.
Proof.
  destruct (binding_only_marks_weak "STT_FUNC" "STB_LOCAL") as [H1 _].
  destruct (binding_only_marks_weak "STT_FUNC" "STB_GLOBAL") as [H2 _].
  split; [by rewrite H1|by rewrite H2].
Defined.

(** X5. The width of a printed line: with a blank address field it is
    20 characters plus the name whatever the class; otherwise it is 20
    plus the name for ELF64 (16 hexadecimal digits) and 12 plus the name
    for any other class (8 digits of the value truncated to 32 bits). *)
Theorem symbol_line_width (class : string) (sym : Symbol.t) :
  0 <= Symbol.Value sym < 2 ^ 64 ->
  String.length (Nm.symbol_line class sym)
  = ((if (Symbol.Value sym =? 0)%Z && bool_decide (Symbol.Type_ sym = "STT_NOTYPE")
      then 20
      else if decide (class = "ELF64") then 20 else 12)
     + String.length (Symbol.Name sym))%nat.
Proof.
  intros Hv. unfold Nm.symbol_line.
  assert (forall c, String.length (String c (" " +:+ Symbol.Name sym +:+ Nm.newline))
                    = (3 + String.length (Symbol.Name sym))%nat) as Htail.
  { intros c. simpl. rewrite ?length_string_app. simpl. rewrite ?length_string_app. simpl. lia. }
  destruct (_ && _).
  - rewrite length_string_app, Htail. simpl. lia.
  - case_decide.
    + rewrite !length_string_app, Htail, length_fmt_0x.
      * simpl. lia.
      * change (16 ^ Z.of_nat 16) with (2 ^ 64). lia.
      * lia.
    + rewrite !length_string_app, Htail, length_fmt_0x.
      * simpl. lia.
      * unfold wrap32. change (16 ^ Z.of_nat 8) with (2 ^ 32).
        apply Z.mod_pos_bound. lia.
      * lia.
Qed.

Lemma symbol_line_width_witness :
  String.length (Nm.symbol_line "ELF64" Inputs.sym10) = 21%nat
  /\ String.length (Nm.symbol_line "ELF32" Inputs.sym10) = 13%nat
  /\ String.length (Nm.symbol_line "ELF32" Inputs.undef0) = 24%nat.
Proof.
  split_and!.
  - rewrite (symbol_line_width "ELF64" Inputs.sym10); by vm_compute.
  - rewrite (symbol_line_width "ELF32" Inputs.sym10); by vm_compute.
  - rewrite (symbol_line_width "ELF32" Inputs.undef0); by vm_compute.
Defined.

(** * The linker: entry point, header and output file *)

(** X6. [findEntryPoint] returns the entry of the first object whose entry
    is not zero; it returns zero exactly when every object has entry
    zero. *)
Theorem findEntryPoint_first_nonzero (objects : list ELF.t) :
  (Ld.findEntryPoint objects = 0 <-> Forall (fun o => ELF.Entry o = 0) objects)
  /\ exists pre,
       Forall (fun o => ELF.Entry o = 0) pre
       /\ ((objects = pre /\ Ld.findEntryPoint objects = 0)
           \/ exists obj post,
                objects = pre ++ obj :: post
                /\ ELF.Entry obj <> 0
                /\ Ld.findEntryPoint objects = ELF.Entry obj).
Proof.
  induction objects as [|o objects [IH1 (pre & Hpre & IH2)]]; simpl.
  - split; [done|]. exists []. split; [constructor|]. by left.
  - destruct (ELF.Entry o =? 0) eqn:E.
    + apply Z.eqb_eq in E. split.
      * rewrite IH1. split; [by constructor|by inversion 1].
      * exists (o :: pre). split; [by constructor|].
        destruct IH2 as [[-> H0]|(obj & post & -> & Hobj & Hres)]; [by left|].
        right. by exists obj, post.
    + apply Z.eqb_neq in E. split.
      * split; [done|]. by inversion 1.
      * exists []. split; [constructor|]. right. by exists o, objects.
Qed.

Section bytes_of_integers.
Import Elf Link.

Lemma u8_byte_of_Z z : u8 (byte_of_Z z) = z mod 256.
Proof.
  unfold u8, byte_of_Z.
  assert (0 <= z mod 256 < 256) as Hz by (apply Z.mod_pos_bound; lia).
  rewrite N_ascii_embedding by lia. lia.
Qed.

Lemma lor_shiftl_add a b k :
  0 <= k -> 0 <= a < 2 ^ k -> Z.lor a (Z.shiftl b k) = a + b * 2 ^ k.
Proof.
  intros Hk Ha. rewrite Z.shiftl_mul_pow2 by done.
  assert (Z.land a (b * 2 ^ k) = 0) as Hdisjoint.
  { apply Z.bits_inj'. intros n Hn.
    rewrite Z.land_spec, Z.bits_0.
    destruct (decide (n < k)).
    - rewrite Z.mul_pow2_bits_low by lia. apply andb_false_r.
    - destruct (decide (a = 0)) as [->|]; [by rewrite Z.bits_0|].
      rewrite (Z.bits_above_log2 a n); [done|lia|].
      apply Z.log2_lt_pow2; [lia|].
      apply Z.lt_le_trans with (2 ^ k); [lia|].
      apply Z.pow_le_mono_r; lia. }
  rewrite <- (Z.lxor_lor _ _ Hdisjoint). symmetry.
  by apply Z.add_nocarry_lxor.
Qed.

(** One more byte of [v], stored at bit [k] *)
Lemma lor_next_byte v k :
  0 <= k ->
  Z.lor (v mod 2 ^ k) (Z.shiftl (u8 (byte_of_Z (Z.shiftr v k))) k)
  = v mod 2 ^ (k + 8).
Proof.
  intros Hk. rewrite u8_byte_of_Z, Z.shiftr_div_pow2 by done.
  assert (0 < 2 ^ k) by (apply Z.pow_pos_nonneg; lia).
  rewrite lor_shiftl_add by (try apply Z.mod_pos_bound; lia).
  rewrite Z.pow_add_r by lia.
  change (2 ^ 8) with 256.
  rewrite (Z.rem_mul_r v (2 ^ k) 256) by lia. lia.
Qed.

Lemma Uint16_PutUint16 v : Uint16 LittleEndian (PutUint16 v) = v mod 2 ^ 16.
Proof.
  unfold Uint16, PutUint16, at_. cbn [nth].
  rewrite (u8_byte_of_Z v). change 256 with (2 ^ 8).
  by rewrite (lor_next_byte v 8).
Qed.

Lemma Uint64_PutUint64 v : Uint64 LittleEndian (PutUint64 v) = v mod 2 ^ 64.
Proof.
  unfold Uint64, PutUint64, at_. cbn [nth].
  rewrite (u8_byte_of_Z v). change 256 with (2 ^ 8).
  rewrite (lor_next_byte v 8) by done. change (8 + 8) with 16.
  rewrite (lor_next_byte v 16) by done. change (16 + 8) with 24.
  rewrite (lor_next_byte v 24) by done. change (24 + 8) with 32.
  rewrite (lor_next_byte v 32) by done. change (32 + 8) with 40.
  rewrite (lor_next_byte v 40) by done. change (40 + 8) with 48.
  rewrite (lor_next_byte v 48) by done. change (48 + 8) with 56.
  by rewrite (lor_next_byte v 56).
Qed.

(** The header as one list: the identification, eight zero bytes, and
    the fields in file order. *)
Lemma createELFHeader_bytes elfFile :
  createELFHeader elfFile
  = [byte_of_Z 0x7f; "E"; "L"; "F"; byte_of_Z 2; byte_of_Z 1; byte_of_Z 1;
     byte_of_Z 0]%char
    ++ make_bytes 8
    ++ PutUint16 2 ++ PutUint16 0x3e ++ PutUint32 1
    ++ PutUint64 (ELF.Entry elfFile)
    ++ PutUint64 64
    ++ PutUint64 (wrap64 (64 + wrap64 (Z.of_nat (length (ELF.Sections elfFile))) * 64))
    ++ PutUint32 0 ++ PutUint16 64 ++ PutUint16 56 ++ PutUint16 1
    ++ PutUint16 64
    ++ PutUint16 (wrap16 (Z.of_nat (length (ELF.Sections elfFile))))
    ++ PutUint16 0.
Proof. reflexivity. Qed.

End bytes_of_integers.

Section os_answers.

Lemma accepts_all_next os :
  Os.accepts_all os ->
  exists os', Os.next os = (Os.accept, os') /\ Os.accepts_all os'.
Proof.
  destruct os as [|a os]; intros Hos.
  - by exists [].
  - apply Forall_cons in Hos as [-> Hos]. by exists os.
Qed.

Lemma Create_accepted os (fs : Fs.t) name :
  Os.accepts_all os ->
  exists os',
    Os.Create os fs name = (os', <[name := []]> fs, Ok tt)
    /\ Os.accepts_all os'.
Proof.
  intros (os' & Hnext & Hos')%accepts_all_next. exists os'.
  unfold Os.Create. by rewrite Hnext.
Qed.

Lemma WriteTo_accepted os (fs : Fs.t) name content p :
  Os.accepts_all os ->
  exists os',
    Os.WriteTo os (<[name := content]> fs) name p
    = (os', <[name := content ++ p]> fs, Ok tt)
    /\ Os.accepts_all os'.
Proof.
  intros (os' & Hnext & Hos')%accepts_all_next. exists os'.
  unfold Os.WriteTo, Fs.Append, Fs.t in *.
  by rewrite Hnext, alter_insert_eq.
Qed.

(** A call to [Write] on a file that exists appends all of [p] and
    returns nil, or appends a part of it and returns an error. *)
Lemma WriteTo_cases os (fs : Fs.t) name content p :
  exists os',
    Os.WriteTo os (<[name := content]> fs) name p
    = (os', <[name := content ++ p]> fs, Ok tt)
    \/ exists n msg,
         Os.WriteTo os (<[name := content]> fs) name p
         = (os', <[name := content ++ take n p]> fs, Err msg).
Proof.
  unfold Os.WriteTo, Fs.Append, Fs.t in *.
  destruct (Os.next os) as [[|n msg] os']; exists os';
    rewrite alter_insert_eq; eauto.
Qed.

Lemma Create_cases os (fs : Fs.t) name :
  exists os',
    Os.Create os fs name = (os', <[name := []]> fs, Ok tt)
    \/ exists msg, Os.Create os fs name = (os', fs, Err msg).
Proof.
  unfold Os.Create. destruct (Os.next os) as [[|n msg] os']; exists os'; eauto.
Qed.

(** [os.WriteFile] returns nil with the file holding [data], or an error
    with the files as before or the file holding a part of [data]. *)
Lemma WriteFile_cases os (fs : Fs.t) name data :
  exists os' fs' res,
    Os.WriteFile os fs name data = (os', fs', res)
    /\ ((res = Ok tt /\ fs' = <[name := data]> fs)
        \/ exists msg,
             res = Err msg
             /\ (fs' = fs \/ exists n, fs' = <[name := take n data]> fs)).
Proof.
  unfold Os.WriteFile.
  destruct (Create_cases os fs name) as [os1 [->|[msg ->]]].
  2:{ eexists _, _, _. split; [done|]. right. exists msg. auto. }
  destruct (WriteTo_cases os1 fs name [] data) as [os2 [->|(n & msg & ->)]];
    cbn [app].
  - unfold Os.Close. destruct (Os.next os2) as [[|k msg] os3].
    + eexists _, _, _. split; [done|]. by left.
    + eexists _, _, _. split; [done|]. right. exists msg. split; [done|].
      right. exists (length data). by rewrite firstn_all.
  - destruct (Os.Close os2) as [os3 err1].
    eexists _, _, _. split; [done|]. right. exists msg. split; [done|].
    right. by exists n.
Qed.

Lemma WriteFile_accepted os (fs : Fs.t) name data :
  Os.accepts_all os ->
  exists os',
    Os.WriteFile os fs name data = (os', <[name := data]> fs, Ok tt)
    /\ Os.accepts_all os'.
Proof.
  intros Hos. unfold Os.WriteFile.
  destruct (Create_accepted os fs name Hos) as (os1 & -> & Hos1).
  destruct (WriteTo_accepted os1 fs name [] data Hos1) as (os2 & -> & Hos2).
  destruct (accepts_all_next os2 Hos2) as (os3 & Hnext & Hos3).
  unfold Os.Close. rewrite Hnext. by exists os3.
Qed.

End os_answers.

Section linker_output.
Import Elf Link.

Lemma write_sections_spec filename rest : forall pre os (fs : Fs.t) content,
  Os.accepts_all os ->
  Forall (fun s => Z.of_nat (length (Section.Data s)) <= limit_100MB) pre ->
  match rest with
  | [] => True
  | s :: _ => limit_100MB < Z.of_nat (length (Section.Data s))
  end ->
  write_sections os (<[filename := content]> fs) filename (pre ++ rest)
  = (<[filename := content ++ concat (Section.Data <$> pre)]> fs,
     match rest with
     | [] => Ok tt
     | s :: _ => Err ("section too large: " +:+ Section.Name s)
     end).
Proof.
  induction pre as [|s pre IH]; intros os fs content Hos Hpre Hrest.
  - rewrite app_nil_r. destruct rest as [|s rest]; [done|]. simpl.
    rewrite decide_True by (unfold limit_100MB in Hrest; lia).
    by rewrite (proj2 (Z.ltb_lt _ _) Hrest).
  - inversion Hpre as [|? ? Hs Hpre']; subst. cbn [app write_sections].
    rewrite (proj2 (Z.ltb_ge _ _) Hs).
    case_decide as Hlen.
    + destruct (WriteTo_accepted os fs filename content (Section.Data s) Hos)
        as (os' & -> & Hos').
      rewrite IH by done. by rewrite <- app_assoc.
    + destruct (Section.Data s) eqn:E; [|simpl in Hlen; lia].
      cbn [fmap list_fmap concat app]. rewrite E. by apply IH.
Qed.

(** When the loop over the sections returns nil, it has appended to the
    file. *)
Lemma write_sections_ok filename : forall sections os (fs fs' : Fs.t) content,
  write_sections os (<[filename := content]> fs) filename sections
  = (fs', Ok tt) ->
  exists tail, fs' = <[filename := content ++ tail]> fs.
Proof.
  induction sections as [|s sections IH]; intros os fs fs' content;
    cbn [write_sections].
  - intros [= <-]. exists []. by rewrite app_nil_r.
  - case_decide; [|apply IH].
    destruct (_ <? _); [done|].
    destruct (WriteTo_cases os fs filename content (Section.Data s))
      as [os' [->|(n & msg & ->)]]; [|done].
    intros (tail & ->)%IH. exists (Section.Data s ++ tail).
    by rewrite app_assoc.
Qed.

Lemma load_fails fs filename : is_Err (load fs filename).
Proof.
  unfold load, Fs.Open. destruct (fs !! filename) as [file|]; [|done].
  unfold ParseELF. by destruct (ParseELF_body_error file) as [w' ->].
Qed.

End linker_output.

(** X7. The header [createELFHeader] builds has 64 bytes and reads back
    as: the ELF magic, class 2 and data encoding 1, type 2 and machine
    0x3e, the entry of the image, a section-header offset of 64 plus 64
    per section, and a section count taken modulo 65536. *)
Theorem createELFHeader_reads_back (elfFile : ELF.t) :
  0 <= ELF.Entry elfFile < 2 ^ 64 ->
  let header := Link.createELFHeader elfFile in
  let n := Z.of_nat (length (ELF.Sections elfFile)) in
  length header = 64%nat
  /\ Elf.magic_ok (take 4 header) = true
  /\ Elf.at_ header 4 = 2 /\ Elf.at_ header 5 = 1
  /\ Elf.Uint16 Elf.LittleEndian (Elf.slice 16 18 header) = 2
  /\ Elf.Uint16 Elf.LittleEndian (Elf.slice 18 20 header) = 0x3e
  /\ Elf.Uint64 Elf.LittleEndian (Elf.slice 24 32 header) = ELF.Entry elfFile
  /\ Elf.Uint64 Elf.LittleEndian (Elf.slice 40 48 header) = (64 + 64 * n) mod 2 ^ 64
  /\ Elf.Uint16 Elf.LittleEndian (Elf.slice 60 62 header) = n mod 2 ^ 16.
Proof.
  intros Hentry header n. subst header.
  rewrite createELFHeader_bytes. fold n.
  split_and!; try reflexivity.
  - change (Elf.slice 24 32 _) with (Link.PutUint64 (ELF.Entry elfFile)).
    rewrite Uint64_PutUint64. by apply Z.mod_small.
  - change (Elf.slice 40 48 _) with (Link.PutUint64 (wrap64 (64 + wrap64 n * 64))).
    rewrite Uint64_PutUint64. unfold wrap64.
    rewrite Z.mod_mod by lia.
    rewrite Z.add_mod, Z.mul_mod_idemp_l, <- Z.add_mod by lia.
    f_equal. lia.
  - change (Elf.slice 60 62 _) with (Link.PutUint16 (wrap16 n)).
    rewrite Uint16_PutUint16. unfold wrap16. by rewrite Z.mod_mod.
Qed.

Lemma createELFHeader_reads_back_witness :
  Elf.Uint64 Elf.LittleEndian (Elf.slice 24 32 (Link.createELFHeader Inputs.linked))
  = 0x401000.
Proof.
  assert (0 <= ELF.Entry Inputs.linked < 2 ^ 64) as H by (by vm_compute).
  exact (proj1 (proj2 (proj2 (proj2 (proj2 (proj2 (proj2
    (createELFHeader_reads_back Inputs.linked H)))))))).
Defined.

(** X8. When the operating system accepts every call, [writeLinkedELF]
    leaves in the output file the 64 header bytes followed by the data of
    the sections in order, up to the first section of more than 100 MB;
    such a section makes it return an error and the file keeps what was
    written before it. When [os.Create] is refused, its error is
    returned and no file changes. *)
Theorem writeLinkedELF_output (fs : Fs.t) (filename : string) (elfFile : ELF.t) :
  (forall os pre rest,
     Os.accepts_all os ->
     ELF.Sections elfFile = pre ++ rest ->
     Forall (fun s => Z.of_nat (length (Section.Data s)) <= Elf.limit_100MB) pre ->
     match rest with
     | [] => True
     | s :: _ => Elf.limit_100MB < Z.of_nat (length (Section.Data s))
     end ->
     Link.writeLinkedELF os fs filename elfFile
     = (<[filename := Link.createELFHeader elfFile
                      ++ concat (Section.Data <$> pre)]> fs,
        match rest with
        | [] => Ok tt
        | s :: _ => Err ("section too large: " +:+ Section.Name s)
        end))
  /\ forall written msg os,
       Link.writeLinkedELF (Os.refuse written msg :: os) fs filename elfFile
       = (fs, Err msg).
Proof.
  split; [|done].
  intros os pre rest Hos Hsecs Hpre Hrest. unfold Link.writeLinkedELF.
  destruct (Create_accepted os fs filename Hos) as (os1 & -> & Hos1).
  destruct (WriteTo_accepted os1 fs filename [] (Link.createELFHeader elfFile) Hos1)
    as (os2 & -> & Hos2).
  cbn [app]. rewrite Hsecs. by apply write_sections_spec.
Qed.

Lemma writeLinkedELF_output_witness :
  Link.writeLinkedELF [] Inputs.disk "a.out" Inputs.linked
  = (<["a.out" := Link.createELFHeader Inputs.linked
                  ++ replicate 10 (byte_of_Z 0x90) ++ (byte_of_Z <$> [1; 2])]>
       Inputs.disk,
     Ok tt).
Proof.
  rewrite (proj1 (writeLinkedELF_output Inputs.disk "a.out" Inputs.linked)
             [] [Inputs.text_a; Inputs.data_a] []).
  - reflexivity.
  - constructor.
  - reflexivity.
  - repeat constructor; by vm_compute.
  - exact I.
Defined.

(** X9. Whenever [writeLinkedELF] returns nil, the output file starts
    with the header, and [ParseELF] rejects it for its data encoding. *)
Theorem ParseELF_rejects_linked_output (os : Os.t) (fs : Fs.t)
    (filename : string) (elfFile : ELF.t) :
  (Link.writeLinkedELF os fs filename elfFile).2 = Ok tt ->
  exists data,
    Fs.Open (Link.writeLinkedELF os fs filename elfFile).1 filename = Ok data
    /\ take 64 data = Link.createELFHeader elfFile
    /\ Elf.ParseELF (Elf.NewReader data) = Err "invalid data encoding: 0".
Proof.
  unfold Link.writeLinkedELF.
  destruct (Create_cases os fs filename) as [os1 [->|[msg ->]]]; [|done].
  destruct (WriteTo_cases os1 fs filename [] (Link.createELFHeader elfFile))
    as [os2 [->|(n & msg & ->)]]; [|done].
  cbn [app].
  destruct (Link.write_sections os2 _ filename (ELF.Sections elfFile))
    as [fs' r] eqn:Hrun.
  cbn [fst snd]. intros ->.
  apply write_sections_ok in Hrun as [tail ->].
  exists (Link.createELFHeader elfFile ++ tail).
  unfold Fs.Open, Fs.t. rewrite lookup_insert_eq. split_and!; [done| |].
  - by rewrite take_app_length' by reflexivity.
  - unfold Elf.ParseELF.
    destruct (ParseELF_body_error (Link.createELFHeader elfFile ++ tail))
      as [w' ->].
    rewrite createELFHeader_bytes. reflexivity.
Qed.

Lemma ParseELF_rejects_linked_output_witness :
  exists data,
    Fs.Open (Link.writeLinkedELF [] Inputs.disk "a.out" Inputs.linked).1 "a.out"
    = Ok data
    /\ Elf.ParseELF (Elf.NewReader data) = Err "invalid data encoding: 0".
Proof.
  destruct (ParseELF_rejects_linked_output [] Inputs.disk "a.out" Inputs.linked)
    as (data & Hopen & _ & Hparse).
  - by vm_compute.
  - by exists data.
Defined.

(** X10. [linkFiles] always has a result, never a success, and it leaves
    every file as it was: more than 1000 inputs are refused, an empty
    list of inputs ends in an index panic, and otherwise the first input
    fails to open or to parse and its error is returned. *)
Theorem linkFiles_writes_nothing (fs : Fs.t) (inputFiles : list string)
    (outputFile : string) :
  (exists res, Link.linkFiles fs inputFiles outputFile res)
  /\ (forall filename, is_Err (Link.load fs filename))
  /\ forall res,
       Link.linkFiles fs inputFiles outputFile res ->
       res.1 = fs
       /\ res.2 = (if decide (1000 < length inputFiles)%nat
                   then Err "too many input files"
                   else match inputFiles with
                        | [] => Panic "index out of range"
                        | filename :: _ =>
                            match Link.load fs filename with
                            | Ok _ => Ok tt
                            | Err e => Err e
                            | Panic e => Panic e
                            end
                        end).
Proof.
  assert (forall acc,
    Link.load_all fs inputFiles acc
    = match inputFiles with
      | [] => Ok acc
      | filename :: _ =>
          match Link.load fs filename with
          | Ok _ => Ok acc
          | Err e => Err e
          | Panic e => Panic e
          end
      end) as Hload.
  { intros acc. destruct inputFiles as [|filename rest]; [done|]. simpl.
    pose proof (load_fails fs filename) as Hf.
    by destruct (Link.load fs filename). }
  split_and!.
  - destruct (decide (1000 < length inputFiles)%nat) as [Hn|Hn].
    + eexists. by apply Link.link_too_many.
    + destruct inputFiles as [|filename rest].
      * eexists. apply (Link.link_no_object fs [] outputFile
                          (Link.mkInputs [] [] []) [] []); try done.
        -- simpl. lia.
        -- exists []. split; [|done]. unfold Ld.range_order.
           change (map_to_list _) with (map_to_list (∅ : gmap string Symbol.t)).
           by rewrite map_to_list_empty.
        -- exists []. split; [|constructor]. unfold Ld.range_order.
           change (map_to_list _) with (map_to_list (∅ : gmap string nat)).
           by rewrite map_to_list_empty.
      * pose proof (load_fails fs filename) as Hf.
        destruct (Link.load fs filename) as [?|e|?] eqn:E; try done.
        eexists. apply (Link.link_input_error _ _ _ e); [lia|].
        by rewrite Hload.
  - apply load_fails.
  - intros res Hres.
    destruct Hres as [Hn|e Hn He|e Hn He|acc rs ms Hn Hacc _ _ Hobj
                      |os acc rs ms first others Hn Hacc _ _ Hobj];
      rewrite ?Hload in *.
    + by rewrite decide_True.
    + rewrite decide_False by lia. split; [done|].
      destruct inputFiles as [|filename rest]; [done|].
      destruct (Link.load fs filename); simpl in *; congruence.
    + rewrite decide_False by lia. split; [done|].
      destruct inputFiles as [|filename rest]; [done|].
      destruct (Link.load fs filename); simpl in *; congruence.
    + rewrite decide_False by lia. split; [done|].
      destruct inputFiles as [|filename rest]; [done|].
      pose proof (load_fails fs filename) as Hf.
      destruct (Link.load fs filename); simpl in *; try done; congruence.
    + destruct inputFiles as [|filename rest].
      * injection Hacc as <-. done.
      * pose proof (load_fails fs filename) as Hf.
        destruct (Link.load fs filename); simpl in *; try done; congruence.
Qed.

Lemma linkFiles_writes_nothing_witness :
  Link.linkFiles Inputs.disk ["a.o"] "a.out"
    (Inputs.disk, Err "failed to parse a.o: invalid data encoding: 0")
  /\ (Inputs.disk, @Err unit "failed to parse a.o: invalid data encoding: 0").1
     = Inputs.disk.
Proof.
  assert (Link.linkFiles Inputs.disk ["a.o"] "a.out"
            (Inputs.disk, Err "failed to parse a.o: invalid data encoding: 0"))
    as Hrun.
  { apply Link.link_input_error; [simpl; lia|by vm_compute]. }
  split; [exact Hrun|].
  destruct (linkFiles_writes_nothing Inputs.disk ["a.o"] "a.out")
    as (_ & _ & H).
  exact (proj1 (H _ Hrun)).
Defined.

(** * The archive reader and the commands built on it *)
Section archive_reader.
Import Ar.

Lemma drop_blanks_suffix l : exists k, l = k ++ drop_blanks l.
Proof.
  induction l as [|c l [k IH]]; [by exists []|]. simpl.
  destruct (is_blank c).
  - exists (c :: k). simpl. by rewrite <- IH.
  - by exists [].
Qed.

Lemma drop_blanks_head l c r : drop_blanks l = c :: r -> is_blank c = false.
Proof.
  induction l as [|d l IH]; simpl; [done|].
  destruct (is_blank d) eqn:E; [done|]. by intros [= <- _].
Qed.

Lemma drop_blanks_idem l : drop_blanks (drop_blanks l) = drop_blanks l.
Proof.
  destruct (drop_blanks l) as [|c r] eqn:E; [done|].
  simpl. by rewrite (drop_blanks_head _ _ _ E).
Qed.

Lemma length_string_of_bytes b : String.length (string_of_bytes b) = length b.
Proof. by rewrite <- length_bytes_of_string, bytes_of_string_of_bytes. Qed.

(** What [trimSpace] returns has no blank at either end. *)
Lemma trimSpace_no_outer_blanks s : no_outer_blanks (trimSpace s).
Proof.
  unfold no_outer_blanks, trimSpace. rewrite bytes_of_string_of_bytes.
  set (x := drop_blanks (bytes_of_string s)).
  split; [|by rewrite reverse_involutive, drop_blanks_idem].
  destruct (drop_blanks_suffix (reverse x)) as [k Hk].
  apply (f_equal reverse) in Hk.
  rewrite reverse_involutive, reverse_app in Hk.
  destruct (reverse (drop_blanks (reverse x))) as [|c t] eqn:Et; [done|].
  simpl in Hk. simpl.
  by rewrite (drop_blanks_head (bytes_of_string s) c (t ++ reverse k)).
Qed.

Lemma length_trimSpace s : (String.length (trimSpace s) <= String.length s)%nat.
Proof.
  unfold trimSpace.
  rewrite length_string_of_bytes, length_reverse, <- length_bytes_of_string.
  etrans; [apply length_drop_blanks|].
  rewrite length_reverse. apply length_drop_blanks.
Qed.

Lemma read_member_storable file rest m :
  read_member file = Next rest m -> storable m.
Proof.
  unfold read_member. case_decide as Hlen; [done|].
  destruct (_ || _) eqn:Hsize; [done|].
  case_decide as Hdata; [done|]. intros [= _ <-].
  apply orb_false_iff in Hsize as [Hneg Hbig].
  apply Z.ltb_ge in Hneg, Hbig.
  unfold storable. cbn [ArchiveMember.Header ArchiveMember.Data].
  split_and!.
  - unfold parseHeader. cbn [ArchiveHeader.Name].
    etrans; [apply length_trimSpace|].
    unfold field, Elf.slice.
    rewrite length_string_of_bytes, length_take. lia.
  - apply trimSpace_no_outer_blanks.
  - unfold parseHeader in *. cbn [ArchiveHeader.Size] in *.
    rewrite length_take, length_drop in *. lia.
  - done.
Qed.

Lemma read_members_storable fuel : forall file members res,
  Forall storable members ->
  read_members fuel file members = Some (Ok res) ->
  Forall storable res.
Proof.
  induction fuel as [|fuel IH]; intros file members res Hms; [done|].
  rewrite read_members_S.
  destruct (read_member file) as [|msg|rest m] eqn:E.
  - by intros [= <-].
  - done.
  - apply IH. apply Forall_app. split; [done|].
    constructor; [|constructor]. by apply read_member_storable in E.
Qed.

End archive_reader.

(** X11. Every member [readArchive] returns fits the header format: its
    name has at most 16 bytes and no blank at either end, and its
    declared size is the length of its data and at most 100 MB. *)
Theorem readArchive_members_storable (file : list byte)
    (members : list ArchiveMember.t) :
  Ar.readArchive file = Some (Ok members) -> Forall Ar.storable members.
Proof.
  unfold Ar.readArchive. case_decide; [done|]. case_decide; [|done].
  by apply read_members_storable.
Qed.

Lemma readArchive_members_storable_witness :
  Forall Ar.storable
    [ArchiveMember.mk
       (ArchiveHeader.mk "a.o" 1700000000 0 0 644 3 (bytes_of_string ("`" +:+ Nm.newline)))
       (bytes_of_string "hi!")].
Proof.
  apply (readArchive_members_storable
           (Ar.writeArchive_in [("a.o", Inputs.member_hi)])).
  by vm_compute.
Defined.

Section path_checks.
Import ArCmd.

Lemma has_prefix_elem subslice : forall b c,
  has_prefix subslice b = true -> c ∈ subslice -> c ∈ b.
Proof.
  induction subslice as [|p subslice IH]; intros b c Hp Hc.
  - by apply elem_of_nil in Hc.
  - destruct b as [|d b]; [done|]. simpl in Hp.
    apply andb_true_iff in Hp as [Hd Hp]. apply bool_decide_eq_true in Hd.
    subst d. apply elem_of_cons in Hc as [->|Hc]; [left|right; eauto].
Qed.

(** A pattern that occurs brings each of its bytes. *)
Lemma Contains_elem b : forall subslice c,
  Contains b subslice = true -> c ∈ subslice -> c ∈ b.
Proof.
  induction b as [|d b IH]; intros subslice c Hb Hc.
  - simpl in Hb. rewrite orb_false_r in Hb. by apply (has_prefix_elem subslice).
  - simpl in Hb. apply orb_true_iff in Hb as [Hb|Hb].
    + revert Hb Hc. apply has_prefix_elem.
    + right. by apply (IH subslice).
Qed.

Lemma Contains_single b c : Contains b [c] = true <-> c ∈ b.
Proof.
  split; [intros H; apply (Contains_elem b [c]); [done|left]|].
  induction b as [|d b IH]; intros Hc; [by apply elem_of_nil in Hc|].
  simpl. apply elem_of_cons in Hc as [->|Hc].
  - by rewrite bool_decide_eq_true_2.
  - rewrite (IH Hc). apply orb_true_r.
Qed.

Lemma contains_elem slice s : contains slice s = true <-> s ∈ slice.
Proof.
  induction slice as [|item slice IH]; simpl.
  - split; [done|]. by intros ?%elem_of_nil.
  - case_decide as E; [subst; split; [left|done]|].
    rewrite IH. split; [by right|].
    intros [?|?]%elem_of_cons; [by subst|done].
Qed.

Lemma containsPathTraversal_elem path :
  containsPathTraversal path = true
  <-> slash ∈ bytes_of_string path \/ backslash ∈ bytes_of_string path.
Proof.
  unfold containsPathTraversal, dangerous. cbn [any_pattern].
  set (b := bytes_of_string path).
  split.
  - destruct (Contains b [dot; dot; slash]) eqn:E1.
    { intros _. left. apply (Contains_elem b _ slash E1). set_solver. }
    destruct (Contains b [dot; dot; backslash]) eqn:E2.
    { intros _. right. apply (Contains_elem b _ backslash E2). set_solver. }
    destruct (Contains b [slash]) eqn:E3.
    { intros _. left. by apply Contains_single. }
    destruct (Contains b [backslash]) eqn:E4; [|done].
    intros _. right. by apply Contains_single.
  - intros [H|H]; apply Contains_single in H; rewrite H;
      by repeat destruct (Contains _ _).
Qed.

End path_checks.

(** X12. [containsPathTraversal] refuses exactly the names that hold a
    slash or a backslash: the two patterns with dots add nothing, and a
    name made of dots only is accepted. *)
Theorem containsPathTraversal_is_separator_check (path : string) :
  ArCmd.containsPathTraversal path = true
  <-> "/"%char ∈ bytes_of_string path
      \/ ArCmd.backslash ∈ bytes_of_string path.
Proof. apply containsPathTraversal_elem. Qed.

Section extraction.
Import ArCmd.

Lemma readArchive_total_at fs archiveName :
  exists res, readArchive fs archiveName = Some res.
Proof.
  unfold readArchive. destruct (Fs.Open fs archiveName); eauto.
  apply readArchive_total.
Qed.

(** A path whose content [extract_members] changes is the name of a
    selected member that passed the checks, and holds its data, or a part
    of it when the write was refused. *)
Lemma extract_members_changes files :
  forall members os (fs fs' : Fs.t) r p,
  extract_members os files members fs = (fs', r) ->
  fs' !! p ≠ fs !! p ->
  exists m,
    m ∈ members
    /\ ArchiveHeader.Name (ArchiveMember.Header m) = p
    /\ (exists n, fs' !! p = Some (take n (ArchiveMember.Data m)))
    /\ (r = Ok tt -> fs' !! p = Some (ArchiveMember.Data m))
    /\ (files = [] \/ p ∈ files)
    /\ p ≠ ""
    /\ containsPathTraversal p = false.
Proof.
  induction members as [|member members IH]; intros os fs fs' r p;
    cbn [extract_members].
  { by intros [= <- <-] Hp. }
  set (name := ArchiveHeader.Name (ArchiveMember.Header member)).
  assert (forall os1 (fs1 : Fs.t),
    extract_members os1 files members fs1 = (fs', r) ->
    fs' !! p ≠ fs1 !! p ->
    exists m, m ∈ member :: members
      /\ ArchiveHeader.Name (ArchiveMember.Header m) = p
      /\ (exists n, fs' !! p = Some (take n (ArchiveMember.Data m)))
      /\ (r = Ok tt -> fs' !! p = Some (ArchiveMember.Data m))
      /\ (files = [] \/ p ∈ files) /\ p ≠ ""
      /\ containsPathTraversal p = false) as Hrest.
  { intros os1 fs1 Hrun H1. destruct (IH os1 fs1 fs' r p Hrun H1) as (m & Hm & H).
    exists m. split; [by right|done]. }
  destruct (bool_decide (length files = 0%nat) || contains files name) eqn:Hsel;
    [|by apply Hrest].
  destruct (bool_decide (String.length name = 0%nat)
            || bool_decide (255 < String.length name)%nat) eqn:Hlen;
    [by apply Hrest|].
  destruct (containsPathTraversal name) eqn:Hsafe; [by apply Hrest|].
  assert (files = [] \/ name ∈ files) as Hreq.
  { apply orb_true_iff in Hsel as [Hnone|Hin].
    - left. apply bool_decide_eq_true in Hnone. by destruct files.
    - right. by apply contains_elem. }
  assert (name ≠ "") as Hne.
  { apply orb_false_iff in Hlen as [Hlen _].
    apply bool_decide_eq_false in Hlen. by intros E; rewrite E in Hlen. }
  destruct (WriteFile_cases os fs name (ArchiveMember.Data member))
    as (os1 & fs1 & res & -> & Hres).
  destruct Hres as [[-> ->]|(msg & -> & Hfs1)].
  - intros Hrun Hp.
    destruct (decide (fs' !! p = <[name := ArchiveMember.Data member]> fs !! p))
      as [Hsame|Hdiff]; [|by eapply Hrest].
    unfold Fs.t in *.
    destruct (decide (name = p)) as [<-|Hnp];
      [|by rewrite Hsame, lookup_insert_ne in Hp].
    rewrite lookup_insert_eq in Hsame.
    exists member. split_and!; try done; [left|].
    exists (length (ArchiveMember.Data member)). by rewrite firstn_all.
  - intros [= <- <-] Hp. unfold Fs.t in *.
    destruct Hfs1 as [->|[n ->]]; [done|].
    destruct (decide (name = p)) as [<-|Hnp];
      [|by rewrite lookup_insert_ne in Hp].
    rewrite lookup_insert_eq.
    exists member. split_and!; try done; [left|by exists n].
Qed.

End extraction.

(** X13. [extractArchive] always has a result, and a path whose content
    it changes holds no slash and no backslash, is not empty, is the name
    of a member of the archive that was asked for (or of any member when
    no name was given), and holds the data of such a member: all of it
    when nil is returned, a part of it at least when a write was
    refused. *)
Theorem extractArchive_writes_only_safe_names (os : Os.t) (fs : Fs.t)
    (archiveName : string) (files : list string) :
  (exists res, ArCmd.extractArchive os fs archiveName files = Some res)
  /\ forall fs' r p,
       ArCmd.extractArchive os fs archiveName files = Some (fs', r) ->
       fs' !! p ≠ fs !! p ->
       (ArCmd.slash ∉ bytes_of_string p)
       /\ (ArCmd.backslash ∉ bytes_of_string p)
       /\ p ≠ ""
       /\ (files = [] \/ p ∈ files)
       /\ exists members m,
            ArCmd.readArchive fs archiveName = Some (Ok members)
            /\ m ∈ members
            /\ ArchiveHeader.Name (ArchiveMember.Header m) = p
            /\ (exists n, fs' !! p = Some (take n (ArchiveMember.Data m)))
            /\ (r = Ok tt -> fs' !! p = Some (ArchiveMember.Data m)).
Proof.
  unfold ArCmd.extractArchive.
  destruct (readArchive_total_at fs archiveName) as [res ->].
  cbn [mbind option_bind]. split; [eauto|].
  intros fs' r p [= Hres] Hp.
  destruct res as [members|e|e]; [|by injection Hres as <- <-..].
  destruct (extract_members_changes files members os fs fs' r p Hres Hp)
    as (m & Hm & Hname & Hpart & Hdata & Hsel & Hne & Hsafe).
  assert (~ (ArCmd.slash ∈ bytes_of_string p
             \/ ArCmd.backslash ∈ bytes_of_string p)) as Hsep.
  { rewrite <- containsPathTraversal_elem. by rewrite Hsafe. }
  split_and!; try done; [tauto|tauto|].
  by exists members, m.
Qed.

Lemma extractArchive_writes_only_safe_names_witness :
  (ArCmd.slash ∉ bytes_of_string "a.o")
  /\ (<["a.o" := bytes_of_string "hi!"]> Inputs.shelf : Fs.t) !! "a.o"
     = Some (bytes_of_string "hi!").
Proof.
  destruct (extractArchive_writes_only_safe_names [] Inputs.shelf "lib.a" [])
    as [_ H].
  destruct (H (<["a.o" := bytes_of_string "hi!"]> Inputs.shelf) (Ok tt) "a.o")
    as (H1 & _ & _ & _ & members & m & Hread & Hm & Hname & _ & Hdata).
  - by vm_compute.
  - by vm_compute.
  - split; [done|]. by vm_compute.
Defined.

Section mode_field.
Import Ar.

(** The octal digits written by ["%o"], read back in base ten: the
    number read is [d]. *)
Lemma fmt_octal_read_decimal k : forall fuel u acc,
  (0 < k <= fuel)%nat -> 0 <= u < 8 ^ Z.of_nat k ->
  exists ds d,
    bytes_of_string (fmt_digits 8 fuel u acc) = ds ++ bytes_of_string acc
    /\ ds ≠ []
    /\ (length ds <= k)%nat
    /\ Forall (fun c => 48 <= u8 c <= 57) ds
    /\ (forall tl v,
          parse_digits (ds ++ tl) v
          = parse_digits tl (v * 10 ^ Z.of_nat (length ds) + d))
    /\ u <= d < 10 ^ Z.of_nat (length ds)
    /\ (d = u <-> u < 8)
    /\ d mod 10 = u mod 8.
Proof.
  induction k as [|k IH]; intros fuel u acc Hk Hu; [lia|].
  destruct fuel as [|fuel]; [lia|]. simpl fmt_digits.
  assert (0 <= u mod 8 < 8) as Hmod by (apply Z.mod_pos_bound; lia).
  destruct (u <? 8) eqn:E.
  - apply Z.ltb_lt in E. exists [digit_char (u mod 8)], u.
    rewrite !Z.mod_small by lia. split_and!.
    + done.
    + done.
    + simpl. lia.
    + constructor; [|done]. rewrite u8_digit_char; lia.
    + intros tl v. simpl app. rewrite parse_digits_digit by lia.
      f_equal.
    + lia.
    + change (10 ^ Z.of_nat (length [digit_char u])) with 10. lia.
    + lia.
    + done.
  - apply Z.ltb_ge in E.
    assert (0 < k)%nat as Hk0.
    { destruct k; [|lia]. change (8 ^ Z.of_nat 1) with 8 in Hu. lia. }
    destruct (IH fuel (u / 8) (String (digit_char (u mod 8)) acc))
      as (ds & d & Hb & Hne & Hlen & Hd & Hp & Hbound & _ & _).
    { lia. }
    { split; [apply Z.div_pos; lia|].
      apply Z.div_lt_upper_bound; [lia|].
      rewrite Nat2Z.inj_succ, Z.pow_succ_r in Hu; lia. }
    pose proof (Z.div_mod u 8) as Hdiv.
    assert (1 <= u / 8) as Hq by (apply Z.div_le_lower_bound; lia).
    exists (ds ++ [digit_char (u mod 8)]), (d * 10 + u mod 8). split_and!.
    + rewrite Hb. simpl. by rewrite <- app_assoc.
    + by destruct ds.
    + rewrite length_app. simpl. lia.
    + apply Forall_app. split; [done|]. constructor; [|done].
      rewrite u8_digit_char; lia.
    + intros tl v. rewrite <- app_assoc. simpl app.
      rewrite Hp, parse_digits_digit by lia. f_equal.
      rewrite length_app. simpl length.
      rewrite Nat2Z.inj_add, Z.pow_add_r by lia. simpl (Z.of_nat 1). lia.
    + lia.
    + rewrite length_app. simpl length.
      rewrite Nat2Z.inj_add, Z.pow_add_r by lia. simpl (Z.of_nat 1). lia.
    + lia.
    + rewrite Z.add_comm, Z.mod_add by lia. apply Z.mod_small. lia.
Qed.

Lemma formatHeader_mode h :
  field 40 48 (formatHeader h)
  = string_of_bytes (padString (fmt_o (ArchiveHeader.Mode h)) 8).
Proof.
  unfold field. f_equal.
  assert (formatHeader h
          = (padString (ArchiveHeader.Name h) 16
             ++ padString (fmt_d (ArchiveHeader.Date h)) 12
             ++ padString (fmt_d (ArchiveHeader.UID h)) 6
             ++ padString (fmt_d (ArchiveHeader.GID h)) 6)
            ++ padString (fmt_o (ArchiveHeader.Mode h)) 8
            ++ (padString (fmt_d (ArchiveHeader.Size h)) 10
                ++ bytes_of_string ("`" +:+ Nm.newline))) as ->.
  { unfold formatHeader. by rewrite <- !app_assoc. }
  apply slice_middle; rewrite ?length_app, ?length_padString; done.
Qed.

Lemma mode_read_back m :
  0 <= m < 8 ^ 8 ->
  exists d,
    parseIntOctal (trimSpace (string_of_bytes (padString (fmt_o m) 8))) = (d, false)
    /\ m <= d /\ (d = m <-> m < 8) /\ d mod 10 = m mod 8.
Proof.
  intros Hm. unfold fmt_o.
  destruct (m <? 0) eqn:E; [apply Z.ltb_lt in E; lia|].
  destruct (fmt_octal_read_decimal 8 22 m "")
    as (ds & d & Hb & Hne & Hlen & Hd & Hp & Hbound & Hsame & Hlast);
    [lia|done|].
  change (bytes_of_string "") with (@nil byte) in Hb. rewrite app_nil_r in Hb.
  exists d. split; [|by split_and!; lia || done].
  rewrite trimSpace_padString.
  - unfold parseIntOctal, ParseInt. rewrite Hb.
    destruct ds as [|c ds]; [done|].
    apply Forall_cons in Hd as Hc. destruct Hc as [Hc _].
    rewrite !bool_decide_eq_false_2;
      [|intros ->; change (48 <= 45 <= 57) in Hc; lia
       |intros ->; change (48 <= 43 <= 57) in Hc; lia].
    simpl orb. cbv iota.
    specialize (Hp [] 0). rewrite app_nil_r in Hp. rewrite Hp.
    simpl parse_digits. rewrite Z.mul_0_l, Z.add_0_l.
    assert (10 ^ Z.of_nat (length (c :: ds)) <= 10 ^ 8) as Hpow.
    { apply Z.pow_le_mono_r; lia. }
    destruct (2 ^ 63 <=? d) eqn:E2; [apply Z.leb_le in E2; lia|done].
  - by rewrite <- length_bytes_of_string, Hb.
  - split; rewrite Hb; apply drop_blanks_digits; [done|].
    by apply Forall_reverse.
Qed.

End mode_field.

(** X14. The mode is written in octal and read in decimal: for a mode
    that fits its field, the mode read back from a written header is the
    octal digits taken as a decimal number. It is never smaller than the
    mode written, equals it only below 8, and ends in the same digit. *)
Theorem mode_is_read_in_decimal (h : ArchiveHeader.t) :
  0 <= ArchiveHeader.Mode h < 8 ^ 8 ->
  let mode' := ArchiveHeader.Mode (Ar.parseHeader (Ar.formatHeader h)) in
  ArchiveHeader.Mode h <= mode'
  /\ (mode' = ArchiveHeader.Mode h <-> ArchiveHeader.Mode h < 8)
  /\ mode' mod 10 = ArchiveHeader.Mode h mod 8.
Proof.
  intros Hm mode'. subst mode'. unfold Ar.parseHeader.
  cbn [ArchiveHeader.Mode]. rewrite formatHeader_mode.
  destruct (mode_read_back (ArchiveHeader.Mode h) Hm) as (d & -> & H).
  exact H.
Qed.

Lemma mode_is_read_in_decimal_witness :
  420 <= ArchiveHeader.Mode
           (Ar.parseHeader (Ar.formatHeader (ArchiveMember.Header Inputs.member_hi))).
Proof.
  assert (0 <= ArchiveHeader.Mode (ArchiveMember.Header Inputs.member_hi) < 8 ^ 8)
    as H by (by vm_compute).
  exact (proj1 (mode_is_read_in_decimal _ H)).
Defined.

Section archive_writer.
Import Ar ArCmd.

(** The loop of [writeArchive] only appends to the archive; when it
    returns nil it has appended every member in full. *)
Lemma write_members_appends archiveName :
  forall order os (fs fs' : Fs.t) r content,
  write_members os (<[archiveName := content]> fs) archiveName order = (fs', r) ->
  (exists content', fs' = <[archiveName := content']> fs)
  /\ (r = Ok tt ->
      fs' = <[archiveName :=
               content ++ concat ((fun e => write_member e.2) <$> order)]> fs).
Proof.
  induction order as [|[k m] order IH]; intros os fs fs' r content;
    cbn [write_members].
  - intros [= <- <-]. split; [by eexists|]. intros _. by rewrite app_nil_r.
  - destruct (WriteTo_cases os fs archiveName content
                (formatHeader (ArchiveMember.Header m)))
      as [os1 [->|(n & msg & ->)]].
    2:{ intros [= <- <-]. split; [by eexists|done]. }
    destruct (WriteTo_cases os1 fs archiveName
                (content ++ formatHeader (ArchiveMember.Header m))
                (ArchiveMember.Data m))
      as [os2 [->|(n & msg & ->)]].
    2:{ intros [= <- <-]. split; [by eexists|done]. }
    rewrite fmap_cons, concat_cons. cbn [snd].
    change (write_member m)
      with (formatHeader (ArchiveMember.Header m) ++ ArchiveMember.Data m
            ++ (if Z.of_nat (length (ArchiveMember.Data m)) mod 2 =? 0
                then [] else bytes_of_string Nm.newline)).
    destruct (_ =? 0).
    + intros [Hany Hok]%IH. split; [done|]. intros Hr.
      rewrite (Hok Hr). by rewrite app_nil_r, <- !app_assoc.
    + match goal with |- context [Os.WriteTo os2 (<[_ := ?c]> _) _ ?q] =>
        destruct (WriteTo_cases os2 fs archiveName c q)
          as [os3 [->|(n & msg & ->)]]
      end.
      2:{ intros [= <- <-]. split; [by eexists|done]. }
      intros [Hany Hok]%IH. split; [done|]. intros Hr.
      rewrite (Hok Hr). by rewrite <- !app_assoc.
Qed.

Lemma writeArchive_in_cases os (fs fs' : Fs.t) archiveName order r :
  writeArchive_in os fs archiveName order = (fs', r) ->
  (forall p, p ≠ archiveName -> fs' !! p = fs !! p)
  /\ (r = Ok tt -> fs' = <[archiveName := Ar.writeArchive_in order]> fs).
Proof.
  unfold writeArchive_in.
  destruct (Create_cases os fs archiveName) as [os1 [->|[msg ->]]].
  2:{ intros [= <- <-]. by split. }
  destruct (WriteTo_cases os1 fs archiveName [] magic)
    as [os2 [->|(n & msg & ->)]]; cbn [app].
  2:{ intros [= <- <-]. split; [|done]. intros p Hp.
      unfold Fs.t in *. by rewrite lookup_insert_ne. }
  intros [[content' ->] Hok]%write_members_appends. split; [|done].
  intros p Hp. unfold Fs.t in *. by rewrite lookup_insert_ne.
Qed.

Lemma write_members_accepted archiveName :
  forall order os (fs : Fs.t) content,
  Os.accepts_all os ->
  exists fs', write_members os (<[archiveName := content]> fs) archiveName order
              = (fs', Ok tt).
Proof.
  induction order as [|[k m] order IH]; intros os fs content Hos;
    cbn [write_members]; [by eexists|].
  destruct (WriteTo_accepted os fs archiveName content
              (formatHeader (ArchiveMember.Header m)) Hos) as (os1 & -> & Hos1).
  destruct (WriteTo_accepted os1 fs archiveName
              (content ++ formatHeader (ArchiveMember.Header m))
              (ArchiveMember.Data m) Hos1) as (os2 & -> & Hos2).
  destruct (_ =? 0); [by apply IH|].
  match goal with |- context [Os.WriteTo os2 (<[_ := ?c]> _) _ ?q] =>
    destruct (WriteTo_accepted os2 fs archiveName c q Hos2) as (os3 & -> & Hos3)
  end.
  by apply IH.
Qed.

Lemma writeArchive_in_accepted os (fs : Fs.t) archiveName order :
  Os.accepts_all os ->
  writeArchive_in os fs archiveName order
  = (<[archiveName := Ar.writeArchive_in order]> fs, Ok tt).
Proof.
  intros Hos.
  assert (exists fs', writeArchive_in os fs archiveName order = (fs', Ok tt))
    as [fs' Hrun].
  { unfold writeArchive_in.
    destruct (Create_accepted os fs archiveName Hos) as (os1 & -> & Hos1).
    destruct (WriteTo_accepted os1 fs archiveName [] magic Hos1)
      as (os2 & -> & Hos2).
    by apply write_members_accepted. }
  rewrite Hrun. f_equal. by apply (writeArchive_in_cases _ _ _ _ _ _ Hrun).
Qed.

(** An archive written, with nil returned, from members that fit the
    header format, each under its own name, reads back in the order of
    the visit. *)
Lemma written_archive_reads_back os (fs fs' : Fs.t) archiveName
    (members : gmap string ArchiveMember.t) :
  writeArchive os fs archiveName members (fs', Ok tt) ->
  (forall k m, members !! k = Some m ->
     storable m /\ ArchiveHeader.Name (ArchiveMember.Header m) = k) ->
  exists order,
    order ≡ₚ map_to_list members
    /\ readArchive fs' archiveName = Some (Ok (reread <$> order.*2))
    /\ names (reread <$> order.*2) = order.*1
    /\ Forall storable order.*2.
Proof.
  intros (order & Hperm & Hrun) Hmembers. symmetry in Hrun.
  apply writeArchive_in_cases in Hrun as [_ Hfs]. rewrite (Hfs eq_refl).
  unfold Ld.range_order in Hperm.
  assert (forall k m, (k, m) ∈ order ->
            storable m /\ ArchiveHeader.Name (ArchiveMember.Header m) = k)
    as Horder.
  { intros k m Hin. rewrite Hperm in Hin. apply elem_of_map_to_list in Hin.
    by apply Hmembers. }
  assert (Forall storable order.*2) as Hall.
  { apply Forall_forall. intros m ([k m'] & -> & Hin)%list_elem_of_fmap.
    by apply Horder in Hin as [? _]. }
  exists order. split_and!; [done| | |done].
  - unfold readArchive, Fs.Open, Fs.t in *.
    rewrite lookup_insert_eq. by apply readArchive_written.
  - unfold names. rewrite <- !list_fmap_compose.
    apply list_eq_Forall2, Forall2_fmap, Forall_Forall2_diag, Forall_forall.
    intros [k m] Hin.
    change (ArchiveHeader.Name (ArchiveMember.Header (reread m)) = k).
    destruct (Horder k m Hin) as [Hsm Hname].
    apply reread_payload in Hsm. etrans; [|exact Hname].
    exact (f_equal (fun p : string * Z * list byte => p.1.1) Hsm).
Qed.

(** Whatever [writeArchive] returns, the other files are as before. *)
Lemma writeArchive_others os (fs : Fs.t) archiveName
    (members : gmap string ArchiveMember.t) res :
  writeArchive os fs archiveName members res ->
  forall p, p ≠ archiveName -> res.1 !! p = fs !! p.
Proof.
  intros (order & _ & ->).
  destruct (writeArchive_in os fs archiveName order) as [fs' r] eqn:Hrun.
  by apply writeArchive_in_cases in Hrun as [? _].
Qed.

End archive_writer.

Section deletion.
Import Ar ArCmd.

Lemma deleteMap_lookup files name : forall m0 : gmap string bool,
  foldl (fun m f => <[f := true]> m) m0 files !! name
  = if decide (name ∈ files) then Some true else m0 !! name.
Proof.
  induction files as [|f files IH]; intros m0; cbn [foldl].
  - rewrite decide_False; [done|]. by intros ?%elem_of_nil.
  - rewrite IH. destruct (decide (name ∈ files)) as [Hin|Hout].
    + rewrite decide_True; [done|by right].
    + destruct (decide (f = name)) as [->|Hne].
      * rewrite lookup_insert_eq, decide_True; [done|left].
      * rewrite lookup_insert_ne by done. rewrite decide_False; [done|].
        intros [?|?]%elem_of_cons; [by subst|done].
Qed.

Lemma deleted_elem files name : deleted files name = true <-> name ∈ files.
Proof.
  unfold deleted, deleteMap. rewrite deleteMap_lookup, lookup_empty.
  by case_decide.
Qed.

(** An entry of the map built by the loop of [deleteFromArchive] was in
    the map before, or comes from a member that is kept. *)
Lemma newMembers_origin files members :
  forall (acc : gmap string ArchiveMember.t) name m,
  foldl (fun acc member =>
           let name := ArchiveHeader.Name (ArchiveMember.Header member) in
           if negb (deleted files name) then <[name := member]> acc else acc)
        acc members !! name = Some m ->
  acc !! name = Some m
  \/ (ArchiveHeader.Name (ArchiveMember.Header m) = name
      /\ m ∈ members /\ name ∉ files).
Proof.
  induction members as [|member members IH]; intros acc name m; simpl; [by left|].
  intros [H|(Hn & Hin & Hf)]%IH; [|right; split_and!; [done|by right|done]].
  destruct (deleted files _) eqn:Hd; simpl in H; [by left|].
  destruct (decide (ArchiveHeader.Name (ArchiveMember.Header member) = name))
    as [Heq|Hne].
  - rewrite Heq, lookup_insert_eq in H. injection H as <-.
    right. split_and!; [done|left|].
    rewrite <- deleted_elem, <- Heq, Hd. done.
  - rewrite lookup_insert_ne in H by done. by left.
Qed.

Lemma newMembers_kept files members :
  forall (acc : gmap string ArchiveMember.t) name,
  name ∉ files ->
  is_Some (acc !! name) \/ name ∈ names members ->
  is_Some (foldl (fun acc member =>
           let name := ArchiveHeader.Name (ArchiveMember.Header member) in
           if negb (deleted files name) then <[name := member]> acc else acc)
        acc members !! name).
Proof.
  induction members as [|member members IH]; intros acc name Hf Hin; simpl.
  - destruct Hin as [H|H]; [done|]. by apply elem_of_nil in H.
  - apply IH; [done|].
    destruct (decide (ArchiveHeader.Name (ArchiveMember.Header member) = name))
      as [Heq|Hne].
    + left. rewrite Heq.
      destruct (deleted files name) eqn:Hd; [by apply deleted_elem in Hd|].
      simpl. by rewrite lookup_insert_eq.
    + destruct Hin as [H|H].
      * left. destruct (deleted files _); simpl; [done|].
        by rewrite lookup_insert_ne.
      * right. unfold names in H. rewrite fmap_cons in H.
        by apply elem_of_cons in H as [?|?].
Qed.

End deletion.

(** X15. [deleteFromArchive] always has a result. When the archive was
    read and the call returned nil, no other file changed, and the
    archive reads back with each name once: the names listed are the
    names of the members that were not asked to be deleted, and every
    member has the name, the declared size and the data of a member that
    was in the archive before. *)
Theorem deleteFromArchive_keeps_the_rest (os : Os.t) (fs : Fs.t)
    (archiveName : string) (files : list string) :
  (exists res, ArCmd.deleteFromArchive os fs archiveName files res)
  /\ forall members fs',
       ArCmd.readArchive fs archiveName = Some (Ok members) ->
       ArCmd.deleteFromArchive os fs archiveName files (fs', Ok tt) ->
       (forall p, p ≠ archiveName -> fs' !! p = fs !! p)
       /\ exists members',
            ArCmd.readArchive fs' archiveName = Some (Ok members')
            /\ NoDup (ArCmd.names members')
            /\ (forall name,
                  name ∈ ArCmd.names members'
                  <-> (name ∉ files) /\ name ∈ ArCmd.names members)
            /\ forall m', m' ∈ members' ->
                 exists m, m ∈ members /\ Ar.payload m' = Ar.payload m.
Proof.
  split.
  - destruct (readArchive_total_at fs archiveName) as [[members|e|e] Hread].
    + eexists. apply (ArCmd.delete_written _ _ _ _ members); [done|].
      exists (map_to_list (ArCmd.newMembers files members)).
      split; [by unfold Ld.range_order|done].
    + eexists. by apply ArCmd.delete_error.
    + eexists. by apply ArCmd.delete_panic.
  - intros members fs' Hread Hdel.
    inversion Hdel as [| |members0 res Hread0 Hwrite]; subst.
    rewrite Hread in Hread0. injection Hread0 as <-.
    assert (Forall Ar.storable members) as Hst.
    { unfold ArCmd.readArchive in Hread.
      destruct (Fs.Open fs archiveName) as [file| |]; [|done..].
      unfold Ar.readArchive in Hread.
      case_decide; [done|]. case_decide; [|done].
      by apply read_members_storable in Hread. }
    assert (forall k m, ArCmd.newMembers files members !! k = Some m ->
              ArchiveHeader.Name (ArchiveMember.Header m) = k
              /\ m ∈ members /\ k ∉ files) as Horigin.
    { intros k m Hin.
      apply newMembers_origin in Hin as [Hin|Hin]; [|done].
      by rewrite lookup_empty in Hin. }
    split; [exact (writeArchive_others _ _ _ _ _ Hwrite)|].
    destruct (written_archive_reads_back _ _ _ _ _ Hwrite)
      as (order & Hperm & Hreread & Hnames & Hall).
    { intros k m Hin. destruct (Horigin k m Hin) as (Hname & Hm & _).
      split; [|done]. by eapply Forall_forall in Hst. }
    exists (Ar.reread <$> order.*2). split_and!; [done| | |].
    + rewrite Hnames, Hperm. apply NoDup_fst_map_to_list.
    + intros name. rewrite Hnames, Hperm. split.
      * intros ([k m] & -> & Hin%elem_of_map_to_list)%list_elem_of_fmap. cbn.
        destruct (Horigin k m Hin) as (Hname & Hm & Hf).
        split; [done|]. unfold ArCmd.names.
        apply list_elem_of_fmap. by exists m.
      * intros [Hf Hin].
        destruct (newMembers_kept files members ∅ name Hf) as [m Hm];
          [by right|].
        apply list_elem_of_fmap. exists (name, m). split; [done|].
        by apply elem_of_map_to_list.
    + intros m' (m & -> & ([k m0] & -> & Hin)%list_elem_of_fmap)%list_elem_of_fmap.
      rewrite Hperm in Hin. apply elem_of_map_to_list in Hin.
      destruct (Horigin k m0 Hin) as (_ & Hm & _).
      exists m0. split; [done|]. apply reread_payload.
      by eapply Forall_forall in Hst.
Qed.

Lemma deleteFromArchive_keeps_the_rest_witness :
  exists members',
    ArCmd.readArchive
      (<["lib.a" := Ar.writeArchive_in [("b.o", Ar.reread Inputs.member_even)]]>
         Inputs.shelf2)
      "lib.a"
    = Some (Ok members')
    /\ ArCmd.names members' = ["b.o"].
Proof.
  destruct (deleteFromArchive_keeps_the_rest [] Inputs.shelf2 "lib.a" ["a.o"])
    as [_ H].
  destruct (H [Ar.reread Inputs.member_hi; Ar.reread Inputs.member_even]
              (<["lib.a" :=
                   Ar.writeArchive_in [("b.o", Ar.reread Inputs.member_even)]]>
                 Inputs.shelf2))
    as (_ & ms & Hread & _ & Hnames & _).
  - by vm_compute.
  - apply (ArCmd.delete_written _ _ _ _
             [Ar.reread Inputs.member_hi; Ar.reread Inputs.member_even]);
      [by vm_compute|].
    exists [("b.o", Ar.reread Inputs.member_even)]. split.
    + unfold Ld.range_order.
      assert (ArCmd.newMembers ["a.o"]
                [Ar.reread Inputs.member_hi; Ar.reread Inputs.member_even]
              = {[ "b.o" := Ar.reread Inputs.member_even ]}) as ->
        by (by vm_compute).
      by rewrite map_to_list_singleton.
    + by rewrite writeArchive_in_accepted by constructor.
  - exists ms. split; [done|].
    vm_compute in Hread. injection Hread as <-. by vm_compute.
Defined.

(** * The assembler's object file, seen by the linker and the lister *)
Section object_file.
Import As.

Lemma u8_opcode_byte opcode :
  u8 (opcode_byte opcode) = 0xc3 \/ u8 (opcode_byte opcode) = 0x90.
Proof. unfold opcode_byte. repeat case_decide; (by left) || (by right). Qed.

(** When [writeObjectFile] returns nil for a generated object, the file
    holds the generated code; it returns nil when no call is refused. *)
Lemma writeObjectFile_generated os (fs : Fs.t) filename instructions :
  let res := AsOut.writeObjectFile os fs filename (generateObjectFile instructions) in
  (Os.accepts_all os -> res.2 = Ok tt)
  /\ (res.2 = Ok tt -> res.1 = <[filename := generateCode instructions]> fs).
Proof.
  unfold AsOut.writeObjectFile, generateObjectFile.
  cbn [ELF.Sections AsOut.write_sections Section.Data].
  destruct (Create_cases os fs filename) as [os1 [Hc|[msg Hc]]].
  2:{ rewrite Hc. split; [|done]. intros Hos.
      destruct (Create_accepted os fs filename Hos) as (os2 & Hc2 & _).
      congruence. }
  rewrite Hc. case_decide as Hlen.
  - destruct (WriteTo_cases os1 fs filename [] (generateCode instructions))
      as [os2 [Hw|(n & msg & Hw)]]; rewrite Hw; [by split|].
    split; [|done]. intros Hos.
    destruct (Create_accepted os fs filename Hos) as (os3 & Hc3 & Hos3).
    assert (os3 = os1) as -> by congruence.
    destruct (WriteTo_accepted os1 fs filename [] (generateCode instructions) Hos3)
      as (os4 & Hw4 & _).
    congruence.
  - split; [done|]. intros _. cbn [fst].
    by destruct (generateCode instructions); [|simpl in Hlen; lia].
Qed.

Lemma magic_ok_opcode c rest :
  u8 c = 0xc3 \/ u8 c = 0x90 -> Elf.magic_ok (c :: rest) = false.
Proof.
  intros Hc. unfold Elf.magic_ok, Elf.at_. cbn [nth].
  assert ((u8 c =? 127) = false) as -> by (apply Z.eqb_neq; lia). done.
Qed.

End object_file.

(** X16. [writeObjectFile] returns nil for a generated object when the
    operating system accepts every call, and returns the error of a
    refused [os.Create] with the files unchanged. Whenever it returns
    nil the file holds one byte per instruction and nothing else, and the
    linker cannot load it: [ParseELF] fails on the magic, with the end of
    the input for fewer than four instructions and with a wrong magic
    otherwise. *)
Theorem assembled_object_is_not_loadable (os : Os.t) (fs : Fs.t)
    (filename : string) (instructions : list As.Instruction) :
  let res :=
    AsOut.writeObjectFile os fs filename (As.generateObjectFile instructions) in
  (Os.accepts_all os -> res.2 = Ok tt)
  /\ (forall written msg os',
        AsOut.writeObjectFile (Os.refuse written msg :: os') fs filename
          (As.generateObjectFile instructions)
        = (fs, Err msg))
  /\ (res.2 = Ok tt ->
      res.1 = <[filename :=
                 (fun inst => As.opcode_byte (As.Opcode inst)) <$> instructions]> fs
      /\ Link.load res.1 filename
         = Err ("failed to parse " +:+ filename +:+ ": "
                +:+ (if decide (length instructions = 0%nat)
                     then "failed to read magic: EOF"
                     else if decide (length instructions < 4)%nat
                          then "failed to read magic: unexpected EOF"
                          else "invalid ELF magic"))).
Proof.
  intros res.
  destruct (writeObjectFile_generated os fs filename instructions) as [Hacc Hok].
  fold res in Hacc, Hok. split_and!; [done|done|].
  intros Hres. rewrite (Hok Hres), generateCode_map. split; [done|].
  unfold Link.load, Fs.Open, Fs.t. rewrite lookup_insert_eq.
  set (code := (fun inst => As.opcode_byte (As.Opcode inst)) <$> instructions).
  assert (length code = length instructions) as Hlen by apply length_fmap.
  unfold Elf.ParseELF. destruct (ParseELF_body_error code) as [w' ->].
  rewrite Hlen. do 3 f_equal.
  destruct (decide (length instructions < 4)%nat) as [Hshort|Hlong].
  - repeat case_decide; done || lia.
  - destruct instructions as [|inst rest]; [simpl in Hlong; lia|].
    unfold code. rewrite fmap_cons. cbn [take].
    rewrite magic_ok_opcode by apply u8_opcode_byte.
    rewrite decide_False by (simpl; lia). done.
Qed.

Lemma assembled_object_is_not_loadable_witness :
  Link.load
    (AsOut.writeObjectFile [] Inputs.disk "b.o"
       (As.generateObjectFile Inputs.two_labels)).1 "b.o"
  = Err "failed to parse b.o: failed to read magic: unexpected EOF".
Proof.
  destruct (assembled_object_is_not_loadable [] Inputs.disk "b.o"
              Inputs.two_labels) as (Hacc & _ & Hload).
  assert (Os.accepts_all []) as Hos by constructor.
  destruct (Hload (Hacc Hos)) as [_ ->].
  by vm_compute.
Defined.

Section generated_symbols.
Import As Nm.

(** The symbols of a generated object come with strictly increasing
    values, a name, the type of a function and a local binding. *)
Lemma labelled_symbols_increasing : forall instructions i,
  0 <= i -> (i + Z.of_nat (length instructions)) * 4 <= 2 ^ 64 ->
  StronglySorted (fun a b => Symbol.Value a < Symbol.Value b)
                 (labelled_symbols i instructions)
  /\ Forall (fun s => 4 * i <= Symbol.Value s
                      /\ Symbol.Name s ≠ ""
                      /\ Symbol.Type_ s = "STT_FUNC"
                      /\ Symbol.Binding s = "STB_LOCAL")
            (labelled_symbols i instructions).
Proof.
  induction instructions as [|inst rest IH]; intros i Hi Hn.
  - split; constructor.
  - cbn [labelled_symbols].
    rewrite length_cons, Nat2Z.inj_succ in Hn.
    destruct (IH (i + 1)) as [Hsorted Hall]; [lia..|].
    assert (Forall (fun s => 4 * i <= Symbol.Value s
                      /\ Symbol.Name s ≠ ""
                      /\ Symbol.Type_ s = "STT_FUNC"
                      /\ Symbol.Binding s = "STB_LOCAL")
                   (labelled_symbols (i + 1) rest)) as Hall'.
    { eapply Forall_impl; [exact Hall|]. intros s (? & ? & ? & ?).
      split_and!; [lia|done..]. }
    case_decide as Hlabel; [done|]. cbn [app].
    assert (Symbol.Value (label_symbol i inst) = i * 4) as Hv.
    { unfold label_symbol, wrap64. cbn [Symbol.Value]. apply Z.mod_small. lia. }
    split.
    + constructor; [done|].
      eapply Forall_impl; [exact Hall|]. intros s (? & _). rewrite Hv. lia.
    + constructor; [|done]. rewrite Hv. split_and!; [lia|done..].
Qed.

Lemma strictly_sorted_values l :
  StronglySorted (fun a b => Symbol.Value a < Symbol.Value b) l ->
  Sorted value_le l
  /\ forall x y, x ∈ l -> y ∈ l -> Symbol.Value x = Symbol.Value y -> x = y.
Proof.
  induction 1 as [|a l Hl [IH1 IH2] Ha].
  - split; [constructor|]. by intros x y ?%elem_of_nil.
  - split.
    + constructor; [done|]. destruct Ha as [|b l Hb _]; constructor.
      unfold value_le. lia.
    + intros x y [->|Hx]%elem_of_cons [->|Hy]%elem_of_cons Hv; [done| | |by apply IH2].
      * eapply Forall_forall in Ha; [|exact Hy]. lia.
      * eapply Forall_forall in Ha; [|exact Hx]. lia.
Qed.

(** A slice with strictly increasing values is left as it is by any
    sort that follows the contract of [sort.Slice]. *)
Lemma sort_strictly_sorted sort l :
  sorts_by_value sort ->
  StronglySorted (fun a b => Symbol.Value a < Symbol.Value b) l ->
  sort l = l.
Proof.
  intros Hsort Hl. destruct (Hsort l) as [Hperm Hsorted].
  destruct (strictly_sorted_values l Hl) as [Hle Hinj].
  apply (Sorted_unique_strong value_le); [|done..].
  intros x1 x2 Hx1 Hx2 H12 H21. rewrite Hperm in Hx1.
  apply Hinj; [done..|]. unfold value_le in *. lia.
Qed.

Lemma filter_named l :
  Forall (fun s => Symbol.Name s ≠ "") l ->
  filter (fun s => Symbol.Name s ≠ "") l = l.
Proof.
  induction 1 as [|s l Hs Hl IH]; [done|].
  by rewrite filter_cons, decide_True, IH.
Qed.

End generated_symbols.

(** X17. The lister run on a generated object prints one line per
    labelled instruction, in instruction order, whatever the sort does
    with equal keys: sixteen hexadecimal digits of the value, the letter
    [T], and the label. *)
Theorem listSymbols_of_generated_object
    (sort : list Symbol.t -> list Symbol.t) (instructions : list As.Instruction) :
  Nm.sorts_by_value sort ->
  Z.of_nat (length instructions) * 4 <= 2 ^ 64 ->
  Nm.listSymbols sort (As.generateObjectFile instructions)
  = (fun sym => fmt_0x 16 (Symbol.Value sym) +:+ " T " +:+ Symbol.Name sym
                +:+ Nm.newline)
    <$> As.generateSymbols instructions.
Proof.
  intros Hsort Hn. unfold Nm.listSymbols, As.generateObjectFile.
  cbn [ELF.Symbols ELF.Class].
  unfold As.generateSymbols. rewrite generateSymbols_from_spec. cbn [app].
  destruct (labelled_symbols_increasing instructions 0) as [Hsorted Hall];
    [lia..|].
  case_decide as Hlen.
  - by destruct (As.labelled_symbols 0 instructions).
  - rewrite (sort_strictly_sorted sort) by done.
    rewrite print_symbols_filter, filter_named.
    + apply Forall_fmap_ext. eapply Forall_impl; [exact Hall|].
      intros s (_ & _ & Hty & Hb). unfold Nm.symbol_line.
      rewrite Hty, Hb. rewrite andb_false_r. reflexivity.
    + eapply Forall_impl; [exact Hall|]. by intros s (_ & ? & _).
Qed.

Lemma listSymbols_of_generated_object_witness :
  Nm.listSymbols Nm.insertion_sort (As.generateObjectFile Inputs.two_labels)
  = ["0000000000000000 T start" +:+ Nm.newline;
     "0000000000000004 T done" +:+ Nm.newline].
Proof.
  rewrite (listSymbols_of_generated_object Nm.insertion_sort Inputs.two_labels).
  - by vm_compute.
  - apply insertion_sort_sorts.
  - vm_compute. by intros [=].
Defined.

(** * The editor *)
Section editor.
Import ElfEdit.

Lemma backup_is_another_file filename : filename ≠ filename +:+ ".bak".
Proof.
  intros H. apply (f_equal String.length) in H.
  rewrite length_string_app in H. simpl in H. lia.
Qed.

(** What [writeELFFile] does to the files. *)
Lemma writeELFFile_files os (fs : Fs.t) filename elfFile :
  let res := writeELFFile os fs filename elfFile in
  e_elf res = elfFile
  /\ e_fs res !! filename = fs !! filename
  /\ (forall p, p ≠ filename +:+ ".bak" -> e_fs res !! p = fs !! p)
  /\ match e_err res with
     | Ok _ =>
         exists original,
           fs !! filename = Some original
           /\ Z.of_nat (length original) <= Elf.limit_100MB
           /\ e_fs res = <[filename +:+ ".bak" := original]> fs
     | _ => (Os.accepts_all os -> e_fs res = fs) /\ e_out res = []
     end.
Proof.
  unfold writeELFFile, Fs.Open.
  destruct (fs !! filename) as [original|] eqn:E; [|done].
  destruct (_ <? _) eqn:Hsize; [done|].
  apply Z.ltb_ge in Hsize.
  destruct (WriteFile_cases os fs (filename +:+ ".bak") original)
    as (os' & fs' & res & Hw & Hres).
  rewrite Hw.
  assert (forall content : list byte,
            (<[filename +:+ ".bak" := content]> fs : Fs.t) !! filename
            = Some original) as Hkeep.
  { intros content. unfold Fs.t in *. rewrite lookup_insert_ne; [done|].
    intros H. by apply (backup_is_another_file filename). }
  assert (forall (content : list byte) p, p ≠ filename +:+ ".bak" ->
            (<[filename +:+ ".bak" := content]> fs : Fs.t) !! p = fs !! p)
    as Hother.
  { intros content p Hp. unfold Fs.t in *. by rewrite lookup_insert_ne. }
  destruct Hres as [[-> ->]|(msg & -> & Hfs')]; cbn.
  - split_and!; [done|by rewrite Hkeep|by apply Hother|by exists original].
  - assert (Os.accepts_all os -> fs' = fs) as Hquiet.
    { intros Hos.
      destruct (WriteFile_accepted os fs (filename +:+ ".bak") original Hos)
        as (os2 & Hw2 & _).
      congruence. }
    destruct Hfs' as [->|[n ->]].
    + by split_and!.
    + split_and!; [done|by rewrite Hkeep|by apply Hother|done|done].
Qed.

End editor.

(** X18. [editELF] never changes the file it is asked to edit, and no
    file other than the backup. When it returns nil the backup holds a
    copy of the file; when it returns an error and the operating system
    refused no call, no file has changed. In the model behind [elfFile]
    the sections, the symbols, the entry and the machine are always left
    as they were. *)
Theorem editELF_leaves_the_file (os : Os.t) (fs : Fs.t) (filename : string)
    (elfFile : ELF.t) (option : string) (args : list string) :
  let res := ElfEdit.editELF os fs filename elfFile option args in
  ElfEdit.e_fs res !! filename = fs !! filename
  /\ (forall p, p ≠ filename +:+ ".bak" -> ElfEdit.e_fs res !! p = fs !! p)
  /\ match ElfEdit.e_err res with
     | Ok _ =>
         exists original,
           fs !! filename = Some original
           /\ ElfEdit.e_fs res = <[filename +:+ ".bak" := original]> fs
     | _ => Os.accepts_all os -> ElfEdit.e_fs res = fs
     end
  /\ ELF.Sections (ElfEdit.e_elf res) = ELF.Sections elfFile
  /\ ELF.Symbols (ElfEdit.e_elf res) = ELF.Symbols elfFile
  /\ ELF.Entry (ElfEdit.e_elf res) = ELF.Entry elfFile
  /\ ELF.Machine (ElfEdit.e_elf res) = ELF.Machine elfFile.
Proof.
  assert (forall e,
    ELF.Sections e = ELF.Sections elfFile ->
    ELF.Symbols e = ELF.Symbols elfFile ->
    ELF.Entry e = ELF.Entry elfFile ->
    ELF.Machine e = ELF.Machine elfFile ->
    let res := ElfEdit.writeELFFile os fs filename e in
    ElfEdit.e_fs res !! filename = fs !! filename
    /\ (forall p, p ≠ filename +:+ ".bak" -> ElfEdit.e_fs res !! p = fs !! p)
    /\ match ElfEdit.e_err res with
       | Ok _ =>
           exists original,
             fs !! filename = Some original
             /\ ElfEdit.e_fs res = <[filename +:+ ".bak" := original]> fs
       | _ => Os.accepts_all os -> ElfEdit.e_fs res = fs
       end
    /\ ELF.Sections (ElfEdit.e_elf res) = ELF.Sections elfFile
    /\ ELF.Symbols (ElfEdit.e_elf res) = ELF.Symbols elfFile
    /\ ELF.Entry (ElfEdit.e_elf res) = ELF.Entry elfFile
    /\ ELF.Machine (ElfEdit.e_elf res) = ELF.Machine elfFile) as Hwrite.
  { intros e H1 H2 H3 H4 res.
    destruct (writeELFFile_files os fs filename e) as (He & Hsame & Hother & Hfs).
    fold res in He, Hsame, Hother, Hfs.
    rewrite He. split_and!; try done.
    destruct (ElfEdit.e_err res).
    - destruct Hfs as (original & ? & _ & ?). by exists original.
    - by destruct Hfs.
    - by destruct Hfs. }
  intros res. subst res. unfold ElfEdit.editELF.
  repeat case_decide; destruct args as [|arg args]; try done;
    match goal with
    | |- context [if ?c then _ else _] => destruct c; [done|by apply Hwrite]
    end.
Qed.

(** * Addresses *)

(** X19. For 64-bit fields, [addrToLine] answers with the name of the
    first section whose range [Addr, Addr + Size) holds the address and
    ends below 2^64, and with the empty name when there is none: a
    section that reaches the end of the address space holds no address. *)
Theorem addrToLine_first_section (elfFile : ELF.t) (addr : Z) :
  Forall (fun s => 0 <= Section.Addr s < 2 ^ 64 /\ 0 <= Section.Size s < 2 ^ 64)
         (ELF.Sections elfFile) ->
  Addr2line.addrToLine elfFile addr
  = (match List.find (fun s => (Section.Addr s <=? addr)
                               && (addr <? Section.Addr s + Section.Size s)
                               && (Section.Addr s + Section.Size s <? 2 ^ 64))
                     (ELF.Sections elfFile) with
     | Some s => Section.Name s
     | None => ""
     end, 0).
Proof.
  unfold Addr2line.addrToLine.
  induction 1 as [|s sections [Ha Hs] _ IH]; [done|].
  cbn [Addr2line.find_section List.find]. rewrite IH. unfold wrap64.
  destruct (Section.Addr s + Section.Size s <? 2 ^ 64) eqn:Hend.
  - apply Z.ltb_lt in Hend. rewrite Z.mod_small by lia.
    rewrite andb_true_r. by destruct (_ && _).
  - apply Z.ltb_ge in Hend. rewrite andb_false_r.
    assert ((Section.Addr s + Section.Size s) mod 2 ^ 64
            = Section.Addr s + Section.Size s - 2 ^ 64) as ->.
    { symmetry. apply (Z.mod_unique_pos _ _ 1); lia. }
    destruct (Section.Addr s <=? addr) eqn:Hlo; [|done].
    apply Z.leb_le in Hlo.
    assert ((addr <? Section.Addr s + Section.Size s - 2 ^ 64) = false) as ->
      by (apply Z.ltb_ge; lia).
    done.
Qed.

Lemma addrToLine_first_section_witness :
  Addr2line.addrToLine Inputs.linked 5 = (".text", 0).
Proof.
  rewrite (addrToLine_first_section Inputs.linked 5).
  - reflexivity.
  - unfold Inputs.linked, Inputs.text_a, Inputs.data_a. cbn [ELF.Sections].
    constructor; [cbn; lia|]. constructor; [cbn; lia|]. constructor.
Defined.

Section hexadecimal.
Import Addr2line.

Lemma bytes_of_string_app a b :
  bytes_of_string (a +:+ b) = bytes_of_string a ++ bytes_of_string b.
Proof. induction a as [|c a IH]; simpl; [done|]. by rewrite <- IH. Qed.

Lemma bytes_of_repeat_char c n :
  bytes_of_string (repeat_char c n) = replicate n c.
Proof. induction n as [|n IH]; simpl; [done|]. by rewrite <- IH. Qed.

Lemma hex_digit_cases d :
  0 <= d < 16 ->
  d = 0 \/ d = 1 \/ d = 2 \/ d = 3 \/ d = 4 \/ d = 5 \/ d = 6 \/ d = 7
  \/ d = 8 \/ d = 9 \/ d = 10 \/ d = 11 \/ d = 12 \/ d = 13 \/ d = 14 \/ d = 15.
Proof. lia. Qed.

Lemma digit_value_digit_char d :
  0 <= d < 16 ->
  digit_value (digit_char d) = Some d /\ digit_char d ≠ "x"%char.
Proof.
  intros Hd. pose proof (hex_digit_cases d Hd) as H.
  repeat (destruct H as [->|H]); try subst d; by vm_compute.
Qed.

Lemma parse_hex_digit d tl m :
  0 <= d < 16 -> 0 <= m -> m * 16 + d < 2 ^ 64 ->
  parse_hex (digit_char d :: tl) m = parse_hex tl (m * 16 + d).
Proof.
  intros Hd Hm Hbound. cbn [parse_hex].
  rewrite (proj1 (digit_value_digit_char d Hd)).
  assert ((16 <=? d) = false) as -> by (apply Z.leb_gt; lia).
  assert ((2 ^ 60 <=? m) = false) as -> by (apply Z.leb_gt; lia).
  unfold wrap64. rewrite Z.mod_small by lia.
  assert ((m * 16 + d <? m * 16) = false) as -> by (apply Z.ltb_ge; lia).
  done.
Qed.

(** The hexadecimal digits written by ["%x"]: [strconv.ParseUint] in
    base 16 reads the number back. *)
Lemma fmt_hex_spec k : forall fuel u acc,
  (0 < k <= fuel)%nat -> 0 <= u < 16 ^ Z.of_nat k ->
  exists ds,
    bytes_of_string (fmt_digits 16 fuel u acc) = ds ++ bytes_of_string acc
    /\ ds ≠ []
    /\ (length ds <= k)%nat
    /\ Forall (fun c => c ≠ "x"%char) ds
    /\ forall tl n,
         0 <= n -> n * 16 ^ Z.of_nat (length ds) + u < 2 ^ 64 ->
         parse_hex (ds ++ tl) n
         = parse_hex tl (n * 16 ^ Z.of_nat (length ds) + u).
Proof.
  induction k as [|k IH]; intros fuel u acc Hk Hu; [lia|].
  destruct fuel as [|fuel]; [lia|]. simpl fmt_digits.
  assert (0 <= u mod 16 < 16) as Hmod by (apply Z.mod_pos_bound; lia).
  destruct (u <? 16) eqn:E.
  - apply Z.ltb_lt in E. exists [digit_char (u mod 16)].
    rewrite Z.mod_small by lia. split_and!.
    + done.
    + done.
    + simpl. lia.
    + constructor; [|done]. apply digit_value_digit_char. lia.
    + intros tl n Hn Hb. simpl app.
      change (16 ^ Z.of_nat (length [digit_char u])) with 16 in *.
      by rewrite parse_hex_digit by lia.
  - apply Z.ltb_ge in E.
    assert (0 < k)%nat as Hk0.
    { destruct k; [|lia]. change (16 ^ Z.of_nat 1) with 16 in Hu. lia. }
    destruct (IH fuel (u / 16) (String (digit_char (u mod 16)) acc))
      as (ds & Hb & Hne & Hlen & Hd & Hp).
    { lia. }
    { split; [apply Z.div_pos; lia|].
      apply Z.div_lt_upper_bound; [lia|].
      rewrite Nat2Z.inj_succ, Z.pow_succ_r in Hu; lia. }
    pose proof (Z.div_mod u 16) as Hdiv.
    exists (ds ++ [digit_char (u mod 16)]). split_and!.
    + rewrite Hb. simpl. by rewrite <- app_assoc.
    + by destruct ds.
    + rewrite length_app. simpl. lia.
    + apply Forall_app. split; [done|]. constructor; [|done].
      by apply digit_value_digit_char.
    + intros tl n Hn Hbound. rewrite <- app_assoc. simpl app.
      rewrite length_app in *. simpl length in *.
      rewrite Nat2Z.inj_add, Z.pow_add_r in * by lia.
      change (16 ^ Z.of_nat 1) with 16 in *.
      assert (0 <= n * 16 ^ Z.of_nat (length ds)) as Hpos.
      { apply Z.mul_nonneg_nonneg; [done|]. apply Z.pow_nonneg. lia. }
      assert (0 <= u / 16) by (apply Z.div_pos; lia).
      rewrite Hp by lia. rewrite parse_hex_digit by lia. f_equal. lia.
Qed.

Lemma parse_hex_zeros z tl : parse_hex (replicate z "0"%char ++ tl) 0 = parse_hex tl 0.
Proof. induction z as [|z IH]; [done|]. exact IH. Qed.

Lemma take_2_is_not_0x b :
  Forall (fun c => c ≠ "x"%char) b -> take 2 b ≠ ["0"; "x"]%char.
Proof.
  intros Hb Htake. destruct b as [|a [|c b]]; [done..|].
  injection Htake as _ ->.
  apply Forall_cons in Hb as [_ Hb]. by apply Forall_cons in Hb as [? _].
Qed.

End hexadecimal.

(** X20. An address printed by the lister is read back by
    [parseAddress]: the sixteen digits of ["%016x"], and the digits of
    ["%x"] behind the prefix [0x], give the value that was printed. *)
Theorem parseAddress_reads_printed_address (v : Z) :
  0 <= v < 2 ^ 64 ->
  Addr2line.parseAddress (fmt_0x 16 v) = (v, None)
  /\ Addr2line.parseAddress ("0x" +:+ fmt_x v) = (v, None).
Proof.
  intros Hv.
  destruct (fmt_hex_spec 16 16 v "") as (ds & Hb & Hne & Hlen & Hx & Hp);
    [lia|by change (16 ^ Z.of_nat 16) with (2 ^ 64)|].
  change (bytes_of_string "") with (@nil byte) in Hb. rewrite app_nil_r in Hb.
  fold (fmt_x v) in Hb.
  assert (Addr2line.parse_hex ds 0 = (v, None)) as Hparse.
  { specialize (Hp [] 0). rewrite app_nil_r in Hp. rewrite Hp; [done|lia|].
    rewrite Z.mul_0_l. lia. }
  assert (forall b, b ≠ [] -> (length b <= 16)%nat ->
            Addr2line.parse_hex b 0 = (v, None) ->
            (if decide (16 < length b)%nat then (0, Some Addr2line.address_too_long)
             else match Addr2line.ParseUint (string_of_bytes b) with
                  | (val, None) => (val, None)
                  | (_, Some err) => (0, Some err)
                  end) = (v, None)) as Hrest.
  { intros b Hb0 Hb16 Hpb. rewrite decide_False by lia.
    unfold Addr2line.ParseUint. rewrite bytes_of_string_of_bytes.
    destruct b; [done|]. by rewrite Hpb. }
  split.
  - unfold Addr2line.parseAddress, fmt_0x.
    rewrite bytes_of_string_app, bytes_of_repeat_char, Hb.
    rewrite <- length_bytes_of_string, Hb.
    set (b := replicate (16 - length ds) "0"%char ++ ds).
    assert (Forall (fun c => c ≠ "x"%char) b) as Hbx.
    { apply Forall_app. split; [|done]. by apply Forall_replicate. }
    match goal with
    | |- context [_ && ?c] => assert (c = false) as ->
    end.
    { by apply bool_decide_eq_false, take_2_is_not_0x. }
    rewrite andb_false_r. apply Hrest.
    + unfold b. by destruct (replicate _ _), ds.
    + unfold b. rewrite length_app, length_replicate. lia.
    + unfold b. by rewrite parse_hex_zeros.
  - unfold Addr2line.parseAddress.
    rewrite bytes_of_string_app, Hb.
    change (bytes_of_string "0x" ++ ds) with ("0"%char :: "x"%char :: ds).
    rewrite bool_decide_eq_true_2 by (destruct ds; [done|simpl; lia]).
    rewrite bool_decide_eq_true_2 by done.
    cbn [andb drop]. by apply Hrest.
Qed.

Lemma parseAddress_reads_printed_address_witness :
  Addr2line.parseAddress "0000000000401000" = (0x401000, None)
  /\ Addr2line.parseAddress "0x401000" = (0x401000, None).
Proof.
  assert (0 <= 0x401000 < 2 ^ 64) as H by lia.
  exact (parseAddress_reads_printed_address 0x401000 H).
Defined.

(** * Creating and updating an archive *)
Section creation.
Import Ar ArCmd.

Lemma index_members_origin existing :
  forall (acc : gmap string ArchiveMember.t) name m,
  foldl (fun members m =>
           <[ArchiveHeader.Name (ArchiveMember.Header m) := m]> members)
        acc existing !! name = Some m ->
  acc !! name = Some m
  \/ (m ∈ existing /\ ArchiveHeader.Name (ArchiveMember.Header m) = name).
Proof.
  induction existing as [|x existing IH]; intros acc name m; simpl; [by left|].
  intros [H|[Hin Hn]]%IH; [|right; split; [by right|done]].
  destruct (decide (ArchiveHeader.Name (ArchiveMember.Header x) = name))
    as [Heq|Hne].
  - rewrite Heq, lookup_insert_eq in H. injection H as <-.
    right. split; [left|done].
  - rewrite lookup_insert_ne in H by done. by left.
Qed.

Lemma index_members_kept existing :
  forall (acc : gmap string ArchiveMember.t) name,
  is_Some (acc !! name) \/ name ∈ names existing ->
  is_Some (foldl (fun members m =>
                    <[ArchiveHeader.Name (ArchiveMember.Header m) := m]> members)
                 acc existing !! name).
Proof.
  induction existing as [|x existing IH]; intros acc name Hin; simpl.
  - destruct Hin as [H|H]; [done|]. by apply elem_of_nil in H.
  - apply IH.
    destruct (decide (ArchiveHeader.Name (ArchiveMember.Header x) = name))
      as [Heq|Hne].
    + left. by rewrite Heq, lookup_insert_eq.
    + destruct Hin as [H|H].
      * left. by rewrite lookup_insert_ne.
      * right. unfold names in H. rewrite fmap_cons in H.
        by apply elem_of_cons in H as [?|?].
Qed.

(** The map after the loop over [files]: a file of the list is held
    with its content, every other name is as before. *)
Lemma add_files_lookup (fs : Fs.t) modTime files :
  forall members0 members,
  add_files fs modTime files members0 = Ok members ->
  Forall (fun f => exists data,
            fs !! f = Some data /\ Z.of_nat (length data) <= size_ceiling) files
  /\ forall name,
       members !! name
       = if decide (name ∈ files) then new_member modTime name <$> fs !! name
         else members0 !! name.
Proof.
  induction files as [|f files IH]; intros members0 members; cbn [add_files].
  - intros [= <-]. split; [constructor|]. intros name.
    rewrite decide_False; [done|]. by intros ?%elem_of_nil.
  - case_decide; [done|]. unfold Fs.Open.
    destruct (fs !! f) as [data|] eqn:Hf; [|done].
    destruct (_ <? _) eqn:Hsize; [done|]. apply Z.ltb_ge in Hsize.
    intros [Hall Hlook]%IH. split.
    + constructor; [by exists data|done].
    + intros name. rewrite Hlook.
      destruct (decide (name ∈ files)) as [Hin|Hout].
      * rewrite decide_True; [done|by right].
      * destruct (decide (f = name)) as [<-|Hne].
        -- rewrite lookup_insert_eq, decide_True by left. by rewrite Hf.
        -- rewrite lookup_insert_ne by done. rewrite decide_False; [done|].
           intros [?|?]%elem_of_cons; [by subst|done].
Qed.

Lemma old_members_storable (fs : Fs.t) archiveName existing :
  old_members fs archiveName = Some existing -> Forall storable existing.
Proof.
  unfold old_members. destruct (fs !! archiveName) as [file|] eqn:E.
  - unfold readArchive, Fs.Open. rewrite E.
    destruct (Ar.readArchive file) as [[ms|e|e]|] eqn:Hread; cbn;
      intros [= <-]; try constructor.
    unfold Ar.readArchive in Hread.
    case_decide; [done|]. case_decide; [|done].
    by apply read_members_storable in Hread.
  - intros [= <-]. constructor.
Qed.

Lemma old_members_total (fs : Fs.t) archiveName :
  exists existing, old_members fs archiveName = Some existing.
Proof.
  unfold old_members. destruct (fs !! archiveName); [|eauto].
  destruct (readArchive_total_at fs archiveName) as [res ->]. cbn. eauto.
Qed.

End creation.

(** X21. [createArchive] always has a result, and no file other than
    the archive ever changes. When it returns an error and the operating
    system refused no call, the archive has not changed either. When it
    returns nil and the names of the files have at most 16 bytes and no
    blank at either end, the archive reads back with every name once,
    the names being those of the files and of the members the archive
    had, every file stored with its length and content, and every other
    member kept with its name, declared size and data. *)
Theorem createArchive_stores_the_files (os : Os.t) (fs : Fs.t)
    (modTime : string -> Z) (archiveName : string) (files : list string) :
  (exists res, ArCmd.createArchive os fs modTime archiveName files res)
  /\ forall fs' r,
       ArCmd.createArchive os fs modTime archiveName files (fs', r) ->
       (forall p, p ≠ archiveName -> fs' !! p = fs !! p)
       /\ match r with
          | Ok _ =>
              Forall (fun f => (String.length f <= 16)%nat
                               /\ Ar.no_outer_blanks f) files ->
              exists existing members',
                ArCmd.old_members fs archiveName = Some existing
                /\ ArCmd.readArchive fs' archiveName = Some (Ok members')
                /\ NoDup (ArCmd.names members')
                /\ (forall name,
                      name ∈ ArCmd.names members'
                      <-> name ∈ files \/ name ∈ ArCmd.names existing)
                /\ (forall f, f ∈ files ->
                      exists data m',
                        fs !! f = Some data /\ m' ∈ members'
                        /\ Ar.payload m' = (f, Z.of_nat (length data), data))
                /\ (forall m', m' ∈ members' ->
                      ArchiveHeader.Name (ArchiveMember.Header m') ∉ files ->
                      exists m, m ∈ existing /\ Ar.payload m' = Ar.payload m)
          | _ => Os.accepts_all os -> fs' = fs
          end.
Proof.
  split.
  - destruct (old_members_total fs archiveName) as [existing Hold].
    destruct (ArCmd.add_files fs modTime files (ArCmd.index_members existing))
      as [members|e|e] eqn:Hadd.
    + eexists. apply (ArCmd.create_written _ _ _ _ _ existing members); [done..|].
      exists (map_to_list members). split; [by unfold Ld.range_order|done].
    + eexists. by eapply ArCmd.create_error.
    + eexists. by eapply ArCmd.create_panic.
  - intros fs' r Hrun.
    inversion Hrun as [| |existing members res Hold Hadd Hwrite]; subst;
      [done..|].
    split; [exact (writeArchive_others _ _ _ _ _ Hwrite)|].
    assert (Os.accepts_all os -> r = Ok tt) as Hquiet.
    { intros Hos. destruct Hwrite as (order & _ & Hres).
      rewrite writeArchive_in_accepted in Hres by done. congruence. }
    destruct r as [[]|e|e]; [|by intros ?%Hquiet..].
    intros Hnames.
    destruct (add_files_lookup _ _ _ _ _ Hadd) as [Hfiles Hlook].
    pose proof (old_members_storable _ _ _ Hold) as Hst.
    assert (forall k m, members !! k = Some m ->
              Ar.storable m /\ ArchiveHeader.Name (ArchiveMember.Header m) = k)
      as Hmembers.
    { intros k m. rewrite Hlook. case_decide as Hk.
      - eapply Forall_forall in Hfiles as (data & Hdata & Hsize); [|exact Hk].
        eapply Forall_forall in Hnames as [Hlen Hblank]; [|exact Hk].
        rewrite Hdata. intros [= <-]. split; [|done].
        unfold Ar.storable, ArCmd.new_member. cbn. done.
      - intros [Hemp|[Hin Hn]]%index_members_origin;
          [by rewrite lookup_empty in Hemp|].
        split; [|done]. by eapply Forall_forall in Hst. }
    destruct (written_archive_reads_back _ _ _ _ _ Hwrite Hmembers)
      as (order & Hperm & Hread & Hnm & Hall).
    exists existing, (Ar.reread <$> order.*2). split_and!; [done..| | | |].
    + rewrite Hnm, Hperm. apply NoDup_fst_map_to_list.
    + intros name. rewrite Hnm, Hperm. split.
      * intros ([k m] & -> & Hin%elem_of_map_to_list)%list_elem_of_fmap. cbn.
        rewrite Hlook in Hin. case_decide; [by left|]. right.
        apply index_members_origin in Hin as [Hemp|[Hin Hn]];
          [by rewrite lookup_empty in Hemp|].
        unfold ArCmd.names. apply list_elem_of_fmap. by exists m.
      * intros Hname.
        assert (is_Some (members !! name)) as [m Hm].
        { rewrite Hlook. case_decide as Hk.
          - eapply Forall_forall in Hfiles as (data & -> & _); [|exact Hk].
            by eexists.
          - destruct Hname as [?|Hname]; [done|].
            apply index_members_kept. by right. }
        apply list_elem_of_fmap. exists (name, m). split; [done|].
        by apply elem_of_map_to_list.
    + intros f Hf.
      eapply Forall_forall in Hfiles as Hdata; [|exact Hf].
      destruct Hdata as (data & Hdata & Hsize).
      exists data, (Ar.reread (ArCmd.new_member modTime f data)).
      split_and!; [done| |].
      * apply list_elem_of_fmap. eexists. split; [done|].
        apply list_elem_of_fmap.
        exists (f, ArCmd.new_member modTime f data). split; [done|].
        rewrite Hperm. apply elem_of_map_to_list.
        by rewrite Hlook, decide_True, Hdata.
      * rewrite reread_payload; [done|].
        apply (Hmembers f). by rewrite Hlook, decide_True, Hdata.
    + intros m' (m & -> & ([k m0] & -> & Hin)%list_elem_of_fmap)%list_elem_of_fmap
             Hout.
      change (ArchiveHeader.Name (ArchiveMember.Header (Ar.reread m0)) ∉ files)
        in Hout.
      change (exists m, m ∈ existing /\ Ar.payload (Ar.reread m0) = Ar.payload m).
      rewrite Hperm in Hin. apply elem_of_map_to_list in Hin.
      destruct (Hmembers k m0 Hin) as [Hsm Hk].
      pose proof (reread_payload m0 Hsm) as Hpay.
      assert (ArchiveHeader.Name (ArchiveMember.Header (Ar.reread m0)) = k)
        as Hk'.
      { etrans; [|exact Hk].
        exact (f_equal (fun p : string * Z * list byte => p.1.1) Hpay). }
      rewrite Hk' in Hout. rewrite Hlook, decide_False in Hin by done.
      apply index_members_origin in Hin as [Hemp|[Hin Hn]];
        [by rewrite lookup_empty in Hemp|].
      by exists m0.
Qed.

Lemma createArchive_stores_the_files_witness :
  exists members',
    ArCmd.readArchive
      (<["lib.a" :=
           Ar.writeArchive_in
             [("a.o", ArCmd.new_member Inputs.mtime "a.o" (bytes_of_string "hi!"))]]>
         Inputs.workdir)
      "lib.a"
    = Some (Ok members')
    /\ ArCmd.names members' = ["a.o"].
Proof.
  destruct (createArchive_stores_the_files [] Inputs.workdir Inputs.mtime
              "lib.a" ["a.o"]) as [_ H].
  specialize (H (<["lib.a" :=
                     Ar.writeArchive_in
                       [("a.o", ArCmd.new_member Inputs.mtime "a.o"
                                  (bytes_of_string "hi!"))]]>
                   Inputs.workdir)
                (Ok tt)).
  destruct H as [_ H].
  - apply (ArCmd.create_written _ _ _ _ _ []
             {[ "a.o" := ArCmd.new_member Inputs.mtime "a.o" (bytes_of_string "hi!") ]}).
    + by vm_compute.
    + by vm_compute.
    + eexists. split; [unfold Ld.range_order; by rewrite map_to_list_singleton|].
      by rewrite writeArchive_in_accepted by constructor.
  - destruct H as (existing & members' & _ & Hread & _ & _ & _ & _).
    + repeat constructor; by vm_compute.
    + exists members'. split; [done|].
      vm_compute in Hread. injection Hread as <-. by vm_compute.
Defined.

(** * The tools that start with the parser *)

(** X22. Neither the size tool nor the stripper gets past the parser:
    for every state of the files, [showSize] prints nothing and
    [stripFile] renames nothing, and both return the same error, that of
    opening the file or [not an ELF file] followed by the error of
    [ParseELF]. *)
Theorem size_and_strip_stop_at_the_parser (fs : Fs.t) (filename : string) :
  exists msg,
    Size.showSize fs filename = ([], Err msg)
    /\ Strip.stripFile fs filename = (fs, Err msg)
    /\ match fs !! filename with
       | Some file =>
           exists e,
             Elf.ParseELF (Elf.NewReader file) = Err e
             /\ msg = "not an ELF file: " +:+ e
       | None => msg = "open " +:+ filename +:+ ": no such file or directory"
       end.
Proof.
  unfold Size.showSize, Strip.stripFile, Fs.Open.
  destruct (fs !! filename) as [file|]; [|by eexists].
  unfold Elf.ParseELF. destruct (ParseELF_body_error file) as [w' ->].
  eexists. split_and!; [done..|]. by eexists.
Qed.
